(** * GoViking: tiered contexts, window budget, retrieval loop, sessions,
      memory deduplication and the text codec.

    A shallow embedding of the Go sources of [pkg/core], [pkg/retrieval] and
    [pkg/session], with the properties the specification states about them.

    Conventions.
    - Go [int] and [int64] are 64-bit: values are [Z], additions go through
      [GoInt.add], which wraps around.
    - Go [float64] scores are rationals ([Q]): the properties below only use
      the order of scores and exact evaluations on dyadic values.
    - Go [string] is [string] (a sequence of bytes).
    - [*Context] pointers are modelled by the records they point to; none of
      the properties below distinguishes two pointers to equal records. *)

From Stdlib Require Import ZArith QArith Qminmax List String Ascii Lia Bool.
From stdpp Require Import base gmap sets list strings.

Local Open Scope string_scope.
Local Open Scope list_scope.
Local Open Scope Z_scope.

(** ** Go machine integers *)

Module GoInt.

Definition min_int : Z := - 2 ^ 63.
Definition max_int : Z := 2 ^ 63 - 1.

Definition in_range (z : Z) : Prop := min_int <= z <= max_int.

(** Two's complement wrap-around of a 64-bit signed integer. *)
Definition wrap (z : Z) : Z := (z + 2 ^ 63) mod 2 ^ 64 - 2 ^ 63.

Definition add (a b : Z) : Z := wrap (a + b).

End GoInt.

(** ** Go [float64] comparisons, on rationals *)

Module GoFloat.

(** [a < b] and [a <= b], as booleans. *)
Definition Qltb (a b : Q) : bool := negb (Qle_bool b a).
Definition Qleb (a b : Q) : bool := Qle_bool a b.

(** A [float64] whose special values matter: a number, an infinity or NaN.
    Arithmetic on numbers is exact; rounding and overflow are left out. *)
Inductive float64 :=
  | Num (q : Q)
  | PosInf
  | NegInf
  | NaN.

(** [a < b] and [a <= b]: false as soon as one side is NaN. *)
Definition lt (a b : float64) : bool :=
  match a, b with
  | Num x, Num y => Qltb x y
  | Num _, PosInf => true
  | NegInf, Num _ => true
  | NegInf, PosInf => true
  | _, _ => false
  end.

Definition le (a b : float64) : bool :=
  match a, b with
  | Num x, Num y => Qleb x y
  | Num _, PosInf => true
  | NegInf, Num _ => true
  | NegInf, PosInf => true
  | PosInf, PosInf => true
  | NegInf, NegInf => true
  | _, _ => false
  end.

Definition neg (a : float64) : float64 :=
  match a with
  | Num x => Num (- x)
  | PosInf => NegInf
  | NegInf => PosInf
  | NaN => NaN
  end.

(** [a + b]: NaN for a NaN operand and for infinities of opposite sign. *)
Definition add (a b : float64) : float64 :=
  match a, b with
  | NaN, _ => NaN
  | _, NaN => NaN
  | Num x, Num y => Num (x + y)
  | PosInf, NegInf => NaN
  | NegInf, PosInf => NaN
  | PosInf, _ => PosInf
  | _, PosInf => PosInf
  | NegInf, _ => NegInf
  | _, NegInf => NegInf
  end.

Definition sub (a b : float64) : float64 := add a (neg b).

(** An infinity times a number: NaN for zero, else the sign decides. *)
Definition scale (inf : float64) (x : Q) : float64 :=
  if Qeq_bool x 0 then NaN
  else if Qltb 0 x then inf
  else neg inf.

Definition mul (a b : float64) : float64 :=
  match a, b with
  | NaN, _ => NaN
  | _, NaN => NaN
  | Num x, Num y => Num (x * y)
  | Num x, inf => scale inf x
  | inf, Num y => scale inf y
  | PosInf, PosInf => PosInf
  | NegInf, NegInf => PosInf
  | _, _ => NegInf
  end.

(** A number, as opposed to an infinity or NaN. *)
Definition finite (a : float64) : Prop :=
  match a with
  | Num _ => True
  | _ => False
  end.

(** The same value with a number in lowest terms. *)
Definition red (a : float64) : float64 :=
  match a with
  | Num x => Num (Qred x)
  | _ => a
  end.

(** The order of [lt] with NaN put below every other value. *)
Definition ltTotal (a b : float64) : bool :=
  match a, b with
  | NaN, NaN => false
  | NaN, _ => true
  | _, NaN => false
  | _, _ => lt a b
  end.

End GoFloat.

(** A rational written where a [float64] is expected is that number. *)
Coercion GoFloat.Num : Q >-> GoFloat.float64.
Bind Scope Q_scope with GoFloat.float64.

(** ** pkg/core: contexts and tiers (context.go) *)

Module Core.

(** [type ContextTier int] with [TierL0 = iota]. *)
Definition ContextTier := Z.
Definition TierL0 : ContextTier := 0.
Definition TierL1 : ContextTier := 1.
Definition TierL2 : ContextTier := 2.

Record Context := mkContext {
  ID : string;
  URI : string;
  ParentURI : string;
  IsLeaf : bool;
  Abstract : string;
  ActiveCount : Z;
  Tier : ContextTier
}.

Definition set_Tier (c : Context) (t : ContextTier) : Context :=
  mkContext (ID c) (URI c) (ParentURI c) (IsLeaf c) (Abstract c) (ActiveCount c) t.

Definition set_Abstract (c : Context) (a : string) : Context :=
  mkContext (ID c) (URI c) (ParentURI c) (IsLeaf c) a (ActiveCount c) (Tier c).

Record TieredContext := mkTiered {
  L0 : list Context;
  L1 : list Context;
  L2 : list Context
}.

Definition NewTieredContext : TieredContext := mkTiered [] [] [].

(** [Add]: the switch on [ctx.Tier], with its [default] branch. *)
Definition Add (tc : TieredContext) (ctx : Context) : TieredContext :=
  if Tier ctx =? TierL0 then mkTiered (L0 tc ++ [ctx]) (L1 tc) (L2 tc)
  else if Tier ctx =? TierL1 then mkTiered (L0 tc) (L1 tc ++ [ctx]) (L2 tc)
  else if Tier ctx =? TierL2 then mkTiered (L0 tc) (L1 tc) (L2 tc ++ [ctx])
  else mkTiered (L0 tc) (L1 tc ++ [ctx]) (L2 tc).

Definition GetAll (tc : TieredContext) : list Context :=
  L0 tc ++ L1 tc ++ L2 tc.

Definition Count (tc : TieredContext) : Z :=
  Z.of_nat (length (L0 tc)) + Z.of_nat (length (L1 tc)) + Z.of_nat (length (L2 tc)).

(** The inner loop of [GetByURI] and [findContextByURIInSlices]. *)
Fixpoint findInSlice (slice : list Context) (uri : string) : option Context :=
  match slice with
  | [] => None
  | ctx :: rest => if String.eqb (URI ctx) uri then Some ctx else findInSlice rest uri
  end.

Fixpoint findContextByURIInSlices (slices : list (list Context)) (uri : string)
  : option Context :=
  match slices with
  | [] => None
  | slice :: rest =>
      match findInSlice slice uri with
      | Some ctx => Some ctx
      | None => findContextByURIInSlices rest uri
      end
  end.

Definition GetByURI (tc : TieredContext) (uri : string) : option Context :=
  findContextByURIInSlices [L0 tc; L1 tc; L2 tc] uri.

(** [removeFromSlice]: drops the first entry with the URI; the boolean is the
    function's result, the list is the slice it leaves behind. *)
Fixpoint removeFromSlice (slice : list Context) (uri : string) : list Context * bool :=
  match slice with
  | [] => ([], false)
  | ctx :: rest =>
      if String.eqb (URI ctx) uri then (rest, true)
      else let '(rest', found) := removeFromSlice rest uri in (ctx :: rest', found)
  end.

Definition Remove (tc : TieredContext) (uri : string) : TieredContext * bool :=
  let '(l0, r0) := removeFromSlice (L0 tc) uri in
  if r0 then (mkTiered l0 (L1 tc) (L2 tc), true)
  else
    let '(l1, r1) := removeFromSlice (L1 tc) uri in
    if r1 then (mkTiered (L0 tc) l1 (L2 tc), true)
    else
      let '(l2, r2) := removeFromSlice (L2 tc) uri in
      if r2 then (mkTiered (L0 tc) (L1 tc) l2, true)
      else (tc, false).

(** The second half of [MoveToTier], from "Actually find and remove the
    context" on: [tc] is the store after the first removal, [ctx] the
    variable [ctx] at that point. *)
Definition moveTail (tc : TieredContext) (ctx : option Context) (uri : string)
  (tier : ContextTier) : TieredContext * bool :=
  let ctx' :=
    match ctx with
    | Some c => Some c
    | None => findContextByURIInSlices [L0 tc; L1 tc; L2 tc] uri
    end in
  match ctx' with
  | None => (tc, false)
  | Some c =>
      let l0 := fst (removeFromSlice (L0 tc) uri) in
      let l1 := fst (removeFromSlice (L1 tc) uri) in
      let l2 := fst (removeFromSlice (L2 tc) uri) in
      let c' := set_Tier c tier in
      if tier =? TierL0 then (mkTiered (l0 ++ [c']) l1 l2, true)
      else if tier =? TierL1 then (mkTiered l0 (l1 ++ [c']) l2, true)
      else if tier =? TierL2 then (mkTiered l0 l1 (l2 ++ [c']), true)
      else (mkTiered l0 l1 l2, true)
  end.

Definition MoveToTier (tc : TieredContext) (uri : string) (tier : ContextTier)
  : TieredContext * bool :=
  let '(l0, r0) := removeFromSlice (L0 tc) uri in
  if r0 then
    let tc0 := mkTiered l0 (L1 tc) (L2 tc) in
    moveTail tc0 (findContextByURIInSlices [L0 tc0] uri) uri tier
  else
    let '(l1, r1) := removeFromSlice (L1 tc) uri in
    if r1 then moveTail (mkTiered (L0 tc) l1 (L2 tc)) None uri tier
    else
      let '(l2, r2) := removeFromSlice (L2 tc) uri in
      if r2 then moveTail (mkTiered (L0 tc) (L1 tc) l2) None uri tier
      else (tc, false).

(** Number of stored contexts that carry the URI, and the store without them. *)
Definition hasURI (uri : string) (c : Context) : bool := String.eqb (URI c) uri.

Definition countURI (uri : string) (l : list Context) : nat :=
  length (List.filter (hasURI uri) l).

Definition occurrences (tc : TieredContext) (uri : string) : nat :=
  countURI uri (GetAll tc).

Definition without (uri : string) (l : list Context) : list Context :=
  List.filter (fun c => negb (hasURI uri c)) l.

(** *** window.go *)

(** [TokenCounter] is an interface with the single method [CountTokens]. *)
Definition TokenCounter := string -> Z.

(** [SimpleTokenCounter.CountTokens]: [strings.Fields] never returns a nil
    slice, so the [words == nil] branch is dead and the estimate is
    [(len(text) + 3) / 4]. *)
Definition SimpleCountTokens : TokenCounter :=
  fun text => (Z.of_nat (String.length text) + 3) / 4.

Record ContextWindowConfig := mkConfig {
  MaxTokens : Z;
  MinL0Retention : Z
}.

Record ContextWindow := mkWindow {
  config : ContextWindowConfig;
  tc : TieredContext;
  tokenCnt : TokenCounter
}.

(** The accumulation loop [total += w.tokenCnt.CountTokens(ctx.Abstract)]. *)
Definition sumTokens (cnt : TokenCounter) (ctxs : list Context) : Z :=
  fold_left (fun total ctx => GoInt.add total (cnt (Abstract ctx))) ctxs 0.

Definition currentTokensUnsafe (w : ContextWindow) : Z :=
  sumTokens (tokenCnt w) (GetAll (tc w)).

(** One iteration of the trimming loop of [FitInWindow]; the state is
    [(result, currentTokens)]. *)
Definition fitStep (w : ContextWindow) (st : list Context * Z) (ctx : Context)
  : list Context * Z :=
  let '(result, currentTokens) := st in
  let tokens := tokenCnt w (Abstract ctx) in
  if GoInt.add currentTokens tokens <=? MaxTokens (config w) then
    (result ++ [ctx], GoInt.add currentTokens tokens)
  else if (Tier ctx =? TierL0)
          && (Z.of_nat (length result) <? MinL0Retention (config w)) then
    (result ++ [ctx], GoInt.add currentTokens tokens)
  else st.

(** [FitInWindow]; its error result is always [nil] and is left out. *)
Definition FitInWindow (w : ContextWindow) : list Context :=
  let prioritized := L0 (tc w) ++ L1 (tc w) ++ L2 (tc w) in
  let currentTokens := sumTokens (tokenCnt w) prioritized in
  if currentTokens <=? MaxTokens (config w) then prioritized
  else fst (fold_left (fitStep w) prioritized ([], 0)).

Inductive WindowError :=
  | ErrWouldExceed (current new max : Z).

(** [AddContext]: the new window and the returned error ([None] is [nil]). *)
Definition AddContext (w : ContextWindow) (ctx : Context)
  : ContextWindow * option WindowError :=
  let currentTokens := currentTokensUnsafe w in
  let newTokens := tokenCnt w (Abstract ctx) in
  if GoInt.add currentTokens newTokens >? MaxTokens (config w) then
    (w, Some (ErrWouldExceed currentTokens newTokens (MaxTokens (config w))))
  else (mkWindow (config w) (Add (tc w) ctx) (tokenCnt w), None).

(** Token total of a list of contexts, as a mathematical sum. *)
Definition tokensOf (cnt : TokenCounter) (ctxs : list Context) : Z :=
  fold_right (fun ctx acc => cnt (Abstract ctx) + acc) 0 ctxs.

(** The entries of [l] whose mark is [b]. *)
Fixpoint marked {A : Type} (b : bool) (l : list A) (marks : list bool) : list A :=
  match l, marks with
  | x :: l', m :: marks' =>
      if Bool.eqb m b then x :: marked b l' marks' else marked b l' marks'
  | _, _ => []
  end.

(** Every counted abstract has a non-negative cost and the grand total fits
    a Go [int]. *)
Definition tokensFit (cnt : TokenCounter) (ctxs : list Context) : Prop :=
  Forall (fun ctx => 0 <= cnt (Abstract ctx)) ctxs
  /\ tokensOf cnt ctxs <= GoInt.max_int.

(** [c], kept at position [i] of [result], is an L0 context that did not fit:
    it was kept while fewer than [MinL0Retention] contexts had been kept, and
    with it the running total is over the budget. *)
Definition forcedL0 (w : ContextWindow) (result : list Context) (i : nat)
  (c : Context) : Prop :=
  Tier c = TierL0
  /\ Z.of_nat i < MinL0Retention (config w)
  /\ MaxTokens (config w) < tokensOf (tokenCnt w) (take (S i) result).

(** What the trimming loop of [FitInWindow] maintains: [marks] tells for each
    kept context whether it was kept by the [MinL0Retention] branch. *)
Definition fitInv (w : ContextWindow) (result : list Context) (cur : Z)
  (marks : list bool) : Prop :=
  cur = tokensOf (tokenCnt w) result
  /\ length marks = length result
  /\ Forall (fun ctx => 0 <= tokenCnt w (Abstract ctx)) result
  /\ tokensOf (tokenCnt w) (marked false result marks) <= MaxTokens (config w)
  /\ (forall (i : nat) (c : Context),
        result !! i = Some c -> marks !! i = Some true -> forcedL0 w result i c).

(** The budget property of a fitted list: its entries split into forced L0
    contexts and the others, and the others alone stay within [MaxTokens]. *)
Definition withinBudget (w : ContextWindow) (result : list Context) : Prop :=
  exists marks : list bool,
    length marks = length result
    /\ (forall (i : nat) (c : Context),
          result !! i = Some c -> marks !! i = Some true -> forcedL0 w result i c)
    /\ tokensOf (tokenCnt w) (marked false result marks) <= MaxTokens (config w)
    /\ ((forall i : nat, marks !! i = Some true -> False) ->
        tokensOf (tokenCnt w) result <= MaxTokens (config w)).

(** Sample data: a three-token L0 abstract and a one-token L1 abstract under
    a budget of two tokens. *)
Definition ctxA : Context := mkContext "1" "viking://test/a" "" true "aaaaaaaaaaaa" 0 TierL0.
Definition ctxB : Context := mkContext "2" "viking://test/b" "" true "bbbb" 0 TierL1.
Definition ctxC : Context := mkContext "3" "viking://test/c" "" true "cccc" 0 TierL1.
Definition tcAB : TieredContext := Add (Add NewTieredContext ctxA) ctxB.
Definition tightWindow : ContextWindow := mkWindow (mkConfig 2 1) tcAB SimpleCountTokens.
Definition tcB : TieredContext := Add NewTieredContext ctxB.
Definition roomyWindow : ContextWindow := mkWindow (mkConfig 2 1) tcB SimpleCountTokens.

End Core.

(** ** pkg/session: the session record and its lifecycle *)

Module Session.

(** [type State string], [type Role string]; [time.Time] is an instant. *)
Definition State := string.
Definition StateActive : State := "active".
Definition StatePaused : State := "paused".
Definition StateClosed : State := "closed".

Definition Role := string.
Definition RoleUser : Role := "user".
Definition RoleAssistant : Role := "assistant".
Definition RoleSystem : Role := "system".
Definition RoleTool : Role := "tool".

Definition Time := Z.

Inductive SessionError :=
  | ErrSessionNotFound
  | ErrSessionClosed
  | ErrInvalidState.

Record Message := mkMessage {
  MsgID : string;
  MsgSessionID : string;
  MsgRole : Role;
  MsgContent : string;
  MsgCreatedAt : Time
}.

Record Session := mkSession {
  ID : string;
  SessionID : string;
  UserID : string;
  SState : State;
  TotalTurns : Z;
  TotalTokens : Z;
  CompressionCount : Z;
  ContextsUsed : Z;
  SkillsUsed : Z;
  MemoriesExtracted : Z;
  Summary : string;
  CreatedAt : Time;
  UpdatedAt : Time;
  ClosedAt : option Time
}.

(** [NewSession]: the two fresh UUIDs and the clock reading are inputs. *)
Definition NewSession (userID id sessionID : string) (now : Time) : Session :=
  mkSession id sessionID userID StateActive 0 0 0 0 0 0 "" now now None.

(** [AddMessage] returns [*Message] and nothing else: it has no error
    result. [uuid] is the fresh id, [t1] and [t2] the two clock readings. *)
Definition AddMessage (s : Session) (role : Role) (content : string)
  (uuid : string) (t1 t2 : Time) : Session * Message :=
  let msg := mkMessage uuid (SessionID s) role content t1 in
  (mkSession (ID s) (SessionID s) (UserID s) (SState s)
     (GoInt.add (TotalTurns s) 1) (TotalTokens s) (CompressionCount s)
     (ContextsUsed s) (SkillsUsed s) (MemoriesExtracted s) (Summary s)
     (CreatedAt s) t2 (ClosedAt s),
   msg).

Definition set_state (s : Session) (st : State) (now : Time) (closed : option Time)
  : Session :=
  mkSession (ID s) (SessionID s) (UserID s) st
    (TotalTurns s) (TotalTokens s) (CompressionCount s)
    (ContextsUsed s) (SkillsUsed s) (MemoriesExtracted s) (Summary s)
    (CreatedAt s) now closed.

Definition Pause (s : Session) (now : Time) : Session * option SessionError :=
  if negb (String.eqb (SState s) StateActive) then (s, Some ErrInvalidState)
  else (set_state s StatePaused now (ClosedAt s), None).

Definition Resume (s : Session) (now : Time) : Session * option SessionError :=
  if negb (String.eqb (SState s) StatePaused) then (s, Some ErrInvalidState)
  else (set_state s StateActive now (ClosedAt s), None).

Definition Close (s : Session) (now : Time) : Session * option SessionError :=
  if String.eqb (SState s) StateClosed then (s, Some ErrSessionClosed)
  else (set_state s StateClosed now (Some now), None).

(** Sample data: a fresh session, closed at instant 5. *)
Definition freshSession : Session := NewSession "user123" "id-1" "sid-1" 1.
Definition closedSession : Session := fst (Close freshSession 5).

End Session.

(** ** container/heap of the Go standard library

    [heap.Push] and [heap.Pop] with their [up] and [down] loops, over a slice
    and the [Less] of the caller. Indices are positions in the list; for
    [j = 0] Go's [(j - 1) / 2] truncates to [0], as the subtraction on [nat]
    does. *)

Module GoHeap.

Section Heap.
Context {A : Type}.
Variable less : A -> A -> bool.

(** [h.Less(i, j)] and [h.Swap(i, j)] on a slice. *)
Definition lessAt (h : list A) (i j : nat) : bool :=
  match h !! i, h !! j with
  | Some a, Some b => less a b
  | _, _ => false
  end.

Definition swap (h : list A) (i j : nat) : list A :=
  match h !! i, h !! j with
  | Some a, Some b => <[j := a]> (<[i := b]> h)
  | _, _ => h
  end.

Fixpoint upLoop (fuel : nat) (h : list A) (j : nat) : list A :=
  match fuel with
  | O => h
  | S fuel' =>
      let i := ((j - 1) / 2)%nat in
      if (i =? j)%nat || negb (lessAt h j i) then h
      else upLoop fuel' (swap h i j) i
  end.

Definition up (h : list A) (j : nat) : list A := upLoop (S j) h j.

Fixpoint downLoop (fuel : nat) (h : list A) (i n : nat) : list A :=
  match fuel with
  | O => h
  | S fuel' =>
      let j1 := (2 * i + 1)%nat in
      if (n <=? j1)%nat then h
      else
        let j2 := (j1 + 1)%nat in
        let j := if (j2 <? n)%nat && lessAt h j2 j1 then j2 else j1 in
        if negb (lessAt h j i) then h
        else downLoop fuel' (swap h i j) j n
  end.

Definition down (h : list A) (i0 n : nat) : list A := downLoop n h i0 n.

(** [heap.Push(h, x)]: append, then [up(h, h.Len()-1)]. *)
Definition Push (h : list A) (x : A) : list A :=
  up (h ++ [x]) (length (h ++ [x]) - 1).

(** [heap.Pop(h)]: swap the root to the end, [down] on the rest, then the
    slice's own [Pop] takes the last element off. On an empty slice Go
    panics; that is [None]. *)
Definition Pop (h : list A) : option (A * list A) :=
  match h with
  | [] => None
  | _ =>
      let n := (length h - 1)%nat in
      let h1 := down (swap h 0 n) 0 n in
      match h1 !! n with
      | Some x => Some (x, take n h1)
      | None => None
      end
  end.

(** *** The heap order, for the properties below *)

(** The parent of position [i], as [up] computes it. *)
Definition parent (i : nat) : nat := ((i - 1) / 2)%nat.

(** [Less] lifted to entries that may be missing. *)
Definition lessO (x y : option A) : bool :=
  match x, y with
  | Some a, Some b => less a b
  | _, _ => false
  end.

(** Entry [k] is not less than its parent. *)
Definition ok (h : list A) (k : nat) : Prop := lessAt h k (parent k) = false.

(** The first [n] entries are in heap order: none is less than its parent. *)
Definition heapOrderedUpTo (h : list A) (n : nat) : Prop :=
  forall k, (0 < k < n)%nat -> ok h k.

Definition heapOrdered (h : list A) : Prop := heapOrderedUpTo h (length h).

(** What [up] maintains while the entry at [j] rises: the order holds
    everywhere but at [j], and the children of [j] are not less than the
    parent of [j]. *)
Definition upInv (h : list A) (j : nat) : Prop :=
  (forall k, (0 < k < length h)%nat -> k <> j -> ok h k)
  /\ ((0 < j)%nat ->
      forall c, (0 < c < length h)%nat -> parent c = j ->
                lessAt h c (parent j) = false).

(** The child of [i] that [down] compares with [i]: the smaller one among
    the first [n] entries. *)
Definition pick (h : list A) (i n : nat) : nat :=
  if (2 * i + 1 + 1 <? n)%nat && lessAt h (2 * i + 1 + 1) (2 * i + 1)
  then (2 * i + 1 + 1)%nat else (2 * i + 1)%nat.

(** What [down] maintains while the entry at [i] sinks. *)
Definition downInv (h : list A) (i n : nat) : Prop :=
  (forall k, (0 < k < n)%nat -> parent k <> i -> ok h k)
  /\ ((0 < i)%nat ->
      forall c, (0 < c < n)%nat -> parent c = i ->
                lessAt h c (parent i) = false).

End Heap.

End GoHeap.

(** ** pkg/retrieval: the hierarchical retriever (retriever.go) *)

Module Retrieval.

Record SearchResult := mkSearchResult {
  srURI : string;
  srScore : GoFloat.float64;
  srAbstract : string;
  srIsLeaf : bool;
  srParentURI : string
}.

Record RetrievalResult := mkRetrievalResult {
  rrURI : string;
  rrScore : GoFloat.float64;
  rrIsLeaf : bool;
  rrAbstract : string;
  rrParentURI : string
}.

Record HeapItem := mkHeapItem {
  hiURI : string;
  hiScore : GoFloat.float64
}.

Record RetrieverConfig := mkRetrieverConfig {
  MaxConvergenceRounds : Z;
  ScorePropagationAlpha : GoFloat.float64;
  GlobalSearchTopK : Z
}.

Definition DefaultRetrieverConfig : RetrieverConfig :=
  mkRetrieverConfig 3 (1 # 2) 3.

Record SearchOptions := mkSearchOptions {
  Limit : Z;
  ScoreThreshold : GoFloat.float64;
  ScoreGTE : bool;
  TargetDirectories : list string
}.

Inductive ContextType := ContextTypeMemory | ContextTypeResource | ContextTypeSkill
  | ContextTypeOther (name : string).

Record TypedQuery := mkTypedQuery {
  Query : string;
  QContextType : ContextType
}.

Record MatchedContext := mkMatchedContext {
  mcURI : string;
  mcContextType : ContextType;
  mcIsLeaf : bool;
  mcAbstract : string;
  mcScore : GoFloat.float64
}.

(** The trace and the trajectory: event kinds with the URI they are about,
    visited nodes in visiting order, parent-to-child edges. *)
Inductive TraceEventType :=
  | TraceEventSearchDirectoryStart
  | TraceEventCandidateSelected
  | TraceEventCandidateExcluded
  | TraceEventDirectoryQueued
  | TraceEventConvergenceCheck
  | TraceEventSearchConverged
  | TraceEventSearchSummary.

Record TrajectoryNode := mkNode {
  nodeURI : string;
  nodeDepth : Z;
  nodeScore : GoFloat.float64
}.

Record EmbedResult := mkEmbedResult { DenseVector : list Q }.

(** The two collaborators behind interfaces. A call that returns an error is
    [None]. [vsSearch query limit parent] is [VectorStore.Search] with the
    filter [parent_uri = parent] ([None]: no filter). *)
Definition Embedder := string -> option EmbedResult.
Definition VectorStore := option EmbedResult -> Z -> option string -> option (list SearchResult).

Record HierarchicalRetriever := mkRetriever {
  rconfig : RetrieverConfig;
  embedder : option Embedder;
  vectorStore : option VectorStore
}.

(** What the run-time supplies: [ctxDone k] tells whether the cancellation
    token is found fired at the [k]-th loop check (counted from 0), and
    [sortSlice] is [sort.Slice] with the given [less]. *)
Record Runtime := mkRuntime {
  ctxDone : nat -> bool;
  sortSlice : (RetrievalResult -> RetrievalResult -> bool)
              -> list RetrievalResult -> list RetrievalResult
}.

Inductive RetrievalError :=
  | ErrCancelled
  | ErrEmbedFailed
  | ErrRecursiveSearchFailed (cause : RetrievalError).

(** [SearchResultHeap.Less]: [h[i].Score < h[j].Score]. *)
Definition heapLess (a b : SearchResult) : bool := GoFloat.lt (srScore a) (srScore b).

Definition heapPush := GoHeap.Push heapLess.
Definition heapPop := GoHeap.Pop heapLess.

(** [getTopK]: [results] itself when [k >= len(results)], else
    [results[:k]], which panics ([None]) for a negative [k]. *)
Definition getTopK (results : list RetrievalResult) (k : Z)
  : option (list RetrievalResult) :=
  if k >=? Z.of_nat (length results) then Some results
  else if k <? 0 then None
  else Some (take (Z.to_nat k) results).

(** [mapsEqual] on maps that hold [true] at each of their keys. *)
Definition mapsEqual (a b : gset string) : bool :=
  (size a =? size b)%nat && forallb (fun k => bool_decide (k ∈ b)) (elements a).

Definition getRootURIsForType (t : ContextType) : list string :=
  match t with
  | ContextTypeMemory => ["viking://user/memories"; "viking://agent/memories"]
  | ContextTypeResource => ["viking://resources"]
  | ContextTypeSkill => ["viking://agent/skills"]
  | ContextTypeOther _ => []
  end.

Definition getGlobalSearchResults (hr : HierarchicalRetriever)
  (queryVector : option EmbedResult) : list SearchResult :=
  match queryVector, vectorStore hr with
  | Some _, Some vs =>
      match vs queryVector (GlobalSearchTopK (rconfig hr)) None with
      | Some results => results
      | None => []
      end
  | _, _ => []
  end.

Definition mergeStartingPoints (rootURIs : list string) (globalResults : list SearchResult)
  : list HeapItem :=
  let items := map (fun r => mkHeapItem (srURI r) (srScore r)) globalResults in
  let seen : gset string := list_to_set (map srURI globalResults) in
  fst (fold_left
         (fun (acc : list HeapItem * gset string) uri =>
            let '(items, seen) := acc in
            if bool_decide (uri ∈ seen) then acc
            else (items ++ [mkHeapItem uri 0], seen ∪ {[ uri ]}))
         rootURIs (items, seen)).

Definition searchChildren (hr : HierarchicalRetriever) (parentURI : string)
  (queryVector : option EmbedResult) (limit : Z) : option (list SearchResult) :=
  match vectorStore hr with
  | None => Some []
  | Some vs => vs queryVector limit (Some parentURI)
  end.

(** The variables of [recursiveSearch]. *)
Record LoopState := mkLoopState {
  dirQueue : list SearchResult;
  visited : gset string;
  collected : list RetrievalResult;
  prevTopKURIs : gset string;
  convergenceRounds : Z;
  depth : Z;
  trajNodes : list TrajectoryNode;
  trajEdges : list (string * string);
  events : list (TraceEventType * string)
}.

Definition thresholdPassed (opts : SearchOptions) (finalScore : GoFloat.float64) : bool :=
  if ScoreGTE opts then GoFloat.le (ScoreThreshold opts) finalScore
  else GoFloat.lt (ScoreThreshold opts) finalScore.

(** The body of [for _, child := range children]. *)
Definition childStep (alpha currentScore : GoFloat.float64) (currentURI : string)
  (opts : SearchOptions) (st : LoopState) (child : SearchResult) : LoopState :=
  let finalScore :=
    GoFloat.add (GoFloat.mul alpha (srScore child))
      (GoFloat.mul (GoFloat.sub 1 alpha) currentScore) in
  if negb (thresholdPassed opts finalScore) then
    mkLoopState (dirQueue st) (visited st) (collected st) (prevTopKURIs st)
      (convergenceRounds st) (depth st) (trajNodes st) (trajEdges st)
      (events st ++ [(TraceEventCandidateExcluded, srURI child)])
  else
    let alreadyCollected :=
      existsb (fun c => String.eqb (rrURI c) (srURI child)) (collected st) in
    let collected1 :=
      if alreadyCollected then collected st
      else collected st ++
           [mkRetrievalResult (srURI child) finalScore (srIsLeaf child) (srAbstract child) ""] in
    let events1 :=
      if alreadyCollected then events st
      else events st ++ [(TraceEventCandidateSelected, srURI child)] in
    if negb (srIsLeaf child) then
      mkLoopState
        (heapPush (dirQueue st) (mkSearchResult (srURI child) finalScore "" false ""))
        (visited st) collected1 (prevTopKURIs st) (convergenceRounds st) (depth st)
        (trajNodes st) (trajEdges st ++ [(currentURI, srURI child)])
        (events1 ++ [(TraceEventDirectoryQueued, srURI child)])
    else
      mkLoopState (dirQueue st) (visited st) collected1 (prevTopKURIs st)
        (convergenceRounds st) (depth st) (trajNodes st) (trajEdges st) events1.

(** How one pass through the body of [for dirQueue.Len() > 0] ends: at a
    [continue] or at the end of the body ([Next]), at the [break]
    ([Converged]), or in a run-time panic. *)
Inductive StepOutcome :=
  | Next (st : LoopState)
  | Converged (st : LoopState)
  | Panicked.

(** The convergence check, from [currentTopK := hr.getTopK(...)] to
    [depth++]. *)
Definition convergenceCheck (hr : HierarchicalRetriever) (opts : SearchOptions)
  (st : LoopState) : StepOutcome :=
  match getTopK (collected st) (Limit opts) with
  | None => Panicked
  | Some currentTopK =>
      let currentTopKURIs : gset string := list_to_set (map rrURI currentTopK) in
      if mapsEqual currentTopKURIs (prevTopKURIs st)
         && (Z.of_nat (size currentTopKURIs) >=? Limit opts) then
        let rounds := GoInt.add (convergenceRounds st) 1 in
        let events1 := events st ++ [(TraceEventConvergenceCheck, "")] in
        if rounds >=? MaxConvergenceRounds (rconfig hr) then
          Converged
            (mkLoopState (dirQueue st) (visited st) (collected st) (prevTopKURIs st)
               rounds (depth st) (trajNodes st) (trajEdges st)
               (events1 ++ [(TraceEventSearchConverged, "")]))
        else
          Next
            (mkLoopState (dirQueue st) (visited st) (collected st) currentTopKURIs
               rounds (GoInt.add (depth st) 1) (trajNodes st) (trajEdges st) events1)
      else
        Next
          (mkLoopState (dirQueue st) (visited st) (collected st) currentTopKURIs
             0 (GoInt.add (depth st) 1) (trajNodes st) (trajEdges st) (events st))
  end.

(** The loop body after the cancellation check. *)
Definition iteration (hr : HierarchicalRetriever) (queryVector : option EmbedResult)
  (opts : SearchOptions) (st : LoopState) : StepOutcome :=
  match heapPop (dirQueue st) with
  | None => Panicked
  | Some (item, queue1) =>
      let currentURI := srURI item in
      let currentScore := srScore item in
      if bool_decide (currentURI ∈ visited st) then
        Next (mkLoopState queue1 (visited st) (collected st) (prevTopKURIs st)
                (convergenceRounds st) (depth st) (trajNodes st) (trajEdges st)
                (events st))
      else
        let st1 :=
          mkLoopState queue1 (visited st ∪ {[ currentURI ]}) (collected st)
            (prevTopKURIs st) (convergenceRounds st) (depth st)
            (trajNodes st ++ [mkNode currentURI (depth st) currentScore])
            (trajEdges st)
            (events st ++ [(TraceEventSearchDirectoryStart, currentURI)]) in
        match searchChildren hr currentURI queryVector (GoInt.wrap (Limit opts * 2)) with
        | None => Next st1
        | Some children =>
            let st2 :=
              fold_left
                (childStep (ScorePropagationAlpha (rconfig hr)) currentScore currentURI opts)
                children st1 in
            convergenceCheck hr opts st2
        end
  end.

(** How the loop is left: its condition fails or it breaks ([Left]), the
    cancellation check fires ([Cancelled]), or a panic. *)
Inductive LoopExit :=
  | Left (st : LoopState)
  | Cancelled (st : LoopState)
  | LoopPanicked.

(** [for dirQueue.Len() > 0 { select { case <-ctx.Done(): ... } ... }];
    [tick] counts the cancellation checks made so far. [None]: more than
    [fuel] passes are needed. *)
Fixpoint searchLoop (hr : HierarchicalRetriever) (rt : Runtime)
  (queryVector : option EmbedResult) (opts : SearchOptions)
  (fuel tick : nat) (st : LoopState) : option LoopExit :=
  match dirQueue st with
  | [] => Some (Left st)
  | _ :: _ =>
      if ctxDone rt tick then Some (Cancelled st)
      else
        match fuel with
        | O => None
        | S fuel' =>
            match iteration hr queryVector opts st with
            | Next st' => searchLoop hr rt queryVector opts fuel' (S tick) st'
            | Converged st' => Some (Left st')
            | Panicked => Some LoopPanicked
            end
        end
  end.

Definition initialState (startingPoints : list HeapItem) : LoopState :=
  mkLoopState
    (fold_left (fun q sp => heapPush q (mkSearchResult (hiURI sp) (hiScore sp) "" false ""))
       startingPoints [])
    ∅ [] ∅ 0 0 [] [] [].

(** What a Go call yields: its results, or a panic. *)
Inductive Outcome (R : Type) :=
  | Returned (r : R)
  | Panic.
Arguments Returned {R} r.
Arguments Panic {R}.

(** [recursiveSearch]: the candidates and the error ([None] is [nil]). *)
Definition recursiveSearch (hr : HierarchicalRetriever) (rt : Runtime)
  (queryVector : option EmbedResult) (startingPoints : list HeapItem)
  (opts : SearchOptions) (fuel : nat)
  : option (Outcome (list RetrievalResult * option RetrievalError)) :=
  match searchLoop hr rt queryVector opts fuel 0 (initialState startingPoints) with
  | None => None
  | Some LoopPanicked => Some Panic
  | Some (Cancelled st) => Some (Returned (collected st, Some ErrCancelled))
  | Some (Left st) =>
      let sorted := sortSlice rt (fun a b => GoFloat.lt (rrScore b) (rrScore a)) (collected st) in
      if Z.of_nat (length sorted) >? Limit opts then
        if Limit opts <? 0 then Some Panic
        else Some (Returned (take (Z.to_nat (Limit opts)) sorted, None))
      else Some (Returned (sorted, None))
  end.

Definition convertToMatchedContexts (candidates : list RetrievalResult)
  (t : ContextType) : list MatchedContext :=
  map (fun c => mkMatchedContext (rrURI c) t (rrIsLeaf c) (rrAbstract c) (rrScore c))
    candidates.

Record QueryResult := mkQueryResult {
  qrQuery : TypedQuery;
  MatchedContexts : list MatchedContext;
  SearchedDirectories : list string
}.

(** The first steps of [Retrieve]: the target directories, the query vector
    ([None]: [Embed] failed) and the merged starting points. *)
Definition targetDirsOf (query : TypedQuery) (opts : SearchOptions) : list string :=
  match TargetDirectories opts with
  | [] => getRootURIsForType (QContextType query)
  | dirs => dirs
  end.

Definition queryVectorOf (hr : HierarchicalRetriever) (query : TypedQuery)
  : option (option EmbedResult) :=
  match embedder hr with
  | None => Some None
  | Some embed =>
      match embed (Query query) with
      | Some v => Some (Some v)
      | None => None
      end
  end.

Definition startingPointsOf (hr : HierarchicalRetriever) (query : TypedQuery)
  (opts : SearchOptions) (queryVector : option EmbedResult) : list HeapItem :=
  mergeStartingPoints (targetDirsOf query opts) (getGlobalSearchResults hr queryVector).

(** [Retrieve]: the [*QueryResult] ([None] is [nil]) and the error. *)
Definition Retrieve (hr : HierarchicalRetriever) (rt : Runtime) (query : TypedQuery)
  (opts : SearchOptions) (fuel : nat)
  : option (Outcome (option QueryResult * option RetrievalError)) :=
  match queryVectorOf hr query with
  | None => Some (Returned (None, Some ErrEmbedFailed))
  | Some queryVector =>
      match recursiveSearch hr rt queryVector
              (startingPointsOf hr query opts queryVector) opts fuel with
      | None => None
      | Some Panic => Some Panic
      | Some (Returned (_, Some err)) =>
          Some (Returned (None, Some (ErrRecursiveSearchFailed err)))
      | Some (Returned (candidates, None)) =>
          Some (Returned
                  (Some (mkQueryResult query
                           (convertToMatchedContexts candidates (QContextType query))
                           (targetDirsOf query opts)),
                   None))
      end
  end.

(** [n] passes through the loop body with no cancellation and no exit;
    [None] when the loop would have been left within them. *)
Fixpoint iterate (hr : HierarchicalRetriever) (queryVector : option EmbedResult)
  (opts : SearchOptions) (n : nat) (st : LoopState) : option LoopState :=
  match n with
  | O => Some st
  | S n' =>
      match dirQueue st with
      | [] => None
      | _ :: _ =>
          match iteration hr queryVector opts st with
          | Next st' => iterate hr queryVector opts n' st'
          | _ => None
          end
      end
  end.

(** The frontier of a loop state is in heap order. *)
Definition queueOrdered (st : LoopState) : Prop :=
  GoHeap.heapOrdered heapLess (dirQueue st).

(** The token is found fired at check [n] and at none before. *)
Definition firesAt (rt : Runtime) (n : nat) : Prop :=
  ctxDone rt n = true /\ forall k : nat, (k < n)%nat -> ctxDone rt k = false.

(** *** Sample data *)

(** A stable insertion sort standing in for [sort.Slice]. *)
Fixpoint insertBy {A : Type} (less : A -> A -> bool) (x : A) (l : list A) : list A :=
  match l with
  | [] => [x]
  | y :: l' => if less y x then y :: insertBy less x l' else x :: l
  end.

Definition insertionSort {A : Type} (less : A -> A -> bool) (l : list A) : list A :=
  fold_left (fun acc x => insertBy less x acc) l [].

Definition neverCancelled : Runtime := mkRuntime (fun _ => false) (@insertionSort _).
Definition cancelledAfterOne : Runtime :=
  mkRuntime (fun k => (1 <=? k)%nat) (@insertionSort _).

(** A store whose global search finds one directory with score 9/10 and
    where no directory has children. *)
Definition hitStore : VectorStore :=
  fun _ _ filter =>
    match filter with
    | None => Some [mkSearchResult "viking://resources/docs" (9 # 10) "" false ""]
    | Some _ => Some []
    end.

Definition hitRetriever : HierarchicalRetriever :=
  mkRetriever DefaultRetrieverConfig (Some (fun _ => Some (mkEmbedResult [1%Q])))
    (Some hitStore).

Definition resourceQuery : TypedQuery := mkTypedQuery "docs" ContextTypeResource.
Definition defaultOptions : SearchOptions := mkSearchOptions 5 0 false [].

(** Two root directories with one leaf each: [a] scores 1/5 under the first
    root, [b] scores 9/10 under the second. *)
Definition twoRootStore : VectorStore :=
  fun _ _ filter =>
    match filter with
    | None => Some []
    | Some parent =>
        if String.eqb parent "viking://r1" then
          Some [mkSearchResult "viking://r1/a" (1 # 5) "" true "viking://r1"]
        else if String.eqb parent "viking://r2" then
          Some [mkSearchResult "viking://r2/b" (9 # 10) "" true "viking://r2"]
        else Some []
    end.

Definition twoRootRetriever : HierarchicalRetriever :=
  mkRetriever (mkRetrieverConfig 1 (1 # 2) 3) None (Some twoRootStore).

Definition topOneOptions : SearchOptions :=
  mkSearchOptions 1 0 false ["viking://r1"; "viking://r2"].

End Retrieval.

(** ** The pieces of Go's [strings] package the sources call

    On ASCII text: [ToLower] maps [A-Z] to [a-z], [Fields] splits around
    runs of the six ASCII white-space bytes, [Contains] is the substring
    test. *)

Module GoStrings.

Definition isUpper (c : ascii) : bool :=
  (65 <=? nat_of_ascii c)%nat && (nat_of_ascii c <=? 90)%nat.

Definition toLowerChar (c : ascii) : ascii :=
  if isUpper c then ascii_of_nat (nat_of_ascii c + 32) else c.

Fixpoint ToLower (s : string) : string :=
  match s with
  | EmptyString => EmptyString
  | String c rest => String (toLowerChar c) (ToLower rest)
  end.

Definition isSpace (c : ascii) : bool :=
  let n := nat_of_ascii c in
  ((9 <=? n)%nat && (n <=? 13)%nat) || (n =? 32)%nat.

(** [cur] is the field being read, if any. *)
Fixpoint fieldsFrom (cur : option string) (s : string) : list string :=
  match s with
  | EmptyString => match cur with Some w => [w] | None => [] end
  | String c rest =>
      if isSpace c then
        match cur with
        | Some w => w :: fieldsFrom None rest
        | None => fieldsFrom None rest
        end
      else
        fieldsFrom (Some (match cur with
                          | Some w => String.append w (String c EmptyString)
                          | None => String c EmptyString
                          end)) rest
  end.

Definition Fields (s : string) : list string := fieldsFrom None s.

Fixpoint Contains (s substr : string) : bool :=
  String.prefix substr s
  || match s with
     | EmptyString => false
     | String _ rest => Contains rest substr
     end.

End GoStrings.

(** ** pkg/session: the memory deduper *)

Module Dedup.

Record ExtractedMemory := mkMemory {
  Content : string;
  Importance : Q;
  Category : string;
  SessionID : string;
  CreatedAt : Z
}.

(** What [client.Chat] comes back with: an error, a response with no
    choices, or the content of the first choice. *)
Inductive ChatOutcome :=
  | ChatError
  | NoChoices
  | Reply (content : string).

(** The LLM behind [llm.Provider]: its answer for the [i]-th group. *)
Definition Provider := nat -> list ExtractedMemory -> ChatOutcome.

Record MemoryDeduper := mkDeduper {
  client : Provider;
  threshold : Q
}.

Definition NewMemoryDeduper (client : Provider) (threshold : Q) : MemoryDeduper :=
  mkDeduper client (if Qeq_bool threshold 0 then 8 # 10 else threshold).

Inductive DedupDecision :=
  | DedupDecisionMerge
  | DedupDecisionCreate
  | DedupDecisionDelete
  | DedupDecisionKeepBoth.

(** [wordCount[w]++] over the words of a text. *)
Definition countWords (words : list string) : gmap string Z :=
  fold_left (fun (m : gmap string Z) w => <[w := GoInt.add (default 0 (m !! w)) 1]> m)
    words ∅.

(** [calculateSimilarity]: the Jaccard index of the two word sets. *)
Definition calculateSimilarity (a b : string) : Q :=
  let wordsA := GoStrings.Fields (GoStrings.ToLower a) in
  let wordsB := GoStrings.Fields (GoStrings.ToLower b) in
  match wordsA, wordsB with
  | [], _ | _, [] => 0%Q
  | _, _ =>
      let wordCountA := countWords wordsA in
      let wordCountB := countWords wordsB in
      let common :=
        size (filter (fun w => w ∈ dom wordCountB) (dom wordCountA)) in
      let total := Z.of_nat (size wordCountA) + Z.of_nat (size wordCountB)
                   - Z.of_nat common in
      if total =? 0 then 1%Q
      else (inject_Z (Z.of_nat common) / inject_Z total)%Q
  end.

(** [calculateSimilarity(a, b) >= d.threshold]. *)
Definition similar (d : MemoryDeduper) (a b : string) : bool :=
  Qle_bool (threshold d) (calculateSimilarity a b).

(** The inner loop of [groupSimilar]: [m] joins the first group whose first
    member it is similar to; the boolean is [added]. *)
Fixpoint placeInGroups (d : MemoryDeduper) (groups : list (list ExtractedMemory))
  (m : ExtractedMemory) : list (list ExtractedMemory) * bool :=
  match groups with
  | [] => ([], false)
  | group :: rest =>
      match group with
      | first :: _ =>
          if similar d (Content m) (Content first) then ((group ++ [m]) :: rest, true)
          else let '(rest', added) := placeInGroups d rest m in (group :: rest', added)
      | [] => let '(rest', added) := placeInGroups d rest m in (group :: rest', added)
      end
  end.

Definition groupSimilar (d : MemoryDeduper) (memories : list ExtractedMemory)
  : list (list ExtractedMemory) :=
  fold_left
    (fun groups m =>
       let '(groups', added) := placeInGroups d groups m in
       if added then groups' else groups' ++ [[m]])
    memories [].

(** [parseDecisions]: [count] decisions, set from the keywords of the reply. *)
Definition parseDecisions (response : string) (count : nat) : list DedupDecision :=
  let lower := GoStrings.ToLower response in
  if GoStrings.Contains lower "merge" then
    match count with
    | O => []
    | S n => DedupDecisionMerge :: repeat DedupDecisionDelete n
    end
  else if GoStrings.Contains lower "keep" then repeat DedupDecisionKeepBoth count
  else
    match count with
    | O => []
    | S n => DedupDecisionMerge :: repeat DedupDecisionKeepBoth n
    end.

(** [decideMergeOrDelete] for the [i]-th group: [None] is the error result,
    [Some []] the nil slice. *)
Definition decideMergeOrDelete (d : MemoryDeduper) (i : nat)
  (memories : list ExtractedMemory) : option (list DedupDecision) :=
  match memories with
  | [] => Some []
  | [_] => Some [DedupDecisionCreate]
  | _ =>
      match client d i memories with
      | ChatError => None
      | NoChoices => Some []
      | Reply content => Some (parseDecisions content (length memories))
      end
  end.

(** [simpleMerge]: the member with the highest importance, the earliest one
    on ties. *)
Definition simpleMerge (memories : list ExtractedMemory) : option ExtractedMemory :=
  match memories with
  | [] => None
  | first :: rest =>
      Some (fold_left
              (fun best m => if GoFloat.Qltb (Importance best) (Importance m) then m else best)
              rest first)
  end.

(** The [for i, decision := range decisions] loop over a group. *)
Fixpoint applyDecisions (i : nat) (decisions : list DedupDecision)
  (group : list ExtractedMemory) : list ExtractedMemory :=
  match decisions, group with
  | decision :: decisions', m :: group' =>
      let rest := applyDecisions (S i) decisions' group' in
      match decision with
      | DedupDecisionMerge => m :: rest
      | DedupDecisionKeepBoth => if (i =? 0)%nat then m :: rest else rest
      | DedupDecisionCreate => m :: rest
      | DedupDecisionDelete => rest
      end
  | _, _ => []
  end.

(** What the [i]-th group adds to [result]. *)
Definition groupResult (d : MemoryDeduper) (i : nat) (group : list ExtractedMemory)
  : list ExtractedMemory :=
  match group with
  | [] => []
  | [m] => [m]
  | _ =>
      match decideMergeOrDelete d i group with
      | None => match simpleMerge group with Some m => [m] | None => [] end
      | Some decisions => applyDecisions 0 decisions group
      end
  end.

Fixpoint groupResults (d : MemoryDeduper) (i : nat) (groups : list (list ExtractedMemory))
  : list ExtractedMemory :=
  match groups with
  | [] => []
  | group :: rest => groupResult d i group ++ groupResults d (S i) rest
  end.

(** [Dedup]; its error result is always [nil] and is left out. *)
Definition Dedup (d : MemoryDeduper) (memories : list ExtractedMemory)
  : list ExtractedMemory :=
  if (length memories <=? 1)%nat then memories
  else groupResults d 0 (groupSimilar d memories).

Inductive MergeError :=
  | ErrDifferentCategories.

(** [math.Min] on two scores. *)
Definition goMin (a b : Q) : Q := if Qle_bool a b then a else b.

Definition MergeMemories (a b : ExtractedMemory) : ExtractedMemory + MergeError :=
  if negb (String.eqb (Category a) (Category b)) then inr ErrDifferentCategories
  else
    let base := if GoFloat.Qltb (Importance a) (Importance b) then b else a in
    let combinedImportance := goMin 1 ((Importance a + Importance b) * (9 # 10))%Q in
    inl (mkMemory (Content base) combinedImportance (Category base)
           (SessionID base) (CreatedAt base)).

(** No entry of the list is similar to an earlier one. *)
Fixpoint pairwiseDistinct (d : MemoryDeduper) (l : list ExtractedMemory) : Prop :=
  match l with
  | [] => True
  | x :: rest =>
      Forall (fun y => similar d (Content y) (Content x) = false) rest
      /\ pairwiseDistinct d rest
  end.

(** The first member of each group. *)
Definition leaders (groups : list (list ExtractedMemory)) : list ExtractedMemory :=
  omap head groups.

(** Every call to the LLM comes back without an error. *)
Definition neverFails (d : MemoryDeduper) : Prop :=
  forall (i : nat) (group : list ExtractedMemory), client d i group <> ChatError.

(** *** Sample data *)

Definition memX : ExtractedMemory := mkMemory "b c d e f g h i j k" (1 # 10) "preference" "s" 0.
Definition memA : ExtractedMemory := mkMemory "a b c d e f g h i" (7 # 10) "preference" "s" 0.
Definition memB : ExtractedMemory := mkMemory "a b c d e f g h i j" (9 # 10) "preference" "s" 0.
Definition failingDeduper : MemoryDeduper := NewMemoryDeduper (fun _ _ => ChatError) 0.
Definition mergingDeduper : MemoryDeduper := NewMemoryDeduper (fun _ _ => Reply "merge") 0.

End Dedup.

(** ** encoding/base64 of the Go standard library: [StdEncoding]

    The standard alphabet with [=] padding. [DecodeString] skips carriage
    returns and line feeds, requires full padding and returns an error
    ([None]) on any other byte outside the alphabet. *)

Module Base64.

Definition alphabet : string :=
  "ABCDEFGHIJKLMNOPQRSTUVWXYZabcdefghijklmnopqrstuvwxyz0123456789+/".

Definition padChar : ascii := "="%char.

(** The character of a 6-bit value, and the value of a character. *)
Definition encodeChar (v : N) : ascii :=
  match String.get (N.to_nat v) alphabet with
  | Some c => c
  | None => padChar
  end.

Fixpoint indexFrom (c : ascii) (table : string) (i : N) : option N :=
  match table with
  | EmptyString => None
  | String t rest => if Ascii.eqb c t then Some i else indexFrom c rest (N.succ i)
  end.

Definition decodeChar (c : ascii) : option N := indexFrom c alphabet 0.

Definition byteOf (n : N) : ascii := ascii_of_N n.

Fixpoint EncodeToString (src : string) : string :=
  match src with
  | EmptyString => EmptyString
  | String a EmptyString =>
      let x := N_of_ascii a in
      String (encodeChar (x / 4))
        (String (encodeChar ((x mod 4) * 16))
           (String padChar (String padChar EmptyString)))
  | String a (String b EmptyString) =>
      let x := N_of_ascii a in
      let y := N_of_ascii b in
      String (encodeChar (x / 4))
        (String (encodeChar ((x mod 4) * 16 + y / 16))
           (String (encodeChar ((y mod 16) * 4))
              (String padChar EmptyString)))
  | String a (String b (String c rest)) =>
      let x := N_of_ascii a in
      let y := N_of_ascii b in
      let z := N_of_ascii c in
      String (encodeChar (x / 4))
        (String (encodeChar ((x mod 4) * 16 + y / 16))
           (String (encodeChar ((y mod 16) * 4 + z / 64))
              (String (encodeChar (z mod 64)) (EncodeToString rest))))
  end%N.

Definition isNewline (c : ascii) : bool :=
  Ascii.eqb c "010"%char || Ascii.eqb c "013"%char.

Fixpoint stripNewlines (s : string) : string :=
  match s with
  | EmptyString => EmptyString
  | String c rest =>
      if isNewline c then stripNewlines rest else String c (stripNewlines rest)
  end.

(** Quantum by quantum over the input without its newlines. *)
Fixpoint decodeQuanta (s : string) : option string :=
  match s with
  | EmptyString => Some EmptyString
  | String c1 (String c2 (String c3 (String c4 rest))) =>
      match decodeChar c1, decodeChar c2 with
      | Some v1, Some v2 =>
          let b1 := byteOf (v1 * 4 + v2 / 16) in
          if Ascii.eqb c3 padChar then
            if Ascii.eqb c4 padChar then
              match rest with
              | EmptyString => Some (String b1 EmptyString)
              | _ => None
              end
            else None
          else
            match decodeChar c3 with
            | Some v3 =>
                let b2 := byteOf ((v2 mod 16) * 16 + v3 / 4) in
                if Ascii.eqb c4 padChar then
                  match rest with
                  | EmptyString => Some (String b1 (String b2 EmptyString))
                  | _ => None
                  end
                else
                  match decodeChar c4 with
                  | Some v4 =>
                      let b3 := byteOf ((v3 mod 4) * 64 + v4) in
                      match decodeQuanta rest with
                      | Some tail => Some (String b1 (String b2 (String b3 tail)))
                      | None => None
                      end
                  | None => None
                  end
            | None => None
            end
      | _, _ => None
      end
  | _ => None
  end%N.

Definition DecodeString (s : string) : option string :=
  decodeQuanta (stripNewlines s).

End Base64.

(** ** pkg/core: the text codec (compression.go) *)

Module Codec.

(** What reading a gzip stream comes to: [gzip.NewReader] rejects the
    header, [io.ReadAll] fails in the body, or the data. *)
Inductive GzipRead :=
  | GzipHeaderError
  | GzipBodyError
  | GzipData (data : string).

(** compress/gzip of the Go standard library, as the two functions the
    codec uses: the bytes a writer at [DefaultCompression] produces for a
    text, and the reading of a byte string. *)
Record Gzip := mkGzip {
  gzipWrite : string -> string;
  gzipRead : string -> GzipRead
}.

(** Reading back what the writer wrote gives the text, and the writer's
    output is never empty (a gzip stream starts with its header). *)
Definition gzipFaithful (gz : Gzip) : Prop :=
  (forall text : string, gzipRead gz (gzipWrite gz text) = GzipData text)
  /\ (forall text : string, gzipWrite gz text <> "").

Inductive DecompressError :=
  | ErrReadAll.

(** [CompressText]. The three [return text] branches answer errors that a
    writer on a [bytes.Buffer] at a valid level never returns. *)
Definition CompressText (gz : Gzip) (text : string) : string :=
  if String.eqb text "" then ""
  else Base64.EncodeToString (gzipWrite gz text).

(** [DecompressText]: the string and the error ([None] is [nil]). *)
Definition DecompressText (gz : Gzip) (compressed : string)
  : string * option DecompressError :=
  if String.eqb compressed "" then ("", None)
  else
    match Base64.DecodeString compressed with
    | None => (compressed, None)
    | Some data =>
        match gzipRead gz data with
        | GzipHeaderError => (compressed, None)
        | GzipBodyError => (compressed, Some ErrReadAll)
        | GzipData result => (result, None)
        end
    end.

(** A non-empty text that [DecompressText] does not take for a compressed
    one: it is not base64, or what it decodes to does not begin a gzip
    stream. *)
Definition notAStream (gz : Gzip) (x : string) : Prop :=
  x <> ""
  /\ match Base64.DecodeString x with
     | None => True
     | Some data => gzipRead gz data = GzipHeaderError
     end.

Record CompressibleContent := mkCompressible {
  Original : string;
  Compressed : string;
  IsCompressed : bool
}.

Definition NewCompressibleContent (original : string) : CompressibleContent :=
  mkCompressible original "" false.

(** [CompressibleContent.Compress] and [Decompress]. *)
Definition Compress (gz : Gzip) (c : CompressibleContent) : CompressibleContent :=
  if String.eqb (Original c) "" || IsCompressed c then c
  else mkCompressible (Original c) (CompressText gz (Original c)) true.

Definition Decompress (gz : Gzip) (c : CompressibleContent)
  : string * option DecompressError :=
  if negb (IsCompressed c) then (Original c, None)
  else DecompressText gz (Compressed c).

(** *** Sample data: a framing that puts the two gzip magic bytes in front
    of the text and checks them when reading. *)
Definition magic : string := String "031"%char (String "139"%char EmptyString).

Definition framedGzip : Gzip :=
  mkGzip
    (fun text => String.append magic text)
    (fun data =>
       match data with
       | String a (String b rest) =>
           if Ascii.eqb a "031"%char && Ascii.eqb b "139"%char then GzipData rest
           else GzipHeaderError
       | _ => GzipHeaderError
       end).

End Codec.

(** ** pkg/core: the remaining tier and window operations *)

Module CoreExt.
Import Core.

(** [WithinLimit]. *)
Definition WithinLimit (w : ContextWindow) : bool :=
  currentTokensUnsafe w <=? MaxTokens (config w).

(** One iteration of the L1 and L2 loops of [fitInWindowUnsafe]. *)
Definition fitIfSpace (w : ContextWindow) (st : list Context * Z) (ctx : Context)
  : list Context * Z :=
  let '(result, currentTokens) := st in
  let tokens := tokenCnt w (Abstract ctx) in
  if GoInt.add currentTokens tokens <=? MaxTokens (config w) then
    (result ++ [ctx], GoInt.add currentTokens tokens)
  else st.

(** [fitInWindowUnsafe], the fitting that [OptimizeWindow] ends with: every
    L0 context is taken, L1 and L2 contexts while they fit. *)
Definition fitInWindowUnsafe (w : ContextWindow) : list Context :=
  let afterL0 :=
    fold_left
      (fun (st : list Context * Z) ctx =>
         (fst st ++ [ctx], GoInt.add (snd st) (tokenCnt w (Abstract ctx))))
      (L0 (tc w)) ([], 0) in
  let afterL1 := fold_left (fitIfSpace w) (L1 (tc w)) afterL0 in
  fst (fold_left (fitIfSpace w) (L2 (tc w)) afterL1).

(** Sample data: the same URI held by two tiers. *)
Definition ctxA1 : Context := mkContext "4" "viking://test/a" "" true "aaaa" 0 TierL1.
Definition tcDup : TieredContext := Add (Add NewTieredContext ctxA) ctxA1.

End CoreExt.

(** ** Session: the remaining operations and runs of operations *)

Module SessionExt.
Import Session.

Record FunctionCall := mkFunctionCall { FnName : string; FnArguments : string }.
Record ToolCall := mkToolCall { CallID : string; CallType : string; Function : FunctionCall }.

(** [AddToolCall]: the message (role tool, empty content) with its one tool
    call; [uuid1], [uuid2] are the fresh ids, [t1], [t2] the clock readings. *)
Definition AddToolCall (s : Session) (name arguments : string)
  (uuid1 uuid2 : string) (t1 t2 : Time) : Session * (Message * list ToolCall) :=
  let msg := mkMessage uuid1 (SessionID s) RoleTool "" t1 in
  (mkSession (ID s) (SessionID s) (UserID s) (SState s)
     (TotalTurns s) (TotalTokens s) (CompressionCount s)
     (ContextsUsed s) (GoInt.add (SkillsUsed s) 1) (MemoriesExtracted s) (Summary s)
     (CreatedAt s) t2 (ClosedAt s),
   (msg, [mkToolCall uuid2 "function" (mkFunctionCall name arguments)])).

Definition IncrementContextsUsed (s : Session) (now : Time) : Session :=
  mkSession (ID s) (SessionID s) (UserID s) (SState s)
    (TotalTurns s) (TotalTokens s) (CompressionCount s)
    (GoInt.add (ContextsUsed s) 1) (SkillsUsed s) (MemoriesExtracted s) (Summary s)
    (CreatedAt s) now (ClosedAt s).

Definition IncrementMemoriesExtracted (s : Session) (now : Time) : Session :=
  mkSession (ID s) (SessionID s) (UserID s) (SState s)
    (TotalTurns s) (TotalTokens s) (CompressionCount s)
    (ContextsUsed s) (SkillsUsed s) (GoInt.add (MemoriesExtracted s) 1) (Summary s)
    (CreatedAt s) now (ClosedAt s).

Definition IncrementCompression (s : Session) (now : Time) : Session :=
  mkSession (ID s) (SessionID s) (UserID s) (SState s)
    (TotalTurns s) (TotalTokens s) (GoInt.add (CompressionCount s) 1)
    (ContextsUsed s) (SkillsUsed s) (MemoriesExtracted s) (Summary s)
    (CreatedAt s) now (ClosedAt s).

Definition AddTokens (s : Session) (tokens : Z) (now : Time) : Session :=
  mkSession (ID s) (SessionID s) (UserID s) (SState s)
    (TotalTurns s) (GoInt.add (TotalTokens s) tokens) (CompressionCount s)
    (ContextsUsed s) (SkillsUsed s) (MemoriesExtracted s) (Summary s)
    (CreatedAt s) now (ClosedAt s).

Definition SetSummary (s : Session) (summary : string) (now : Time) : Session :=
  mkSession (ID s) (SessionID s) (UserID s) (SState s)
    (TotalTurns s) (TotalTokens s) (CompressionCount s)
    (ContextsUsed s) (SkillsUsed s) (MemoriesExtracted s) summary
    (CreatedAt s) now (ClosedAt s).

(** A call of one of the methods of [*Session], with the values the call
    draws from the clock and the UUID source. *)
Inductive Call :=
  | CallAddMessage (role : Role) (content uuid : string) (t1 t2 : Time)
  | CallAddToolCall (name arguments uuid1 uuid2 : string) (t1 t2 : Time)
  | CallPause (now : Time)
  | CallResume (now : Time)
  | CallClose (now : Time)
  | CallIncrementContextsUsed (now : Time)
  | CallIncrementMemoriesExtracted (now : Time)
  | CallIncrementCompression (now : Time)
  | CallAddTokens (tokens : Z) (now : Time)
  | CallSetSummary (summary : string) (now : Time).

(** The session a call leaves behind; a caller may drop the result. *)
Definition call (s : Session) (c : Call) : Session :=
  match c with
  | CallAddMessage role content uuid t1 t2 => fst (AddMessage s role content uuid t1 t2)
  | CallAddToolCall name arguments uuid1 uuid2 t1 t2 =>
      fst (AddToolCall s name arguments uuid1 uuid2 t1 t2)
  | CallPause now => fst (Pause s now)
  | CallResume now => fst (Resume s now)
  | CallClose now => fst (Close s now)
  | CallIncrementContextsUsed now => IncrementContextsUsed s now
  | CallIncrementMemoriesExtracted now => IncrementMemoriesExtracted s now
  | CallIncrementCompression now => IncrementCompression s now
  | CallAddTokens tokens now => AddTokens s tokens now
  | CallSetSummary summary now => SetSummary s summary now
  end.

Definition calls (s : Session) (cs : list Call) : Session := fold_left call cs s.

Definition isAddMessage (c : Call) : bool :=
  match c with CallAddMessage _ _ _ _ _ => true | _ => false end.

Definition isAddToolCall (c : Call) : bool :=
  match c with CallAddToolCall _ _ _ _ _ _ => true | _ => false end.

(** The invariant of a session's life. *)
Definition wellFormed (s : Session) : Prop :=
  (SState s = StateActive \/ SState s = StatePaused \/ SState s = StateClosed)
  /\ (SState s = StateClosed <-> ClosedAt s <> None).

End SessionExt.

(** ** Retrieval: what the search loop keeps true *)

Module RetrievalExt.
Import Retrieval.

(** No URI is collected twice and every collected score passed the
    threshold. *)
Definition collectedOK (opts : SearchOptions) (st : LoopState) : Prop :=
  NoDup (map rrURI (collected st))
  /\ Forall (fun c => thresholdPassed opts (rrScore c) = true) (collected st).

(** The trajectory lists each searched directory once, and [visited] is the
    set of the directories it lists. *)
Definition trajectoryOK (st : LoopState) : Prop :=
  NoDup (map nodeURI (trajNodes st))
  /\ visited st = list_to_set (map nodeURI (trajNodes st)).

(** The state in which the loop is left, if it is left without a panic. *)
Definition exitState (e : LoopExit) : option LoopState :=
  match e with
  | Left st => Some st
  | Cancelled st => Some st
  | LoopPanicked => None
  end.

(** Three children of one directory, two of them with the same URI. *)
Definition repeatStore : VectorStore :=
  fun _ _ filter =>
    match filter with
    | None => Some []
    | Some parent =>
        if String.eqb parent "viking://r" then
          Some [mkSearchResult "viking://r/a" (3 # 5) "" true "viking://r";
                mkSearchResult "viking://r/a" (4 # 5) "" true "viking://r";
                mkSearchResult "viking://r/d" (1 # 2) "" false "viking://r";
                mkSearchResult "viking://r/low" (1 # 100) "" true "viking://r"]
        else if String.eqb parent "viking://r/d" then
          Some [mkSearchResult "viking://r/a" (1 # 1) "" true "viking://r/d";
                mkSearchResult "viking://r" (1 # 1) "" false "viking://r/d"]
        else Some []
    end.

Definition repeatRetriever : HierarchicalRetriever :=
  mkRetriever DefaultRetrieverConfig None (Some repeatStore).

Definition repeatOptions : SearchOptions :=
  mkSearchOptions 2 (1 # 10) false ["viking://r"].

Definition negativeOptions : SearchOptions :=
  mkSearchOptions (-1) 0 false ["viking://r"].

End RetrievalExt.

(** ** The deduper: groups and what they give *)

Module DedupExt.
Import Dedup.

(** Every member of the group after the first is similar to the first. *)
Definition ledBy (d : MemoryDeduper) (group : list ExtractedMemory) : Prop :=
  match group with
  | [] => True
  | first :: rest =>
      Forall (fun m => similar d (Content m) (Content first) = true) rest
  end.

(** The words of a text, as [calculateSimilarity] reads them. *)
Definition wordsOf (s : string) : list string := GoStrings.Fields (GoStrings.ToLower s).

(** Sample memories with no word in common. *)
Definition memP : ExtractedMemory := mkMemory "p q r" (3 # 10) "fact" "s" 0.
Definition memQ : ExtractedMemory := mkMemory "u v w" (5 # 10) "fact" "s" 0.

End DedupExt.

(** ** pkg/core: the context builder *)

Module Builder.
Import Core.

(** A builder is its list of sources; a source is what [GetContexts]
    returns. *)
Definition ContextBuilder := list (list Context).

(** The body of the inner loop of [Build]. *)
Definition buildStep (acc : list Context * gset string) (ctx : Context)
  : list Context * gset string :=
  let '(result, seen) := acc in
  if bool_decide (URI ctx ∈ seen) then acc
  else (result ++ [ctx], seen ∪ {[ URI ctx ]}).

Definition Build (b : ContextBuilder) : list Context :=
  fst (fold_left (fun acc source => fold_left buildStep source acc) b ([], ∅)).

(** The body of the inner loop of [BuildTiered]. *)
Definition tieredStep (acc : TieredContext * gset string) (ctx : Context)
  : TieredContext * gset string :=
  let '(tc, seen) := acc in
  if bool_decide (URI ctx ∈ seen) then acc
  else (Add tc ctx, seen ∪ {[ URI ctx ]}).

Definition BuildTiered (b : ContextBuilder) : TieredContext :=
  fst (fold_left (fun acc source => fold_left tieredStep source acc) b
         (NewTieredContext, ∅)).

Record tieredItem := mkItem {
  ctx : Context;
  tier : ContextTier;
  order : Z
}.

(** [compareTieredItem]: tier ascending, then active count descending, then
    order ascending. *)
Definition compareTieredItem (a b : tieredItem) : Z :=
  if negb (tier a =? tier b) then
    if tier a <? tier b then -1 else 1
  else if negb (ActiveCount (ctx a) =? ActiveCount (ctx b)) then
    if ActiveCount (ctx a) >? ActiveCount (ctx b) then -1 else 1
  else if order a <? order b then -1
  else if order a >? order b then 1
  else 0.

(** The body of the inner loop of [sortByPriority]: exchange [items[i]] and
    [items[j]] when they are out of order. *)
Definition exchange (i : nat) (items : list tieredItem) (j : nat) : list tieredItem :=
  match items !! i, items !! j with
  | Some a, Some b =>
      if compareTieredItem a b >? 0 then <[j := a]> (<[i := b]> items) else items
  | _, _ => items
  end.

(** [for j := i + 1; j < len(items); j++]. *)
Definition sortPass (items : list tieredItem) (i : nat) : list tieredItem :=
  fold_left (exchange i) (seq (S i) (length items - S i)) items.

(** [for i := 0; i < len(items)-1; i++]. *)
Definition sortByPriority (items : list tieredItem) : list tieredItem :=
  fold_left sortPass (seq 0 (length items - 1)) items.

(** The collecting loops of [BuildWithPrioritization]; [i] is the index of
    the context in its source. *)
Definition collectStep (acc : list tieredItem * gset string) (ic : nat * Context)
  : list tieredItem * gset string :=
  let '(allItems, seen) := acc in
  let '(i, c) := ic in
  if bool_decide (URI c ∈ seen) then acc
  else (allItems ++ [mkItem c (Tier c) (Z.of_nat i)], seen ∪ {[ URI c ]}).

Definition indexed (source : list Context) : list (nat * Context) :=
  zip (seq 0 (length source)) source.

Definition collectItems (b : ContextBuilder) : list tieredItem :=
  fst (fold_left (fun acc source => fold_left collectStep (indexed source) acc) b ([], ∅)).

(** The body of the selecting loop of [BuildWithPrioritization]. *)
Definition selectStep (maxTokens : Z) (tokenCounter : TokenCounter)
  (acc : list Context * Z) (item : tieredItem) : list Context * Z :=
  let '(result, currentTokens) := acc in
  let tokens := tokenCounter (Abstract (ctx item)) in
  if (GoInt.add currentTokens tokens >? maxTokens) && negb (tier item =? TierL0) then acc
  else (result ++ [ctx item], GoInt.add currentTokens tokens).

Definition BuildWithPrioritization (b : ContextBuilder) (maxTokens : Z)
  (tokenCounter : TokenCounter) : list Context :=
  fst (fold_left (selectStep maxTokens tokenCounter)
         (sortByPriority (collectItems b)) ([], 0)).

(** An item is not after another one in priority. *)
Definition notAfter (a b : tieredItem) : Prop := compareTieredItem a b <= 0.

(** Every item is not after the items that follow it. *)
Definition inPriorityOrder (items : list tieredItem) : Prop :=
  forall (i j : nat) (a b : tieredItem),
    (i < j)%nat -> items !! i = Some a -> items !! j = Some b -> notAfter a b.

(** What pass [i] of [sortByPriority] keeps true while it has compared
    [items[i]] with the entries before position [k]; [items0] is the slice
    at the start of the pass. *)
Definition passInv (items0 : list tieredItem) (i k : nat) (items : list tieredItem)
  : Prop :=
  length items = length items0
  /\ (forall m : nat, (m < i)%nat -> items !! m = items0 !! m)
  /\ (forall (m : nat) (a b : tieredItem),
        (i < m < k)%nat -> items !! i = Some a -> items !! m = Some b -> notAfter a b)
  /\ (forall (m : nat) (x : tieredItem),
        (i <= m)%nat -> items !! m = Some x ->
        exists m' : nat, (i <= m')%nat /\ items0 !! m' = Some x).

(** The first [i] entries are in their final place: none is after an entry
    that follows it. *)
Definition sortedBelow (i : nat) (items : list tieredItem) : Prop :=
  forall (p q : nat) (a b : tieredItem),
    (p < i)%nat -> (p < q)%nat -> items !! p = Some a -> items !! q = Some b ->
    notAfter a b.

(** Every item is not after the items behind it. *)
Fixpoint ordered (items : list tieredItem) : Prop :=
  match items with
  | [] => True
  | a :: rest => Forall (notAfter a) rest /\ ordered rest
  end.

(** No context is in a higher tier than a context behind it. *)
Fixpoint tiersAscend (l : list Context) : Prop :=
  match l with
  | [] => True
  | c :: rest => Forall (fun c' => Tier c <= Tier c') rest /\ tiersAscend rest
  end.

(** What the loops of [Build] keep true after the contexts [done]. *)
Definition buildInv (done : list Context) (acc : list Context * gset string) : Prop :=
  snd acc = list_to_set (map URI done)
  /\ NoDup (map URI (fst acc))
  /\ sublist (fst acc) done
  /\ (forall c, c ∈ fst acc -> findInSlice done (URI c) = Some c)
  /\ (forall c, c ∈ done -> URI c ∈ map URI (fst acc)).

End Builder.

(** ** pkg/session: the session compressor *)

Module Compressor.
Import Dedup.

(** A message with its tool calls. *)
Definition Msg := (Session.Message * list SessionExt.ToolCall)%type.

(** The collaborators behind interfaces; [None] is an error result. *)
Definition MemoryExtractor := list Msg -> option (list ExtractedMemory).
Definition Summarizer := list Msg -> Z -> option (string * Z).

Record CompressionConfig := mkCompressionConfig {
  Threshold : Z;
  KeepRecent : Z;
  MaxTokens : Z;
  MinImportance : Q;
  AutoExtract : bool;
  AutoDedup : bool;
  Interval : Z
}.

Record SessionCompressor := mkCompressor {
  extractor : option MemoryExtractor;
  deduper : option MemoryDeduper;
  summarizer : option Summarizer;
  config : CompressionConfig
}.

Record SessionCompressionResult := mkCompressionResult {
  MessagesCompressed : Z;
  MemoriesExtracted : Z;
  MemoriesRemoved : Z;
  TokensSaved : Z;
  Summary : string;
  ExtractedMemories : list ExtractedMemory
}.

Inductive CompressError :=
  | ErrExtractFailed
  | ErrSummarizeFailed.

(** How a call of [Compress] ends. *)
Inductive CompressOutcome :=
  | Done (result : SessionCompressionResult)
  | Failed (err : CompressError)
  | Panics.

Definition strlen (s : string) : Z := Z.of_nat (String.length s).

(** [estimateTokens]. *)
Definition estimateTokens (messages : list Msg) : Z :=
  fold_left
    (fun total (msg : Msg) =>
       let total1 := GoInt.add total (strlen (Session.MsgContent (fst msg)) / 4) in
       if (0 <? Z.of_nat (length (snd msg))) then
         fold_left
           (fun t (tc : SessionExt.ToolCall) =>
              GoInt.add
                (GoInt.add t (strlen (SessionExt.FnName (SessionExt.Function tc)) / 4))
                (strlen (SessionExt.FnArguments (SessionExt.Function tc)) / 4))
           (snd msg) total1
       else total1)
    messages 0.

(** The extraction step of [Compress]: the counts and the memories it puts
    in the result, or the extractor's error. *)
Definition extractStep (c : SessionCompressor) (olderMsgs : list Msg)
  : option (Z * Z * list ExtractedMemory) :=
  match AutoExtract (config c), extractor c with
  | true, Some extract =>
      match extract olderMsgs with
      | None => None
      | Some memories =>
          let extracted := Z.of_nat (length memories) in
          match AutoDedup (config c), deduper c with
          | true, Some d =>
              if (1 <? Z.of_nat (length memories)) then
                let deduped := Dedup d memories in
                Some (extracted,
                      Z.of_nat (length memories) - Z.of_nat (length deduped), deduped)
              else Some (extracted, 0, memories)
          | _, _ => Some (extracted, 0, memories)
          end
      end
  | _, _ => Some (0, 0, [])
  end.

(** The summarizing step: the summary and the tokens saved. *)
Definition summarizeStep (c : SessionCompressor) (olderMsgs : list Msg)
  : option (string * Z) :=
  match summarizer c with
  | None => Some ("", 0)
  | Some summarize =>
      if estimateTokens olderMsgs >? MaxTokens (config c) then
        summarize olderMsgs (MaxTokens (config c))
      else Some ("", 0)
  end.

(** [Compress]. The slice expression [messages[len(messages)-recentCount:]]
    panics when its bound is outside [0, len(messages)]. *)
Definition Compress (c : SessionCompressor) (messages : list Msg) : CompressOutcome :=
  let n := Z.of_nat (length messages) in
  if n <=? KeepRecent (config c) then Done (mkCompressionResult 0 0 0 0 "" [])
  else
    let recentCount := if KeepRecent (config c) >? n then n else KeepRecent (config c) in
    if (n - recentCount <? 0) || (n - recentCount >? n) then Panics
    else
      let olderMsgs := take (Z.to_nat (n - recentCount)) messages in
      match extractStep c olderMsgs with
      | None => Failed ErrExtractFailed
      | Some (extracted, removed, memories) =>
          match summarizeStep c olderMsgs with
          | None => Failed ErrSummarizeFailed
          | Some (summary, tokensSaved) =>
              Done (mkCompressionResult (Z.of_nat (length olderMsgs)) extracted removed
                      tokensSaved summary memories)
          end
      end.

End Compressor.

(** ** pkg/core: truncating a text to a token budget *)

Module Truncate.
Import Core.

(** [strings.Join]. *)
Fixpoint Join (elems : list string) (sep : string) : string :=
  match elems with
  | [] => ""
  | [e] => e
  | e :: rest => String.append e (String.append sep (Join rest sep))
  end.

Section Search.
Variable tokenCounter : TokenCounter.
Variable maxTokens : Z.
Variable words : list string.

(** The text of the first [k] words fits in the budget. *)
Definition fits (k : Z) : bool :=
  tokenCounter (Join (take (Z.to_nat k) words) " ") <=? maxTokens.

(** [for low < high { ... }]; [None]: more than [fuel] passes are needed. *)
Fixpoint search (fuel : nat) (low high : Z) : option Z :=
  if low <? high then
    match fuel with
    | O => None
    | S fuel' =>
        let mid := Z.quot (GoInt.add (GoInt.add low high) 1) 2 in
        if fits mid then search fuel' mid high else search fuel' low (mid - 1)
    end
  else Some low.

End Search.

(** [TruncateText]; the loop gets as many passes as there are words, which
    is more than the halving of [high - low] needs. *)
Definition TruncateText (text : string) (maxTokens : Z) (tokenCounter : TokenCounter)
  : option string :=
  if String.eqb text "" then Some ""
  else if tokenCounter text <=? maxTokens then Some text
  else
    let words := GoStrings.Fields text in
    match words with
    | [] => Some ""
    | _ =>
        match search tokenCounter maxTokens words (length words) 0
                (Z.of_nat (length words)) with
        | None => None
        | Some low =>
            let result := Join (take (Z.to_nat low) words) " " in
            Some (if low <? Z.of_nat (length words) then String.append result "..."
                  else result)
        end
    end.

(** A counter that does not go down when words are added at the end. *)
Definition monotoneOn (tokenCounter : TokenCounter) (words : list string) : Prop :=
  forall i j : nat,
    (i <= j <= length words)%nat ->
    tokenCounter (Join (take i words) " ") <= tokenCounter (Join (take j words) " ").

(** What [TruncateText] returns when the text is over the budget and has the
    words [words]: the first [k] words and the ellipsis. *)
Definition truncatedTo (tokenCounter : TokenCounter) (maxTokens : Z)
  (words : list string) (k : nat) (result : string) : Prop :=
  (k <= length words)%nat
  /\ result = (if (k <? length words)%nat
               then String.append (Join (take k words) " ") "..."
               else Join (take k words) " ")
  /\ (k = 0%nat \/ tokenCounter (Join (take k words) " ") <= maxTokens)
  /\ (monotoneOn tokenCounter words ->
      forall j : nat, (k < j <= length words)%nat ->
                      maxTokens < tokenCounter (Join (take j words) " ")).

End Truncate.

(** ** pkg/core: what a URI says about its context *)

Module Derive.

Definition len (s : string) : Z := Z.of_nat (String.length s).

(** [s[i:j]] for [0 <= i <= j <= len(s)]. *)
Definition slice (s : string) (i j : nat) : string := String.substring i (j - i) s.

Definition hasPrefix (s prefix : string) : bool :=
  (len s >=? len prefix) && String.eqb (slice s 0 (String.length prefix)) prefix.

(** [for i := 0; i <= len(s)-len(substr); i++]. *)
Definition containsHelper (s substr : string) : bool :=
  existsb (fun i => String.eqb (slice s i (i + String.length substr)) substr)
    (seq 0 (Z.to_nat (len s - len substr + 1))).

Definition contains (s substr : string) : bool :=
  (len s >=? len substr)
  && (String.eqb s substr || ((len s >? 0) && containsHelper s substr)).

Definition ContextType := string.
Definition ContextTypeSkill : ContextType := "skill".
Definition ContextTypeMemory : ContextType := "memory".
Definition ContextTypeResource : ContextType := "resource".

Definition Category := string.
Definition CategoryPatterns : Category := "patterns".
Definition CategoryCases : Category := "cases".
Definition CategoryProfile : Category := "profile".
Definition CategoryPreferences : Category := "preferences".
Definition CategoryEntities : Category := "entities".
Definition CategoryEvents : Category := "events".

Definition deriveContextType (uri : string) : ContextType :=
  if hasPrefix uri "viking://agent/skills" then ContextTypeSkill
  else if contains uri "memories" then ContextTypeMemory
  else ContextTypeResource.

(** The second group of tests of [deriveCategory]. *)
Definition userCategory (uri : string) : Category :=
  if hasPrefix uri "viking://user/memories" then
    if contains uri "profile" then CategoryProfile
    else if contains uri "preferences" then CategoryPreferences
    else if contains uri "entities" then CategoryEntities
    else if contains uri "events" then CategoryEvents
    else ""
  else "".

Definition deriveCategory (uri : string) : Category :=
  if hasPrefix uri "viking://agent/memories" then
    if contains uri "patterns" then CategoryPatterns
    else if contains uri "cases" then CategoryCases
    else userCategory uri
  else userCategory uri.

End Derive.

(** ** Retrieval: the frontier as a heap of numbers *)

Module Frontier.
Import Retrieval.

(** [Less] with NaN put below every other score: a total order that agrees
    with [heapLess] wherever no NaN is compared. *)
Definition heapLessTotal (a b : SearchResult) : bool :=
  GoFloat.ltTotal (srScore a) (srScore b).

(** Every score of the list is a number. *)
Definition finiteScores (q : list SearchResult) : Prop :=
  Forall (fun r => GoFloat.finite (srScore r)) q.

(** Every result the vector store returns has a number as its score. *)
Definition finiteStore (hr : HierarchicalRetriever) : Prop :=
  forall vs : VectorStore,
    vectorStore hr = Some vs ->
    forall (queryVector : option EmbedResult) (limit : Z) (filter : option string)
           (results : list SearchResult),
      vs queryVector limit filter = Some results -> finiteScores results.

(** The frontier is in heap order and holds numbers only. *)
Definition frontierOK (st : LoopState) : Prop :=
  queueOrdered st /\ finiteScores (dirQueue st).

(** Starting points one of which has NaN as its score. *)
Definition nanPoints : list HeapItem :=
  [mkHeapItem "viking://a" 1; mkHeapItem "viking://b" GoFloat.NaN;
   mkHeapItem "viking://c" 5; mkHeapItem "viking://d" 0].

End Frontier.

(* ===================================================================== *)
(** * Properties *)
(* ===================================================================== *)

Module GoIntFacts.
Import GoInt.

Lemma wrap_in_range (z : Z) : in_range (wrap z).
Proof.
  unfold in_range, wrap, min_int, max_int.
  pose proof (Z.mod_pos_bound (z + 2 ^ 63) (2 ^ 64) ltac:(lia)). lia.
Qed.

Lemma wrap_small (z : Z) : in_range z -> wrap z = z.
Proof.
  unfold in_range, wrap, min_int, max_int. intros H.
  rewrite Z.mod_small; lia.
Qed.

Lemma add_exact (a b : Z) : in_range (a + b) -> add a b = a + b.
Proof. apply wrap_small. Qed.

End GoIntFacts.

(** ** Tier moves *)

Module TierFacts.
Import Core.

Section Removal.
Variable uri : string.

Lemma findInSlice_none_count (l : list Context) :
  findInSlice l uri = None <-> countURI uri l = 0%nat.
Proof.
  unfold countURI, hasURI. induction l as [|c l IH]; simpl; [tauto|].
  destruct (String.eqb (URI c) uri); simpl; [split; discriminate | exact IH].
Qed.

Lemma removeFromSlice_absent (l : list Context) :
  findInSlice l uri = None -> removeFromSlice l uri = (l, false).
Proof.
  induction l as [|c l IH]; simpl; [reflexivity|].
  destruct (String.eqb (URI c) uri); [discriminate|].
  intros H. rewrite (IH H). reflexivity.
Qed.

Lemma removeFromSlice_false (l : list Context) :
  snd (removeFromSlice l uri) = false -> findInSlice l uri = None.
Proof.
  induction l as [|c l IH]; simpl; [tauto|].
  destruct (String.eqb (URI c) uri); [discriminate|].
  destruct (removeFromSlice l uri) as [l' b]; simpl in *. exact IH.
Qed.

Lemma removeFromSlice_true (l : list Context) :
  snd (removeFromSlice l uri) = true ->
  countURI uri l = S (countURI uri (fst (removeFromSlice l uri))).
Proof.
  unfold countURI, hasURI. induction l as [|c l IH]; simpl; [discriminate|].
  destruct (String.eqb (URI c) uri) eqn:E; simpl; [reflexivity|].
  destruct (removeFromSlice l uri) as [l' b]; simpl in *.
  rewrite E. exact IH.
Qed.

Lemma without_id (l : list Context) :
  countURI uri l = 0%nat -> without uri l = l.
Proof.
  unfold without, countURI, hasURI. induction l as [|c l IH]; [reflexivity|]. simpl.
  destruct (String.eqb (URI c) uri); simpl; [discriminate|].
  intros H. rewrite (IH H). reflexivity.
Qed.

Lemma removeFromSlice_last (l : list Context) :
  snd (removeFromSlice l uri) = true ->
  countURI uri l = 1%nat ->
  fst (removeFromSlice l uri) = without uri l.
Proof.
  induction l as [|c l IH]; simpl; [discriminate|].
  unfold without, countURI, hasURI in *. simpl.
  destruct (String.eqb (URI c) uri) eqn:E; simpl.
  - intros _ H. symmetry. apply without_id. unfold countURI, hasURI. lia.
  - destruct (removeFromSlice l uri) as [l' b]; simpl in *.
    intros -> H. f_equal. apply IH; [reflexivity | exact H].
Qed.

Lemma countURI_app (l1 l2 : list Context) :
  countURI uri (l1 ++ l2) = (countURI uri l1 + countURI uri l2)%nat.
Proof. unfold countURI. rewrite List.filter_app, length_app. reflexivity. Qed.

Lemma countURI_without (l : list Context) : countURI uri (without uri l) = 0%nat.
Proof.
  unfold countURI, without, hasURI. induction l as [|c l IH]; [reflexivity|]. simpl.
  destruct (String.eqb (URI c) uri) eqn:E; simpl; [exact IH|].
  rewrite E. exact IH.
Qed.

End Removal.

(** [MoveToTier] on a URI held by no tier reports failure and changes nothing. *)
Theorem MoveToTier_absent (tc : TieredContext) (uri : string) (tier : ContextTier) :
  GetByURI tc uri = None -> MoveToTier tc uri tier = (tc, false).
Proof.
  unfold GetByURI, MoveToTier. simpl.
  destruct (findInSlice (L0 tc) uri) eqn:E0; [discriminate|].
  destruct (findInSlice (L1 tc) uri) eqn:E1; [discriminate|].
  destruct (findInSlice (L2 tc) uri) eqn:E2; [discriminate|]. intros _.
  rewrite (removeFromSlice_absent _ _ E0), (removeFromSlice_absent _ _ E1),
    (removeFromSlice_absent _ _ E2). reflexivity.
Qed.

(** The store [MoveToTier] leaves behind when the URI is held exactly once:
    the context is removed from its tier, the re-find comes back empty, and
    the function returns [false] before the reinsertion. *)
Lemma MoveToTier_unique (tc : TieredContext) (uri : string) (tier : ContextTier) :
  occurrences tc uri = 1%nat ->
  MoveToTier tc uri tier =
    (mkTiered (without uri (L0 tc)) (without uri (L1 tc)) (without uri (L2 tc)), false).
Proof.
  unfold occurrences, GetAll. rewrite !countURI_app. intros Hc.
  unfold MoveToTier.
  destruct (removeFromSlice (L0 tc) uri) as [l0 r0] eqn:E0.
  destruct r0.
  { pose proof (removeFromSlice_true uri (L0 tc)) as H. rewrite E0 in H.
    specialize (H eq_refl). simpl in H.
    assert (Hl0 : countURI uri l0 = 0%nat) by lia.
    pose proof (removeFromSlice_last uri (L0 tc)) as HL. rewrite E0 in HL.
    simpl in HL. rewrite <- HL by (reflexivity || lia).
    rewrite !without_id by lia.
    unfold moveTail. simpl.
    rewrite (proj2 (findInSlice_none_count uri l0)) by exact Hl0.
    rewrite (proj2 (findInSlice_none_count uri (L1 tc))) by lia.
    rewrite (proj2 (findInSlice_none_count uri (L2 tc))) by lia.
    reflexivity. }
  pose proof (removeFromSlice_false uri (L0 tc)) as F0. rewrite E0 in F0.
  specialize (F0 eq_refl).
  pose proof (proj1 (findInSlice_none_count uri _) F0) as C0.
  rewrite (removeFromSlice_absent _ _ F0) in E0. inversion E0; subst l0. clear E0.
  destruct (removeFromSlice (L1 tc) uri) as [l1 r1] eqn:E1.
  destruct r1.
  { pose proof (removeFromSlice_true uri (L1 tc)) as H. rewrite E1 in H.
    specialize (H eq_refl). simpl in H.
    assert (Hl1 : countURI uri l1 = 0%nat) by lia.
    pose proof (removeFromSlice_last uri (L1 tc)) as HL. rewrite E1 in HL.
    simpl in HL. rewrite <- HL by (reflexivity || lia).
    rewrite !without_id by lia.
    unfold moveTail. simpl. rewrite F0.
    rewrite (proj2 (findInSlice_none_count uri l1)) by exact Hl1.
    rewrite (proj2 (findInSlice_none_count uri (L2 tc))) by lia.
    reflexivity. }
  pose proof (removeFromSlice_false uri (L1 tc)) as F1. rewrite E1 in F1.
  specialize (F1 eq_refl).
  pose proof (proj1 (findInSlice_none_count uri _) F1) as C1.
  rewrite (removeFromSlice_absent _ _ F1) in E1. inversion E1; subst l1. clear E1.
  destruct (removeFromSlice (L2 tc) uri) as [l2 r2] eqn:E2.
  destruct r2.
  { pose proof (removeFromSlice_true uri (L2 tc)) as H. rewrite E2 in H.
    specialize (H eq_refl). simpl in H.
    assert (Hl2 : countURI uri l2 = 0%nat) by lia.
    pose proof (removeFromSlice_last uri (L2 tc)) as HL. rewrite E2 in HL.
    simpl in HL. rewrite <- HL by (reflexivity || lia).
    rewrite !without_id by lia.
    unfold moveTail. simpl. rewrite F0, F1.
    rewrite (proj2 (findInSlice_none_count uri l2)) by exact Hl2.
    reflexivity. }
  pose proof (removeFromSlice_false uri (L2 tc)) as F2. rewrite E2 in F2.
  specialize (F2 eq_refl).
  pose proof (proj1 (findInSlice_none_count uri _) F2) as C2. lia.
Qed.

(** C1. A context whose URI is held exactly once is lost by [MoveToTier]:
    the call reports failure, and afterwards no tier holds the URI, while the
    other contexts stay where they were. *)
Theorem MoveToTier_loses_context (tc : TieredContext) (uri : string)
  (tier : ContextTier) (c : Context) :
  GetByURI tc uri = Some c ->
  occurrences tc uri = 1%nat ->
  snd (MoveToTier tc uri tier) = false
  /\ GetByURI (fst (MoveToTier tc uri tier)) uri = None
  /\ GetAll (fst (MoveToTier tc uri tier)) = without uri (GetAll tc).
Proof.
  intros _ Hone. rewrite (MoveToTier_unique tc uri tier Hone). simpl.
  split; [reflexivity|]. split.
  - unfold GetByURI. simpl.
    rewrite !(proj2 (findInSlice_none_count uri _)) by apply countURI_without.
    reflexivity.
  - unfold GetAll, without. simpl. rewrite !List.filter_app. reflexivity.
Qed.

Lemma MoveToTier_absent_witness :
  MoveToTier tcAB "viking://test/none" TierL2 = (tcAB, false).
Proof. apply (MoveToTier_absent tcAB "viking://test/none" TierL2). reflexivity. Defined.

Lemma MoveToTier_loses_context_witness :
  snd (MoveToTier tcAB "viking://test/b" TierL0) = false
  /\ GetByURI (fst (MoveToTier tcAB "viking://test/b" TierL0)) "viking://test/b" = None
  /\ GetAll (fst (MoveToTier tcAB "viking://test/b" TierL0))
     = without "viking://test/b" (GetAll tcAB).
Proof.
  apply (MoveToTier_loses_context tcAB "viking://test/b" TierL0 ctxB); reflexivity.
Defined.

(** The same run, evaluated: moving the only L1 context to L0 empties L1
    and leaves L0 as it was. *)
Example MoveToTier_run :
  GetByURI tcAB "viking://test/b" = Some ctxB
  /\ MoveToTier tcAB "viking://test/b" TierL0 = (mkTiered [ctxA] [] [], false).
Proof. split; reflexivity. Qed.

End TierFacts.

(** ** The window budget *)

Module WindowFacts.
Import Core GoInt GoIntFacts.

Section Tokens.
Variable cnt : TokenCounter.

Lemma tokensOf_app (l1 l2 : list Context) :
  tokensOf cnt (l1 ++ l2) = tokensOf cnt l1 + tokensOf cnt l2.
Proof. induction l1 as [|c l1 IH]; simpl; [reflexivity | rewrite IH; lia]. Qed.

Lemma tokensOf_nonneg (l : list Context) :
  Forall (fun ctx => 0 <= cnt (Abstract ctx)) l -> 0 <= tokensOf cnt l.
Proof. induction 1; simpl; lia. Qed.

(** Without overflow the accumulation loop computes the mathematical sum. *)
Lemma sumTokens_from (l : list Context) (acc : Z) :
  Forall (fun ctx => 0 <= cnt (Abstract ctx)) l ->
  0 <= acc -> acc + tokensOf cnt l <= max_int ->
  fold_left (fun total ctx => add total (cnt (Abstract ctx))) l acc
  = acc + tokensOf cnt l.
Proof.
  intros Hnn. revert acc. induction Hnn as [|c l Hc Hl IH]; intros acc Ha Hb; simpl in *.
  - lia.
  - pose proof (tokensOf_nonneg l Hl).
    rewrite add_exact by (unfold in_range, min_int, max_int in *; lia).
    rewrite IH by lia. lia.
Qed.

Lemma sumTokens_exact (l : list Context) :
  tokensFit cnt l -> sumTokens cnt l = tokensOf cnt l.
Proof.
  intros [Hnn Hb]. unfold sumTokens. rewrite sumTokens_from; auto; lia.
Qed.

Lemma marked_app (b : bool) (l1 l2 : list Context) (m1 m2 : list bool) :
  length m1 = length l1 ->
  marked b (l1 ++ l2) (m1 ++ m2) = marked b l1 m1 ++ marked b l2 m2.
Proof.
  revert m1. induction l1 as [|c l1 IH]; intros [|m m1] H; simpl in *;
    try discriminate; [reflexivity|].
  rewrite IH by lia. destruct (Bool.eqb m b); reflexivity.
Qed.

Lemma marked_le (b : bool) (l : list Context) (marks : list bool) :
  Forall (fun ctx => 0 <= cnt (Abstract ctx)) l ->
  tokensOf cnt (marked b l marks) <= tokensOf cnt l.
Proof.
  intros H. revert marks. induction H as [|c l Hc Hl IH]; intros marks; simpl.
  - lia.
  - destruct marks as [|m marks]; simpl.
    + pose proof (tokensOf_nonneg l Hl). lia.
    + specialize (IH marks). destruct (Bool.eqb m b); simpl; lia.
Qed.

End Tokens.

Lemma fitInv_keep (w : ContextWindow) result cur marks ctx :
  fitInv w result cur marks ->
  0 <= tokenCnt w (Abstract ctx) ->
  cur + tokenCnt w (Abstract ctx) <= MaxTokens (config w) ->
  fitInv w (result ++ [ctx]) (cur + tokenCnt w (Abstract ctx)) (marks ++ [false]).
Proof.
  intros (Hc & Hl & Hnn & Hb & Hf) Hctx Hfit. unfold fitInv.
  split; [rewrite tokensOf_app; simpl; lia|].
  split; [rewrite !length_app; simpl; lia|].
  split; [apply Forall_app; split; [exact Hnn | constructor; [exact Hctx | constructor]]|].
  split.
  - rewrite marked_app by exact Hl. rewrite tokensOf_app. simpl.
    pose proof (marked_le (tokenCnt w) false result marks Hnn). lia.
  - intros i c Hi Hm. unfold forcedL0.
    destruct (decide (i < length result)%nat) as [Hlt|Hge].
    + rewrite lookup_app_l in Hi by exact Hlt.
      rewrite lookup_app_l in Hm by lia.
      rewrite take_app_le by lia. apply Hf; assumption.
    + rewrite lookup_app_r in Hm by lia.
      destruct (i - length marks)%nat; simpl in Hm; discriminate.
Qed.

Lemma fitInv_force (w : ContextWindow) result cur marks ctx :
  fitInv w result cur marks ->
  0 <= tokenCnt w (Abstract ctx) ->
  MaxTokens (config w) < cur + tokenCnt w (Abstract ctx) ->
  Tier ctx = TierL0 ->
  Z.of_nat (length result) < MinL0Retention (config w) ->
  fitInv w (result ++ [ctx]) (cur + tokenCnt w (Abstract ctx)) (marks ++ [true]).
Proof.
  intros (Hc & Hl & Hnn & Hb & Hf) Hctx Hover Ht Hmin. unfold fitInv.
  split; [rewrite tokensOf_app; simpl; lia|].
  split; [rewrite !length_app; simpl; lia|].
  split; [apply Forall_app; split; [exact Hnn | constructor; [exact Hctx | constructor]]|].
  split.
  - rewrite marked_app by exact Hl. simpl. rewrite app_nil_r. exact Hb.
  - intros i c Hi Hm. unfold forcedL0.
    destruct (decide (i < length result)%nat) as [Hlt|Hge].
    + rewrite lookup_app_l in Hi by exact Hlt.
      rewrite lookup_app_l in Hm by lia.
      rewrite take_app_le by lia. apply Hf; assumption.
    + assert (i = length result) as ->.
      { apply lookup_lt_Some in Hi. rewrite length_app in Hi. simpl in Hi. lia. }
      rewrite lookup_app_r in Hi by lia. rewrite Nat.sub_diag in Hi.
      simpl in Hi. inversion Hi; subst c.
      rewrite take_ge by (rewrite length_app; simpl; lia).
      rewrite tokensOf_app. simpl. repeat split; [exact Ht | exact Hmin | lia].
Qed.

Lemma fitLoop_inv (w : ContextWindow) (rest : list Context) :
  forall result cur marks,
    Forall (fun ctx => 0 <= tokenCnt w (Abstract ctx)) rest ->
    cur + tokensOf (tokenCnt w) rest <= max_int ->
    fitInv w result cur marks ->
    exists marks',
      fitInv w (fst (fold_left (fitStep w) rest (result, cur)))
               (snd (fold_left (fitStep w) rest (result, cur))) marks'.
Proof.
  induction rest as [|ctx rest IH]; intros result cur marks Hnn Hb Hinv.
  - exists marks. exact Hinv.
  - inversion Hnn as [|? ? Hctx Hrest]; subst. simpl in Hb |- *.
    pose proof (tokensOf_nonneg (tokenCnt w) rest Hrest) as Hr.
    assert (Hcur : 0 <= cur).
    { destruct Hinv as (-> & _ & Hn & _). apply tokensOf_nonneg. exact Hn. }
    rewrite add_exact by (unfold in_range, min_int, max_int in *; lia).
    destruct (cur + tokenCnt w (Abstract ctx) <=? MaxTokens (config w)) eqn:Efit.
    + apply Z.leb_le in Efit.
      apply (IH _ _ (marks ++ [false])); [exact Hrest | lia |].
      apply fitInv_keep; assumption.
    + apply Z.leb_gt in Efit.
      destruct ((Tier ctx =? TierL0)
                && (Z.of_nat (length result) <? MinL0Retention (config w))) eqn:Ef.
      * apply andb_true_iff in Ef as [Et Em].
        apply Z.eqb_eq in Et. apply Z.ltb_lt in Em.
        apply (IH _ _ (marks ++ [true])); [exact Hrest | lia |].
        apply fitInv_force; assumption.
      * apply (IH _ _ marks); [exact Hrest | lia | exact Hinv].
Qed.

Lemma marked_none (l : list Context) (marks : list bool) :
  length marks = length l ->
  (forall i : nat, marks !! i = Some true -> False) ->
  marked false l marks = l.
Proof.
  revert marks. induction l as [|c l IH]; intros [|m marks] Hl Hn; simpl in *;
    try discriminate; [reflexivity|].
  destruct m; [exfalso; apply (Hn 0%nat); reflexivity|]. simpl.
  f_equal. apply IH; [lia|]. intros i Hi. apply (Hn (S i)). exact Hi.
Qed.

Lemma fitInv_withinBudget (w : ContextWindow) result cur marks :
  fitInv w result cur marks -> withinBudget w result.
Proof.
  intros (Hc & Hl & Hnn & Hb & Hf). exists marks.
  split; [exact Hl|]. split; [exact Hf|]. split; [exact Hb|].
  intros Hn. rewrite (marked_none result marks Hl Hn) in Hb. exact Hb.
Qed.

(** C6. For every window with a non-negative budget whose token costs are
    non-negative and sum up within a Go [int], the list [FitInWindow] returns stays within
    [MaxTokens] once its forced L0 contexts are set aside: every context that
    pushes the total over the budget has tier L0 and was kept while fewer
    than [MinL0Retention] contexts had been kept; with no such context the
    whole total is within [MaxTokens]. *)
Theorem FitInWindow_budget (w : ContextWindow) :
  0 <= MaxTokens (config w) ->
  tokensFit (tokenCnt w) (GetAll (tc w)) ->
  withinBudget w (FitInWindow w).
Proof.
  intros Hmax Hfit. pose proof Hfit as [Hnn Hb]. unfold FitInWindow. fold (GetAll (tc w)).
  rewrite sumTokens_exact by exact Hfit.
  destruct (tokensOf (tokenCnt w) (GetAll (tc w)) <=? MaxTokens (config w)) eqn:E.
  - apply Z.leb_le in E. exists (repeat false (length (GetAll (tc w)))).
    assert (Hno : forall i : nat,
               repeat false (length (GetAll (tc w))) !! i = Some true -> False).
    { intros i Hi. apply list_elem_of_lookup_2 in Hi.
      apply list_elem_of_In, repeat_spec in Hi. discriminate. }
    split; [apply repeat_length|].
    split; [intros i c _ Hi; destruct (Hno i Hi)|].
    rewrite marked_none by (apply repeat_length || exact Hno).
    split; [exact E | intros _; exact E].
  - destruct (fitLoop_inv w (GetAll (tc w)) [] 0 []) as [marks Hinv];
      [exact Hnn | lia | |].
    + unfold fitInv. simpl.
      split; [reflexivity|]. split; [reflexivity|]. split; [constructor|].
      split; [exact Hmax|].
      intros i c Hi. rewrite lookup_nil in Hi. discriminate.
    + eapply fitInv_withinBudget. exact Hinv.
Qed.

Lemma tightWindow_fit : tokensFit (tokenCnt tightWindow) (GetAll (tc tightWindow)).
Proof. split; [repeat constructor; vm_compute; discriminate | vm_compute; discriminate]. Qed.

Lemma FitInWindow_budget_witness : withinBudget tightWindow (FitInWindow tightWindow).
Proof.
  apply (FitInWindow_budget tightWindow); [vm_compute; discriminate|].
  exact tightWindow_fit.
Defined.

(** The forced branch is live: under a budget of two tokens the three-token
    L0 context is returned, alone. *)
Example FitInWindow_forced :
  FitInWindow tightWindow = [ctxA]
  /\ tokensOf SimpleCountTokens (FitInWindow tightWindow) = 3.
Proof. split; reflexivity. Qed.

(** C10. [AddContext] accepts a context whenever the current total plus its
    cost is at most [MaxTokens], the case of equality included, and a
    rejected add returns the window it was given. *)
Theorem AddContext_within_limit (w : ContextWindow) (ctx : Context) :
  0 <= tokenCnt w (Abstract ctx) ->
  in_range (MaxTokens (config w)) ->
  (currentTokensUnsafe w + tokenCnt w (Abstract ctx) <= MaxTokens (config w) ->
   AddContext w ctx = (mkWindow (config w) (Add (tc w) ctx) (tokenCnt w), None))
  /\ (forall e : WindowError,
        snd (AddContext w ctx) = Some e ->
        fst (AddContext w ctx) = w
        /\ MaxTokens (config w) < currentTokensUnsafe w + tokenCnt w (Abstract ctx)).
Proof.
  intros Hnew Hmax.
  assert (Hcur : in_range (currentTokensUnsafe w)).
  { unfold currentTokensUnsafe, sumTokens.
    destruct (GetAll (tc w)) as [|c l] using rev_ind.
    - simpl. unfold in_range, min_int, max_int. lia.
    - rewrite fold_left_app. simpl. apply wrap_in_range. }
  unfold AddContext. split.
  - intros Hle.
    rewrite add_exact by (unfold in_range, min_int, max_int in *; lia).
    destruct (Z.gtb_spec (currentTokensUnsafe w + tokenCnt w (Abstract ctx))
                (MaxTokens (config w))); [lia | reflexivity].
  - intros e.
    destruct (add (currentTokensUnsafe w) (tokenCnt w (Abstract ctx))
                >? MaxTokens (config w)) eqn:E; simpl; [|discriminate].
    intros _. split; [reflexivity|].
    destruct (Z_le_gt_dec (currentTokensUnsafe w + tokenCnt w (Abstract ctx))
                (MaxTokens (config w))) as [Hle|Hgt]; [|lia].
    rewrite add_exact in E by (unfold in_range, min_int, max_int in *; lia).
    apply Z.gtb_lt in E. lia.
Qed.

(** Adding a one-token context to a window that holds one token under a
    budget of two: the total reaches [MaxTokens] exactly and the add is
    accepted. *)
Lemma AddContext_within_limit_witness :
  currentTokensUnsafe roomyWindow + tokenCnt roomyWindow (Abstract ctxC)
    = MaxTokens (config roomyWindow)
  /\ AddContext roomyWindow ctxC
     = (mkWindow (config roomyWindow) (Add (tc roomyWindow) ctxC) (tokenCnt roomyWindow),
        None).
Proof.
  split; [reflexivity|].
  apply (AddContext_within_limit roomyWindow ctxC);
    [vm_compute; discriminate | split; vm_compute; discriminate | vm_compute; discriminate].
Defined.

End WindowFacts.

(** ** Session lifecycle *)

Module SessionFacts.
Import Session.

Lemma Close_ok (s s' : Session) (now : Time) :
  Close s now = (s', None) ->
  SState s' = StateClosed /\ ClosedAt s' = Some now.
Proof.
  unfold Close. destruct (String.eqb (SState s) StateClosed); [discriminate|].
  intros H. inversion H; subst. split; reflexivity.
Qed.

(** C2, as the code has it. After a successful [Close] the state is closed
    and [closed_at] is set; [AddMessage] has no failure mode: on that closed
    session it still hands back the message and counts one more turn, and
    the session stays closed. *)
Theorem Close_then_AddMessage (s s' : Session) (now : Time) :
  Close s now = (s', None) ->
  SState s' = StateClosed
  /\ ClosedAt s' = Some now
  /\ forall (role : Role) (content uuid : string) (t1 t2 : Time),
       MsgRole (snd (AddMessage s' role content uuid t1 t2)) = role
       /\ MsgContent (snd (AddMessage s' role content uuid t1 t2)) = content
       /\ TotalTurns (fst (AddMessage s' role content uuid t1 t2))
          = GoInt.add (TotalTurns s') 1
       /\ SState (fst (AddMessage s' role content uuid t1 t2)) = StateClosed
       /\ ClosedAt (fst (AddMessage s' role content uuid t1 t2)) = Some now.
Proof.
  intros H. destruct (Close_ok s s' now H) as [Hs Hc].
  split; [exact Hs|]. split; [exact Hc|].
  intros role content uuid t1 t2. simpl. rewrite Hs, Hc. repeat split.
Qed.

Lemma Close_then_AddMessage_witness :
  SState closedSession = StateClosed
  /\ ClosedAt closedSession = Some 5
  /\ forall (role : Role) (content uuid : string) (t1 t2 : Time),
       MsgRole (snd (AddMessage closedSession role content uuid t1 t2)) = role
       /\ MsgContent (snd (AddMessage closedSession role content uuid t1 t2)) = content
       /\ TotalTurns (fst (AddMessage closedSession role content uuid t1 t2))
          = GoInt.add (TotalTurns closedSession) 1
       /\ SState (fst (AddMessage closedSession role content uuid t1 t2)) = StateClosed
       /\ ClosedAt (fst (AddMessage closedSession role content uuid t1 t2)) = Some 5.
Proof.
  apply (Close_then_AddMessage freshSession closedSession 5). reflexivity.
Defined.

(** C2 as stated fails: on a session that [Close] has closed, [AddMessage]
    returns the message and raises [TotalTurns] from 0 to 1. *)
Lemma AddMessage_on_closed_succeeds :
  Close freshSession 5 = (closedSession, None)
  /\ SState closedSession = StateClosed
  /\ TotalTurns closedSession = 0
  /\ AddMessage closedSession RoleUser "Hello" "m-1" 6 7
     = (mkSession "id-1" "sid-1" "user123" StateClosed 1 0 0 0 0 0 "" 1 7 (Some 5),
        mkMessage "m-1" "sid-1" RoleUser "Hello" 6).
Proof. repeat split. Qed.

End SessionFacts.

(** ** container/heap keeps the heap order *)

Module HeapFacts.
Import GoHeap.

Lemma parent_lt (k : nat) : (0 < k)%nat -> (parent k < k)%nat.
Proof. unfold parent. intros. apply Nat.Div0.div_lt_upper_bound. lia. Qed.

Lemma parent_children (k i : nat) :
  (0 < k)%nat -> (parent k = i <-> k = 2 * i + 1 \/ k = 2 * i + 2)%nat.
Proof.
  unfold parent. intros Hk.
  pose proof (Nat.div_mod (k - 1) 2 ltac:(lia)) as H.
  pose proof (Nat.mod_upper_bound (k - 1) 2 ltac:(lia)) as H'.
  split; [intros <- | intros [-> | ->]].
  - lia.
  - replace (2 * i + 1 - 1)%nat with (i * 2)%nat by lia. apply Nat.div_mul. lia.
  - replace (2 * i + 2 - 1)%nat with (1 + i * 2)%nat by lia.
    rewrite Nat.div_add by lia. reflexivity.
Qed.

Section Order.
Context {A : Type}.
Variable less : A -> A -> bool.

Local Abbreviation ok := (ok less).
Local Abbreviation heapOrderedUpTo := (heapOrderedUpTo less).
Local Abbreviation heapOrdered := (heapOrdered less).
Local Abbreviation lessO := (lessO less).
Local Abbreviation upInv := (upInv less).
Local Abbreviation downInv := (downInv less).
Local Abbreviation pick := (pick less).
Hypothesis less_asym : forall a b, less a b = true -> less b a = false.
Hypothesis less_negtrans :
  forall a b c, less b a = false -> less c b = false -> less c a = false.

Lemma swap_length (h : list A) (i j : nat) : length (swap h i j) = length h.
Proof.
  unfold swap. destruct (h !! i), (h !! j); try reflexivity.
  rewrite !length_insert. reflexivity.
Qed.

Lemma swap_lookup (h : list A) (i j k : nat) :
  (i < length h)%nat -> (j < length h)%nat ->
  swap h i j !! k = if decide (k = j) then h !! i else if decide (k = i) then h !! j else h !! k.
Proof.
  intros Hi Hj. unfold swap.
  destruct (lookup_lt_is_Some_2 h i Hi) as [a Ha].
  destruct (lookup_lt_is_Some_2 h j Hj) as [b Hb].
  rewrite Ha, Hb.
  destruct (decide (k = j)) as [->|Hkj].
  - rewrite list_lookup_insert_eq by (rewrite length_insert; lia). reflexivity.
  - rewrite list_lookup_insert_ne by congruence.
    destruct (decide (k = i)) as [->|Hki].
    + rewrite list_lookup_insert_eq by lia. reflexivity.
    + rewrite list_lookup_insert_ne by congruence. reflexivity.
Qed.


Lemma lessAt_lessO (h : list A) (i j : nat) : lessAt less h i j = lessO (h !! i) (h !! j).
Proof. reflexivity. Qed.

Lemma lessO_asym (x y : option A) : lessO x y = true -> lessO y x = false.
Proof. destruct x, y; simpl; try discriminate. apply less_asym. Qed.

Lemma lessO_irrefl (x : option A) : lessO x x = false.
Proof.
  destruct x as [a|]; simpl; [|reflexivity].
  destruct (less a a) eqn:E; [|reflexivity]. rewrite (less_asym _ _ E) in E. discriminate.
Qed.

Lemma lessO_negtrans (x y z : option A) :
  is_Some y -> lessO y x = false -> lessO z y = false -> lessO z x = false.
Proof.
  intros [b ->]. destruct x, z; simpl; try reflexivity. apply less_negtrans.
Qed.

Lemma up_step (h : list A) (j : nat) :
  (j < length h)%nat -> (0 < j)%nat ->
  upInv h j ->
  lessAt less h j (parent j) = true ->
  upInv (swap h (parent j) j) (parent j).
Proof.
  intros Hj Hj0 [Hok Hgp] Hless.
  pose proof (parent_lt j Hj0) as Hp.
  assert (Hi : (parent j < length h)%nat) by lia.
  split.
  - rewrite swap_length. intros k Hk Hki.
    pose proof (parent_lt k ltac:(lia)) as Hpk.
    unfold ok. rewrite lessAt_lessO, !swap_lookup by lia.
    destruct (decide (k = j)) as [->|Hkj].
    + rewrite decide_False by lia. rewrite decide_True by reflexivity.
      apply lessO_asym. exact Hless.
    + rewrite (decide_False (P := k = parent j)) by exact Hki.
      destruct (decide (parent k = j)) as [Hpj|Hpj].
      * rewrite <- lessAt_lessO. apply Hgp; [exact Hj0 | lia | exact Hpj].
      * destruct (decide (parent k = parent j)) as [Hpp|Hpp].
        -- apply (lessO_negtrans _ (h !! parent j)).
           ++ apply lookup_lt_is_Some_2. exact Hi.
           ++ apply lessO_asym. exact Hless.
           ++ rewrite <- Hpp. apply (Hok k); [lia | exact Hkj].
        -- apply (Hok k); [lia | exact Hkj].
  - rewrite swap_length. intros Hi0 c Hc Hpc.
    pose proof (parent_lt (parent j) Hi0) as Hg.
    pose proof (parent_lt c ltac:(lia)) as Hpc'.
    rewrite lessAt_lessO, !swap_lookup by lia.
    rewrite (decide_False (P := parent (parent j) = j)) by lia.
    rewrite (decide_False (P := parent (parent j) = parent j)) by lia.
    destruct (decide (c = j)) as [->|Hcj].
    + apply (Hok (parent j)); lia.
    + rewrite decide_False by lia.
      apply (lessO_negtrans _ (h !! parent j)).
      * apply lookup_lt_is_Some_2. exact Hi.
      * apply (Hok (parent j)); lia.
      * rewrite <- Hpc. apply (Hok c); [lia | exact Hcj].
Qed.

Lemma upLoop_S (fuel : nat) (h : list A) (j : nat) :
  upLoop less (S fuel) h j =
    if (parent j =? j)%nat || negb (lessAt less h j (parent j)) then h
    else upLoop less fuel (swap h (parent j) j) (parent j).
Proof. reflexivity. Qed.

Lemma upLoop_ordered (fuel : nat) :
  forall (h : list A) (j : nat),
    (j < fuel)%nat -> (j < length h)%nat -> upInv h j ->
    heapOrderedUpTo (upLoop less fuel h j) (length h)
    /\ length (upLoop less fuel h j) = length h.
Proof.
  induction fuel as [|fuel IH]; intros h j Hf Hj Hinv; [lia|].
  rewrite upLoop_S.
  destruct (Nat.eqb_spec (parent j) j) as [E|E]; simpl.
  - split; [|reflexivity]. intros k Hk. apply (proj1 Hinv); [exact Hk|].
    destruct (decide (0 < j)%nat) as [H0|H0]; [pose proof (parent_lt j H0); lia | lia].
  - assert (Hj0 : (0 < j)%nat).
    { destruct j; [|lia]. exfalso. apply E. reflexivity. }
    pose proof (parent_lt j Hj0) as Hp.
    destruct (lessAt less h j (parent j)) eqn:Hless; simpl.
    + destruct (IH (swap h (parent j) j) (parent j)) as [H1 H2].
      * lia.
      * rewrite swap_length. lia.
      * apply up_step; assumption.
      * rewrite swap_length in H1, H2. split; assumption.
    + split; [|reflexivity]. intros k Hk.
      destruct (decide (k = j)) as [->|Hkj]; [exact Hless|].
      apply (proj1 Hinv); assumption.
Qed.


Lemma upLoop_length (fuel : nat) :
  forall (h : list A) (j : nat), length (upLoop less fuel h j) = length h.
Proof.
  induction fuel as [|fuel IH]; intros h j; [reflexivity|].
  rewrite upLoop_S. destruct (_ || _); [reflexivity|].
  rewrite IH, swap_length. reflexivity.
Qed.

Lemma Push_length (h : list A) (x : A) : length (Push less h x) = S (length h).
Proof. unfold Push, up. rewrite upLoop_length, length_app. simpl. lia. Qed.

Lemma Push_ordered (h : list A) (x : A) :
  heapOrdered h -> heapOrdered (Push less h x).
Proof.
  intros Hh. unfold heapOrdered. rewrite Push_length.
  unfold Push, up.
  assert (Hlen : length (h ++ [x]) = S (length h)) by (rewrite length_app; simpl; lia).
  rewrite Hlen. replace (S (length h) - 1)%nat with (length h) by lia.
  destruct (upLoop_ordered (S (length h)) (h ++ [x]) (length h)) as [H _]; try lia.
  - split.
    + rewrite Hlen. intros k Hk Hne.
      pose proof (parent_lt k ltac:(lia)).
      unfold ok. rewrite lessAt_lessO, !lookup_app_l by lia.
      apply (Hh k). lia.
    + rewrite Hlen. intros H0 c Hc Hpc.
      pose proof (parent_lt c ltac:(lia)). lia.
  - rewrite Hlen in H. exact H.
Qed.

Lemma downLoop_S (fuel : nat) (h : list A) (i n : nat) :
  downLoop less (S fuel) h i n =
    if (n <=? 2 * i + 1)%nat then h
    else if negb (lessAt less h (pick h i n) i) then h
         else downLoop less fuel (swap h i (pick h i n)) (pick h i n) n.
Proof. reflexivity. Qed.

Lemma pick_spec (h : list A) (i n : nat) :
  (2 * i + 1 < n)%nat ->
  (pick h i n < n)%nat
  /\ parent (pick h i n) = i
  /\ (i < pick h i n)%nat
  /\ forall c, (0 < c < n)%nat -> parent c = i -> lessAt less h c (pick h i n) = false.
Proof.
  intros Hn. unfold pick.
  destruct (Nat.ltb_spec (2 * i + 1 + 1) n) as [H2|H2]; cbn [andb].
  - destruct (lessAt less h (2 * i + 1 + 1) (2 * i + 1)) eqn:E.
    + split; [lia|]. split; [apply parent_children; lia|]. split; [lia|].
      intros c Hc Hpc. apply parent_children in Hpc; [|lia].
      destruct Hpc as [-> | ->].
      * rewrite lessAt_lessO. apply lessO_asym. exact E.
      * replace (2 * i + 1 + 1)%nat with (2 * i + 2)%nat by lia.
        rewrite lessAt_lessO. apply lessO_irrefl.
    + split; [lia|]. split; [apply parent_children; lia|]. split; [lia|].
      intros c Hc Hpc. apply parent_children in Hpc; [|lia].
      destruct Hpc as [-> | ->].
      * rewrite lessAt_lessO. apply lessO_irrefl.
      * replace (2 * i + 2)%nat with (2 * i + 1 + 1)%nat by lia. exact E.
  - split; [lia|]. split; [apply parent_children; lia|]. split; [lia|].
    intros c Hc Hpc. apply parent_children in Hpc; [|lia].
    destruct Hpc as [-> | ->]; [|lia].
    rewrite lessAt_lessO. apply lessO_irrefl.
Qed.

Lemma down_step (h : list A) (i n : nat) :
  (n <= length h)%nat -> (2 * i + 1 < n)%nat ->
  downInv h i n ->
  lessAt less h (pick h i n) i = true ->
  downInv (swap h i (pick h i n)) (pick h i n) n.
Proof.
  intros Hn Hc1 [Hok Hgp] Hless.
  destruct (pick_spec h i n Hc1) as (Hjn & Hpj & Hij & Hmin).
  set (j := pick h i n) in *.
  split.
  - intros k Hk Hpk.
    pose proof (parent_lt k ltac:(lia)) as Hpk'.
    unfold ok. rewrite lessAt_lessO, !swap_lookup by lia.
    destruct (decide (k = j)) as [->|Hkj].
    + rewrite Hpj. rewrite decide_False by lia. rewrite decide_True by reflexivity.
      apply lessO_asym. exact Hless.
    + rewrite (decide_False (P := parent k = j)) by exact Hpk.
      destruct (decide (k = i)) as [->|Hki].
      * rewrite decide_False by lia.
        rewrite <- lessAt_lessO. apply Hgp; [lia | lia | exact Hpj].
      * destruct (decide (parent k = i)) as [Hpi|Hpi].
        -- rewrite <- lessAt_lessO. apply Hmin; [lia | exact Hpi].
        -- apply (Hok k); [lia | exact Hpi].
  - intros Hj0 c Hc Hpc.
    pose proof (parent_lt c ltac:(lia)) as Hpc'.
    rewrite Hpj. rewrite lessAt_lessO, !swap_lookup by lia.
    rewrite (decide_False (P := c = j)) by lia.
    rewrite (decide_False (P := c = i)) by lia.
    rewrite (decide_False (P := i = j)) by lia.
    rewrite (decide_True (P := i = i)) by reflexivity.
    rewrite <- Hpc. apply (Hok c); [lia | lia].
Qed.

Lemma downLoop_ordered (fuel : nat) :
  forall (h : list A) (i n : nat),
    (n <= fuel + i)%nat -> (n <= length h)%nat -> downInv h i n ->
    heapOrderedUpTo (downLoop less fuel h i n) n
    /\ length (downLoop less fuel h i n) = length h
    /\ forall k, (n <= k)%nat -> downLoop less fuel h i n !! k = h !! k.
Proof.
  assert (Hleaf : forall (h : list A) (i n : nat),
             (n <= 2 * i + 1)%nat -> downInv h i n -> heapOrderedUpTo h n).
  { intros h i n Hn [Hok _] k Hk. apply Hok; [exact Hk|].
    intros Hp. apply parent_children in Hp; lia. }
  induction fuel as [|fuel IH]; intros h i n Hf Hn Hinv.
  - simpl. split; [|split; reflexivity]. apply (Hleaf h i n); [lia | exact Hinv].
  - rewrite downLoop_S.
    destruct (Nat.leb_spec n (2 * i + 1)) as [Hc1|Hc1].
    { split; [|split; reflexivity]. apply (Hleaf h i n); assumption. }
    destruct (pick_spec h i n Hc1) as (Hjn & Hpj & Hij & Hmin).
    destruct (lessAt less h (pick h i n) i) eqn:Hless; simpl.
    + destruct (IH (swap h i (pick h i n)) (pick h i n) n) as (H1 & H2 & H3).
      * lia.
      * rewrite swap_length. exact Hn.
      * apply down_step; assumption.
      * rewrite swap_length in H2. split; [exact H1|]. split; [exact H2|].
        intros k Hk. rewrite H3 by exact Hk. rewrite swap_lookup by lia.
        rewrite !decide_False by lia. reflexivity.
    + split; [|split; reflexivity]. intros k Hk.
      destruct (decide (parent k = i)) as [Hp|Hp]; [|apply (proj1 Hinv); assumption].
      unfold ok. rewrite Hp, lessAt_lessO.
      apply (lessO_negtrans _ (h !! pick h i n)).
      * apply lookup_lt_is_Some_2. lia.
      * exact Hless.
      * rewrite <- lessAt_lessO. apply Hmin; assumption.
Qed.

(** The root of an ordered heap is a least entry. *)
Lemma root_least (h : list A) (x : A) :
  heapOrdered h -> h !! 0%nat = Some x ->
  forall (k : nat) (y : A), h !! k = Some y -> less y x = false.
Proof.
  intros Hh Hx k. induction k as [k IH] using lt_wf_ind. intros y Hy.
  destruct (decide (k = 0)%nat) as [->|Hk].
  - rewrite Hx in Hy. inversion Hy; subst.
    pose proof (lessO_irrefl (Some y)) as H. exact H.
  - pose proof (lookup_lt_Some _ _ _ Hy) as Hlen.
    pose proof (parent_lt k ltac:(lia)) as Hp.
    destruct (lookup_lt_is_Some_2 h (parent k) ltac:(lia)) as [z Hz].
    pose proof (Hh k ltac:(lia)) as Hok. unfold ok in Hok.
    rewrite lessAt_lessO, Hy, Hz in Hok. simpl in Hok.
    apply (less_negtrans x z y); [|exact Hok].
    apply (IH (parent k) Hp z Hz).
Qed.

(** [heap.Pop] on an ordered heap returns its root, a least entry, and
    leaves an ordered heap one entry shorter. *)
Lemma Pop_spec (h : list A) (x : A) (h' : list A) :
  heapOrdered h -> Pop less h = Some (x, h') ->
  h !! 0%nat = Some x
  /\ (forall y : A, y ∈ h -> less y x = false)
  /\ heapOrdered h'
  /\ S (length h') = length h.
Proof.
  intros Hh. unfold Pop.
  destruct h as [|a t] eqn:Eh; [discriminate|]. rewrite <- Eh in *.
  assert (Hlen : (0 < length h)%nat) by (rewrite Eh; simpl; lia).
  set (n := (length h - 1)%nat).
  unfold down.
  destruct (downLoop_ordered n (swap h 0 n) 0 n) as (H1 & H2 & H3).
  - lia.
  - rewrite swap_length. lia.
  - split; [|lia]. intros k Hk Hpk.
    pose proof (parent_lt k ltac:(lia)) as Hp.
    unfold ok. rewrite lessAt_lessO, !swap_lookup by lia.
    rewrite !decide_False by lia. apply (Hh k). lia.
  - rewrite swap_length in H2. rewrite (H3 n) by lia.
    rewrite swap_lookup by lia. rewrite decide_True by reflexivity.
    destruct (h !! 0%nat) as [r|] eqn:Hr; [|discriminate].
    intros H. inversion H; subst x h'. clear H.
    split; [reflexivity|]. split.
    + intros y Hy. apply list_elem_of_lookup in Hy as [k Hk].
      apply (root_least h r Hh Hr k y Hk).
    + assert (Hl : length (take n (downLoop less n (swap h 0 n) 0 n)) = n).
      { rewrite length_take, H2. lia. }
      split; [|lia].
      unfold heapOrdered. rewrite Hl. intros k Hk.
      pose proof (parent_lt k ltac:(lia)) as Hp.
      unfold ok. rewrite lessAt_lessO, !lookup_take_lt by lia.
      apply (H1 k Hk).
Qed.

Lemma downLoop_length (fuel : nat) (n : nat) :
  forall (h : list A) (i : nat), length (downLoop less fuel h i n) = length h.
Proof.
  induction fuel as [|fuel IH]; intros h i; [reflexivity|].
  rewrite downLoop_S. destruct (n <=? 2 * i + 1)%nat; [reflexivity|].
  destruct (negb _); [reflexivity|]. rewrite IH, swap_length. reflexivity.
Qed.

Lemma Pop_nonempty (h : list A) :
  h <> [] -> exists x h', Pop less h = Some (x, h').
Proof.
  intros Hne. unfold Pop. destruct h as [|a t] eqn:Eh; [congruence|]. rewrite <- Eh.
  assert (Hlen : (0 < length h)%nat) by (rewrite Eh; simpl; lia).
  set (n := (length h - 1)%nat).
  destruct (lookup_lt_is_Some_2 (down less (swap h 0 n) 0 n) n) as [x Hx].
  - unfold down. rewrite downLoop_length, swap_length. lia.
  - rewrite Hx. eauto.
Qed.

End Order.

End HeapFacts.

(** ** The retrieval loop *)

Module RetrievalFacts.
Import Retrieval.

(** *** Cancellation *)

Section Cancel.
Variable hr : HierarchicalRetriever.
Variable rt : Runtime.
Variable queryVector : option EmbedResult.
Variable opts : SearchOptions.

(** When the token fires at a check that finds the frontier non-empty, the
    loop is left there, with the state that the passes before it built. *)
Lemma searchLoop_cancel (n : nat) :
  forall (tick fuel : nat) (st0 st : LoopState),
    ctxDone rt (tick + n) = true ->
    (forall k : nat, (k < n)%nat -> ctxDone rt (tick + k) = false) ->
    iterate hr queryVector opts n st0 = Some st ->
    dirQueue st <> [] ->
    (n <= fuel)%nat ->
    searchLoop hr rt queryVector opts fuel tick st0 = Some (Cancelled st).
Proof.
  induction n as [|n IH]; intros tick fuel st0 st Hfire Hquiet Hit Hq Hfuel.
  - simpl in Hit. inversion Hit; subst st0. rewrite Nat.add_0_r in Hfire.
    destruct fuel; simpl; destruct (dirQueue st); try congruence;
      rewrite Hfire; reflexivity.
  - destruct fuel as [|fuel]; [lia|]. simpl in Hit |- *.
    destruct (dirQueue st0) as [|x q]; [discriminate|].
    rewrite <- (Nat.add_0_r tick) at 1. rewrite Hquiet by lia.
    destruct (iteration hr queryVector opts st0) as [st'| |]; try discriminate.
    apply IH; try assumption; try lia.
    + replace (S tick + n)%nat with (tick + S n)%nat by lia. exact Hfire.
    + intros k Hk. replace (S tick + k)%nat with (tick + S k)%nat by lia.
      apply Hquiet. lia.
Qed.

End Cancel.

(** C5, as the code has it. When the cancellation token fires at the [n]-th
    check of the loop, with the frontier still non-empty, [recursiveSearch]
    returns the candidates collected in the [n] passes before it together
    with the cancellation error, and [Retrieve] returns no result at all:
    a nil [QueryResult] and the wrapped error. *)
Theorem Retrieve_cancelled (hr : HierarchicalRetriever) (rt : Runtime)
  (query : TypedQuery) (opts : SearchOptions) (queryVector : option EmbedResult)
  (n fuel : nat) (st : LoopState) :
  queryVectorOf hr query = Some queryVector ->
  firesAt rt n ->
  iterate hr queryVector opts n
    (initialState (startingPointsOf hr query opts queryVector)) = Some st ->
  dirQueue st <> [] ->
  (n <= fuel)%nat ->
  recursiveSearch hr rt queryVector (startingPointsOf hr query opts queryVector) opts fuel
    = Some (Returned (collected st, Some ErrCancelled))
  /\ Retrieve hr rt query opts fuel
     = Some (Returned (None, Some (ErrRecursiveSearchFailed ErrCancelled))).
Proof.
  intros Hqv [Hfire Hquiet] Hit Hq Hfuel.
  assert (Hloop : searchLoop hr rt queryVector opts fuel 0
                    (initialState (startingPointsOf hr query opts queryVector))
                  = Some (Cancelled st)).
  { apply (searchLoop_cancel hr rt queryVector opts n); simpl; assumption. }
  unfold Retrieve, recursiveSearch. rewrite Hqv, Hloop. split; reflexivity.
Qed.

Lemma Retrieve_cancelled_witness :
  exists st : LoopState,
    map rrURI (collected st) = ["viking://r1/a"]
    /\ recursiveSearch twoRootRetriever cancelledAfterOne None
         (startingPointsOf twoRootRetriever resourceQuery topOneOptions None)
         topOneOptions 10
       = Some (Returned (collected st, Some ErrCancelled))
    /\ Retrieve twoRootRetriever cancelledAfterOne resourceQuery topOneOptions 10
       = Some (Returned (None, Some (ErrRecursiveSearchFailed ErrCancelled))).
Proof.
  destruct (iterate twoRootRetriever None topOneOptions 1
              (initialState
                 (startingPointsOf twoRootRetriever resourceQuery topOneOptions None)))
    as [st|] eqn:E; [|vm_compute in E; discriminate].
  exists st. split.
  - vm_compute in E. inversion E. reflexivity.
  - apply (Retrieve_cancelled twoRootRetriever cancelledAfterOne resourceQuery
             topOneOptions None 1 10 st).
    + reflexivity.
    + split; [reflexivity|]. intros k Hk. assert (k = 0%nat) as -> by lia. reflexivity.
    + exact E.
    + vm_compute in E. inversion E. discriminate.
    + lia.
Defined.

(** C5 as stated fails: the token fires after one pass, in which the
    candidate [viking://r1/a] was collected; [recursiveSearch] returns it
    with the error, and [Retrieve] hands the caller a nil result. *)
Lemma Retrieve_drops_collected :
  option_map
    (fun out => match out with
                | Returned (cands, err) => Some (map rrURI cands, err)
                | Panic => None
                end)
    (recursiveSearch twoRootRetriever cancelledAfterOne None
       (startingPointsOf twoRootRetriever resourceQuery topOneOptions None)
       topOneOptions 10)
  = Some (Some (["viking://r1/a"], Some ErrCancelled))
  /\ Retrieve twoRootRetriever cancelledAfterOne resourceQuery topOneOptions 10
     = Some (Returned (None, Some (ErrRecursiveSearchFailed ErrCancelled))).
Proof. split; vm_compute; reflexivity. Qed.

(** *** The frontier order and the convergence set on concrete runs *)

(** C3 on a concrete frontier. The starting points are a global hit with
    score 9/10 and the root with score 0; the loop visits the root first:
    the pop takes the entry with the lowest score. *)
Theorem frontier_pops_lowest_first :
  map (fun sp => (hiURI sp, GoFloat.red (hiScore sp)))
    (startingPointsOf hitRetriever resourceQuery defaultOptions
       (Some (mkEmbedResult [1%Q])))
  = [("viking://resources/docs", GoFloat.Num (9 # 10));
     ("viking://resources", GoFloat.Num 0)]
  /\ option_map
       (fun out => match out with
                   | Left st => map nodeURI (trajNodes st)
                   | _ => []
                   end)
       (searchLoop hitRetriever neverCancelled (Some (mkEmbedResult [1%Q]))
          defaultOptions 10 0
          (initialState
             (startingPointsOf hitRetriever resourceQuery defaultOptions
                (Some (mkEmbedResult [1%Q])))))
     = Some ["viking://resources"; "viking://resources/docs"].
Proof. split; vm_compute; reflexivity. Qed.

(** [getTopK] is a prefix in collection order, whatever the scores. *)
Lemma getTopK_prefix (results : list RetrievalResult) (k : Z) :
  0 <= k -> getTopK results k = Some (take (Z.to_nat k) results).
Proof.
  intros Hk. unfold getTopK.
  destruct (Z.geb_spec k (Z.of_nat (length results))) as [Hge|Hlt].
  - rewrite take_ge by lia. reflexivity.
  - destruct (Z.ltb_spec k 0); [lia | reflexivity].
Qed.

(** [mapsEqual] decides equality of the two key sets. *)
Lemma mapsEqual_spec (a b : gset string) : mapsEqual a b = true <-> a = b.
Proof.
  unfold mapsEqual. rewrite andb_true_iff, Nat.eqb_eq, forallb_forall. split.
  - intros [Hsize Hin]. apply set_subseteq_size_eq; [|lia].
    intros k Hk. specialize (Hin k). rewrite bool_decide_eq_true in Hin.
    apply Hin. apply list_elem_of_In, elem_of_elements. exact Hk.
  - intros ->. split; [reflexivity|]. intros k Hk.
    apply bool_decide_eq_true. apply elem_of_elements, list_elem_of_In. exact Hk.
Qed.

(** The counting of the convergence check. With [cur] the URIs of what
    [getTopK] returns: the round counter goes up by one exactly when [cur]
    equals the previous round's set and has at least [limit] members, and is
    reset to zero otherwise; the loop is left exactly when the raised
    counter reaches [MaxConvergenceRounds]. *)
Lemma convergenceCheck_counts (hr : HierarchicalRetriever) (opts : SearchOptions)
  (st : LoopState) (topK : list RetrievalResult) :
  getTopK (collected st) (Limit opts) = Some topK ->
  let cur : gset string := list_to_set (map rrURI topK) in
  let stable := cur = prevTopKURIs st /\ Limit opts <= Z.of_nat (size cur) in
  match convergenceCheck hr opts st with
  | Next st' =>
      prevTopKURIs st' = cur
      /\ ((stable /\ convergenceRounds st' = GoInt.add (convergenceRounds st) 1
           /\ convergenceRounds st' < MaxConvergenceRounds (rconfig hr))
          \/ (~ stable /\ convergenceRounds st' = 0))
  | Converged st' =>
      stable
      /\ convergenceRounds st' = GoInt.add (convergenceRounds st) 1
      /\ MaxConvergenceRounds (rconfig hr) <= convergenceRounds st'
  | Panicked => False
  end.
Proof.
  intros Htop. unfold convergenceCheck. rewrite Htop. cbv zeta.
  destruct (mapsEqual (list_to_set (map rrURI topK)) (prevTopKURIs st)) eqn:Eeq; simpl.
  - apply mapsEqual_spec in Eeq.
    destruct (Z.geb_spec (Z.of_nat (size (list_to_set (map rrURI topK) : gset string)))
                (Limit opts)) as [Hsz|Hsz].
    + destruct (Z.geb_spec (GoInt.add (convergenceRounds st) 1)
                  (MaxConvergenceRounds (rconfig hr))) as [Hmax|Hmax]; simpl.
      * split; [split; [exact Eeq | lia]|]. split; [reflexivity | lia].
      * split; [reflexivity|]. left. split; [split; [exact Eeq | lia]|].
        split; [reflexivity | lia].
    + simpl. split; [reflexivity|]. right. split; [|reflexivity].
      intros [_ H]. lia.
  - split; [reflexivity|]. right. split; [|reflexivity].
    intros [H _]. apply mapsEqual_spec in H. congruence.
Qed.

Lemma convergenceCheck_counts_witness :
  match convergenceCheck twoRootRetriever topOneOptions
          (mkLoopState [] ∅
             [mkRetrievalResult "viking://r1/a" (1 # 10) true "" ""]
             {[ "viking://r1/a" ]} 0 1 [] [] []) with
  | Converged st' => convergenceRounds st' = 1
  | _ => False
  end.
Proof.
  pose proof (convergenceCheck_counts twoRootRetriever topOneOptions
                (mkLoopState [] ∅
                   [mkRetrievalResult "viking://r1/a" (1 # 10) true "" ""]
                   {[ "viking://r1/a" ]} 0 1 [] [] [])
                [mkRetrievalResult "viking://r1/a" (1 # 10) true "" ""] eq_refl) as H.
  cbv zeta in H.
  destruct (convergenceCheck _ _ _) as [st'|st'|] eqn:E; vm_compute in E;
    try discriminate.
  destruct H as (_ & Hr & _). rewrite Hr. reflexivity.
Defined.


(** C4 on a concrete run with [limit = 1] and [MaxConvergenceRounds = 1].
    After two passes the candidates are [a] (score 1/10) and [b] (score
    9/20), in that order; the convergence check takes [a], the first one
    collected, as the top-1 set, finds it equal to the previous round's and
    stops the search, although [b] has the higher score. *)
Theorem convergence_set_ignores_scores :
  exists st : LoopState,
    searchLoop twoRootRetriever neverCancelled None topOneOptions 10 0
      (initialState (startingPointsOf twoRootRetriever resourceQuery topOneOptions None))
    = Some (Left st)
    /\ map (fun c => (rrURI c, GoFloat.red (rrScore c))) (collected st)
       = [("viking://r1/a", GoFloat.Num (1 # 10)); ("viking://r2/b", GoFloat.Num (9 # 20))]
    /\ option_map (map rrURI) (getTopK (collected st) (Limit topOneOptions))
       = Some ["viking://r1/a"]
    /\ prevTopKURIs st = {[ "viking://r1/a" ]}
    /\ convergenceRounds st = 1
    /\ last (events st) = Some (TraceEventSearchConverged, "").
Proof.
  eexists. split; [vm_compute; reflexivity|].
  repeat split; vm_compute; reflexivity.
Qed.

End RetrievalFacts.

(** ** Memory deduplication and merging *)

Module DedupFacts.
Import Dedup.

Lemma calculateSimilarity_sym (a b : string) :
  calculateSimilarity a b = calculateSimilarity b a.
Proof.
  unfold calculateSimilarity.
  destruct (GoStrings.Fields (GoStrings.ToLower a)) as [|wa la] eqn:Ea;
    destruct (GoStrings.Fields (GoStrings.ToLower b)) as [|wb lb] eqn:Eb;
    try reflexivity.
  set (A := countWords (wa :: la)). set (B := countWords (wb :: lb)).
  assert (Hc : size (filter (fun w => w ∈ dom B) (dom A))
               = size (filter (fun w => w ∈ dom A) (dom B))).
  { f_equal. apply set_eq. intros w. rewrite !elem_of_filter. tauto. }
  rewrite Hc. replace (Z.of_nat (size B) + Z.of_nat (size A))
    with (Z.of_nat (size A) + Z.of_nat (size B)) by lia.
  reflexivity.
Qed.

Section Grouping.
Variable d : MemoryDeduper.

Lemma placeInGroups_length (groups : list (list ExtractedMemory)) (m : ExtractedMemory) :
  length (fst (placeInGroups d groups m)) = length groups.
Proof.
  induction groups as [|g rest IH]; simpl; [reflexivity|].
  destruct g as [|first g'].
  - destruct (placeInGroups d rest m) as [rest' added]. simpl in *. lia.
  - destruct (similar d (Content m) (Content first)); [reflexivity|].
    destruct (placeInGroups d rest m) as [rest' added]. simpl in *. lia.
Qed.

Lemma placeInGroups_leaders (groups : list (list ExtractedMemory)) (m : ExtractedMemory) :
  leaders (fst (placeInGroups d groups m)) = leaders groups.
Proof.
  unfold leaders. induction groups as [|g rest IH]; simpl; [reflexivity|].
  destruct g as [|first g'].
  - destruct (placeInGroups d rest m) as [rest' added]. simpl in *. exact IH.
  - destruct (similar d (Content m) (Content first)); [reflexivity|].
    destruct (placeInGroups d rest m) as [rest' added]. simpl in *.
    f_equal. exact IH.
Qed.

Lemma placeInGroups_not_added (groups : list (list ExtractedMemory)) (m : ExtractedMemory) :
  snd (placeInGroups d groups m) = false ->
  fst (placeInGroups d groups m) = groups
  /\ Forall (fun x => similar d (Content m) (Content x) = false) (leaders groups).
Proof.
  unfold leaders. induction groups as [|g rest IH]; simpl; [split; [reflexivity | constructor]|].
  destruct g as [|first g'].
  - destruct (placeInGroups d rest m) as [rest' added]. simpl in *.
    intros H. destruct (IH H) as [-> HF]. split; [reflexivity | exact HF].
  - destruct (similar d (Content m) (Content first)) eqn:E; [discriminate|].
    destruct (placeInGroups d rest m) as [rest' added]. simpl in *.
    intros H. destruct (IH H) as [-> HF]. split; [reflexivity|].
    constructor; assumption.
Qed.

Lemma pairwiseDistinct_snoc (l : list ExtractedMemory) (m : ExtractedMemory) :
  pairwiseDistinct d l ->
  Forall (fun x => similar d (Content m) (Content x) = false) l ->
  pairwiseDistinct d (l ++ [m]).
Proof.
  induction l as [|x l IH]; simpl; intros Hp Hm.
  - split; [constructor | exact I].
  - destruct Hp as [Hx Hl]. inversion Hm; subst. split.
    + apply Forall_app. split; [exact Hx | constructor; [assumption | constructor]].
    + apply IH; assumption.
Qed.

Lemma pairwiseDistinct_sublist (l1 l2 : list ExtractedMemory) :
  sublist l1 l2 -> pairwiseDistinct d l2 -> pairwiseDistinct d l1.
Proof.
  induction 1 as [|x l1 l2 Hs IH|x l1 l2 Hs IH]; simpl.
  - tauto.
  - intros [Hx Hl]. split; [|apply IH; exact Hl].
    rewrite Forall_forall in Hx |- *. intros y Hy. apply Hx.
    eapply elem_of_sublist; eassumption.
  - intros [_ Hl]. apply IH. exact Hl.
Qed.

(** The groups that [groupSimilar] has built at any point: none is empty,
    there are no more of them than memories read, and no leader is similar
    to an earlier leader. *)
Lemma groupSimilar_from (memories : list ExtractedMemory) :
  forall groups : list (list ExtractedMemory),
    Forall (fun g => g <> []) groups ->
    pairwiseDistinct d (leaders groups) ->
    let groups' :=
      fold_left
        (fun groups m =>
           let '(groups', added) := placeInGroups d groups m in
           if added then groups' else groups' ++ [[m]])
        memories groups in
    Forall (fun g => g <> []) groups'
    /\ pairwiseDistinct d (leaders groups')
    /\ (length groups' <= length groups + length memories)%nat.
Proof.
  induction memories as [|m memories IH]; intros groups Hne Hp; simpl.
  - repeat split; [assumption | assumption | lia].
  - pose proof (placeInGroups_length groups m) as Hlen.
    pose proof (placeInGroups_leaders groups m) as Hlead.
    pose proof (placeInGroups_not_added groups m) as Hnot.
    assert (Hne' : Forall (fun g => g <> []) (fst (placeInGroups d groups m))).
    { clear -Hne. induction Hne as [|g rest Hg Hrest IH]; simpl; [constructor|].
      destruct g as [|first g']; [congruence|].
      destruct (similar d (Content m) (Content first)).
      - simpl. constructor; [discriminate | exact Hrest].
      - destruct (placeInGroups d rest m) as [rest' added]. simpl in *.
        constructor; [discriminate | exact IH]. }
    destruct (placeInGroups d groups m) as [groups1 added]. simpl in *.
    destruct added.
    + destruct (IH groups1 Hne') as (H1 & H2 & H3); [rewrite Hlead; exact Hp|].
      repeat split; [exact H1 | exact H2 | lia].
    + destruct (Hnot eq_refl) as [-> HF].
      destruct (IH (groups ++ [[m]])) as (H1 & H2 & H3).
      * apply Forall_app. split; [exact Hne | constructor; [discriminate | constructor]].
      * unfold leaders. rewrite omap_app. simpl.
        apply pairwiseDistinct_snoc; assumption.
      * rewrite length_app in H3. simpl in H3. repeat split; [exact H1 | exact H2 | lia].
Qed.

Lemma groupSimilar_spec (memories : list ExtractedMemory) :
  Forall (fun g => g <> []) (groupSimilar d memories)
  /\ pairwiseDistinct d (leaders (groupSimilar d memories))
  /\ (length (groupSimilar d memories) <= length memories)%nat.
Proof.
  destruct (groupSimilar_from memories []) as (H1 & H2 & H3);
    [constructor | exact I |].
  repeat split; assumption.
Qed.

Lemma applyDecisions_delete (i n : nat) (group : list ExtractedMemory) :
  applyDecisions i (repeat DedupDecisionDelete n) group = [].
Proof.
  revert i group. induction n as [|n IH]; intros i [|m group]; simpl; try reflexivity.
  apply IH.
Qed.

Lemma applyDecisions_keep (i n : nat) (group : list ExtractedMemory) :
  applyDecisions (S i) (repeat DedupDecisionKeepBoth n) group = [].
Proof.
  revert i group. induction n as [|n IH]; intros i [|m group]; simpl; try reflexivity.
  apply IH.
Qed.

(** Whatever the reply says, the decisions parsed from it keep the first
    member of the group and nothing else. *)
Lemma applyDecisions_parse (response : string) (m : ExtractedMemory)
  (rest : list ExtractedMemory) :
  applyDecisions 0 (parseDecisions response (length (m :: rest))) (m :: rest) = [m].
Proof.
  unfold parseDecisions. simpl length.
  destruct (GoStrings.Contains (GoStrings.ToLower response) "merge").
  - simpl. rewrite applyDecisions_delete. reflexivity.
  - destruct (GoStrings.Contains (GoStrings.ToLower response) "keep"); simpl;
      rewrite applyDecisions_keep; reflexivity.
Qed.

Lemma groupResult_length (i : nat) (group : list ExtractedMemory) :
  (length (groupResult d i group) <= 1)%nat.
Proof.
  destruct group as [|m [|m' rest]]; simpl; try lia.
  destruct (client d i (m :: m' :: rest)); simpl; try lia.
  pose proof (applyDecisions_parse content m (m' :: rest)) as H. simpl in H.
  rewrite H. simpl. lia.
Qed.

Lemma groupResults_length (groups : list (list ExtractedMemory)) :
  forall i : nat, (length (groupResults d i groups) <= length groups)%nat.
Proof.
  induction groups as [|g groups IH]; intros i; simpl; [lia|].
  rewrite length_app. pose proof (groupResult_length i g). specialize (IH (S i)). lia.
Qed.

(** With an LLM that never fails, every group adds its leader or nothing. *)
Lemma groupResults_leaders (groups : list (list ExtractedMemory)) :
  neverFails d ->
  forall i : nat, sublist (groupResults d i groups) (leaders groups).
Proof.
  intros Hok. unfold leaders.
  induction groups as [|g groups IH]; intros i; simpl; [constructor|].
  destruct g as [|m [|m' rest]]; simpl.
  - apply IH.
  - constructor. apply IH.
  - destruct (client d i (m :: m' :: rest)) eqn:E.
    + destruct (Hok _ _ E).
    + simpl. apply sublist_cons. apply IH.
    + pose proof (applyDecisions_parse content m (m' :: rest)) as H. simpl in H.
      rewrite H. simpl. constructor. apply IH.
Qed.

End Grouping.

(** C8, as the code has it. [Dedup] never returns more memories than it was
    given; and when no LLM call fails, so that no group falls back to
    [simpleMerge], no memory of the output is similar to another one of the
    output. *)
Theorem Dedup_output (d : MemoryDeduper) (memories : list ExtractedMemory) :
  (length (Dedup d memories) <= length memories)%nat
  /\ (neverFails d -> pairwiseDistinct d (Dedup d memories)).
Proof.
  unfold Dedup. destruct (Nat.leb_spec (length memories) 1) as [Hle|Hgt].
  - split; [lia|]. intros _.
    destruct memories as [|m [|m' rest]]; simpl in *; try lia.
    split; [constructor | exact I].
  - destruct (groupSimilar_spec d memories) as (Hne & Hp & Hlen). split.
    + pose proof (groupResults_length d (groupSimilar d memories) 0). lia.
    + intros Hok. eapply pairwiseDistinct_sublist; [|exact Hp].
      apply groupResults_leaders. exact Hok.
Qed.

Lemma mergingDeduper_neverFails : neverFails mergingDeduper.
Proof. intros i group. discriminate. Qed.

Lemma Dedup_output_witness :
  (length (Dedup mergingDeduper [memX; memA; memB]) <= 3)%nat
  /\ pairwiseDistinct mergingDeduper (Dedup mergingDeduper [memX; memA; memB]).
Proof.
  destruct (Dedup_output mergingDeduper [memX; memA; memB]) as [Hlen Hp].
  split; [exact Hlen | exact (Hp mergingDeduper_neverFails)].
Defined.

(** C8 as stated fails. [memB] is similar to both [memX] and [memA], which
    are not similar to each other; it joins the group of [memX], the LLM call
    fails, the fallback keeps [memB] as the more important of the two, and
    the output holds [memB] next to [memA] although their similarity, 9/10,
    is above the threshold 8/10. *)
Lemma Dedup_keeps_similar_pair :
  Dedup failingDeduper [memX; memA; memB] = [memB; memA]
  /\ Qred (calculateSimilarity (Content memA) (Content memB)) = 9 # 10
  /\ threshold failingDeduper = 8 # 10
  /\ similar failingDeduper (Content memA) (Content memB) = true
  /\ similar failingDeduper (Content memB) (Content memA) = true.
Proof. repeat split; vm_compute; reflexivity. Qed.

Lemma goMin_Qmin (a b : Q) : goMin a b = Qmin a b.
Proof.
  unfold goMin, Qmin, GenericMinMax.gmin.
  destruct (Qle_bool a b) eqn:E.
  - apply Qle_bool_iff in E. destruct (Qcompare_spec a b) as [H|H|H]; try reflexivity.
    exfalso. apply (Qlt_not_le _ _ H). exact E.
  - destruct (Qcompare_spec a b) as [H|H|H]; try reflexivity; exfalso.
    + assert (Qle_bool a b = true) by (apply Qle_bool_iff; rewrite H; apply Qle_refl).
      congruence.
    + assert (Qle_bool a b = true) by (apply Qle_bool_iff; apply Qlt_le_weak; exact H).
      congruence.
Qed.

(** C9. [MergeMemories] succeeds exactly when the two categories are equal;
    the merged importance is then [min(1, 0.9 * (a + b))], and the other
    fields are those of the more important memory ([a] on ties). With
    different categories the call returns the error. *)
Theorem MergeMemories_spec (a b : ExtractedMemory) :
  match MergeMemories a b with
  | inl m =>
      Category a = Category b
      /\ (Importance m == Qmin 1 ((9 # 10) * (Importance a + Importance b)))%Q
      /\ Content m = Content (if GoFloat.Qltb (Importance a) (Importance b) then b else a)
      /\ Category m = Category a
  | inr e => Category a <> Category b /\ e = ErrDifferentCategories
  end.
Proof.
  unfold MergeMemories. destruct (String.eqb_spec (Category a) (Category b)) as [E|E]; simpl.
  - split; [exact E|]. split; [|split].
    + rewrite goMin_Qmin. apply Q.min_compat; [reflexivity | apply Qmult_comm].
    + reflexivity.
    + destruct (GoFloat.Qltb (Importance a) (Importance b)); congruence.
  - split; [exact E | reflexivity].
Qed.

(** The two branches on sample memories: equal categories merge, with
    importance [min(1, 0.9 * (7/10 + 9/10)) = 1]; different ones do not. *)
Example MergeMemories_runs :
  MergeMemories memA memB
    = inl (mkMemory "a b c d e f g h i j" 1 "preference" "s" 0)
  /\ MergeMemories memA (mkMemory "x" (1 # 2) "event" "s" 0) = inr ErrDifferentCategories.
Proof. split; reflexivity. Qed.

End DedupFacts.

(** ** Base64 and the text codec *)

Module Base64Facts.
Import Base64.
Local Open Scope N_scope.

Lemma encodeChar_spec (v : N) :
  v < 64 ->
  decodeChar (encodeChar v) = Some v
  /\ isNewline (encodeChar v) = false
  /\ Ascii.eqb (encodeChar v) padChar = false.
Proof.
  intros Hv. rewrite <- (N2Nat.id v).
  assert (Hn : (N.to_nat v < 64)%nat) by lia. clear Hv.
  generalize dependent (N.to_nat v). clear v. intros n Hn.
  do 64 (destruct n as [|n]; [vm_compute; auto|]). lia.
Qed.

Lemma split_hi (r q k : N) :
  k <> 0 -> q < k -> (r * k + q) / k = r /\ (r * k + q) mod k = q.
Proof.
  intros Hk Hq.
  assert (H1 : (r * k + q) / k = r).
  { symmetry. apply (N.div_unique _ _ _ q); [exact Hq | lia]. }
  split; [exact H1|].
  symmetry. apply (N.mod_unique _ _ r); [exact Hq | lia].
Qed.

(** The four 6-bit values of three bytes, and the bytes back from them. *)
Lemma sextets (x y z : N) :
  x < 256 -> y < 256 -> z < 256 ->
  x / 4 < 64
  /\ (x mod 4) * 16 + y / 16 < 64
  /\ (y mod 16) * 4 + z / 64 < 64
  /\ z mod 64 < 64
  /\ (x / 4) * 4 + ((x mod 4) * 16 + y / 16) / 16 = x
  /\ (((x mod 4) * 16 + y / 16) mod 16) * 16 + ((y mod 16) * 4 + z / 64) / 4 = y
  /\ (((y mod 16) * 4 + z / 64) mod 4) * 64 + z mod 64 = z.
Proof.
  intros Hx Hy Hz.
  assert (Hy16 : y / 16 < 16) by (apply N.Div0.div_lt_upper_bound; lia).
  assert (Hz64 : z / 64 < 4) by (apply N.Div0.div_lt_upper_bound; lia).
  assert (Hx4 : x / 4 < 64) by (apply N.Div0.div_lt_upper_bound; lia).
  destruct (split_hi (x mod 4) (y / 16) 16 ltac:(lia) Hy16) as [E1 E2].
  destruct (split_hi (y mod 16) (z / 64) 4 ltac:(lia) Hz64) as [E3 E4].
  rewrite E1, E2, E3, E4.
  pose proof (N.div_mod x 4 ltac:(lia)). pose proof (N.div_mod y 16 ltac:(lia)).
  pose proof (N.div_mod z 64 ltac:(lia)).
  pose proof (N.mod_lt x 4 ltac:(lia)). pose proof (N.mod_lt y 16 ltac:(lia)).
  pose proof (N.mod_lt z 64 ltac:(lia)).
  repeat split; lia.
Qed.

Lemma byte_bound (a : ascii) : N_of_ascii a < 256.
Proof. apply N_ascii_bounded. Qed.

(** Induction on strings three bytes at a time. *)
Lemma string_ind3 (P : string -> Prop) :
  P EmptyString ->
  (forall a, P (String a EmptyString)) ->
  (forall a b, P (String a (String b EmptyString))) ->
  (forall a b c rest, P rest -> P (String a (String b (String c rest)))) ->
  forall s, P s.
Proof.
  intros H0 H1 H2 H3.
  fix IH 1. intros [|a [|b [|c rest]]]; [exact H0 | apply H1 | apply H2 |].
  apply H3. apply IH.
Qed.

Lemma EncodeToString_no_newline (src : string) :
  stripNewlines (EncodeToString src) = EncodeToString src.
Proof.
  induction src as [|a|a b|a b c rest IH] using string_ind3; [reflexivity| | |].
  - destruct (sextets (N_of_ascii a) 0 0 (byte_bound a) ltac:(lia) ltac:(lia))
      as (H1 & H2 & _).
    rewrite N.add_0_r in H2.
    cbn [EncodeToString stripNewlines].
    rewrite (proj1 (proj2 (encodeChar_spec _ H1))),
      (proj1 (proj2 (encodeChar_spec _ H2))). reflexivity.
  - destruct (sextets (N_of_ascii a) (N_of_ascii b) 0 (byte_bound a) (byte_bound b)
                ltac:(lia)) as (H1 & H2 & H3 & _).
    rewrite N.add_0_r in H3.
    cbn [EncodeToString stripNewlines].
    rewrite (proj1 (proj2 (encodeChar_spec _ H1))),
      (proj1 (proj2 (encodeChar_spec _ H2))),
      (proj1 (proj2 (encodeChar_spec _ H3))). reflexivity.
  - destruct (sextets (N_of_ascii a) (N_of_ascii b) (N_of_ascii c)
                (byte_bound a) (byte_bound b) (byte_bound c)) as (H1 & H2 & H3 & H4 & _).
    cbn [EncodeToString stripNewlines].
    rewrite (proj1 (proj2 (encodeChar_spec _ H1))),
      (proj1 (proj2 (encodeChar_spec _ H2))),
      (proj1 (proj2 (encodeChar_spec _ H3))),
      (proj1 (proj2 (encodeChar_spec _ H4))), IH. reflexivity.
Qed.

Lemma decodeQuanta_encode (src : string) :
  decodeQuanta (EncodeToString src) = Some src.
Proof.
  induction src as [|a|a b|a b c rest IH] using string_ind3; [reflexivity| | |].
  - destruct (sextets (N_of_ascii a) 0 0 (byte_bound a) ltac:(lia) ltac:(lia))
      as (H1 & H2 & _ & _ & E1 & _).
    rewrite N.add_0_r in H2, E1.
    cbn [EncodeToString decodeQuanta].
    rewrite (proj1 (encodeChar_spec _ H1)), (proj1 (encodeChar_spec _ H2)).
    rewrite Ascii.eqb_refl. unfold byteOf. rewrite E1, ascii_N_embedding. reflexivity.
  - destruct (sextets (N_of_ascii a) (N_of_ascii b) 0 (byte_bound a) (byte_bound b)
                ltac:(lia)) as (H1 & H2 & H3 & _ & E1 & E2 & _).
    rewrite N.add_0_r in H3, E2.
    cbn [EncodeToString decodeQuanta].
    rewrite (proj1 (encodeChar_spec _ H1)), (proj1 (encodeChar_spec _ H2)),
      (proj1 (encodeChar_spec _ H3)).
    rewrite (proj2 (proj2 (encodeChar_spec _ H3))), Ascii.eqb_refl.
    unfold byteOf. rewrite E1, E2, !ascii_N_embedding. reflexivity.
  - destruct (sextets (N_of_ascii a) (N_of_ascii b) (N_of_ascii c)
                (byte_bound a) (byte_bound b) (byte_bound c))
      as (H1 & H2 & H3 & H4 & E1 & E2 & E3).
    cbn [EncodeToString decodeQuanta].
    rewrite (proj1 (encodeChar_spec _ H1)), (proj1 (encodeChar_spec _ H2)),
      (proj1 (encodeChar_spec _ H3)), (proj1 (encodeChar_spec _ H4)).
    rewrite (proj2 (proj2 (encodeChar_spec _ H3))),
      (proj2 (proj2 (encodeChar_spec _ H4))), IH.
    unfold byteOf. rewrite E1, E2, E3, !ascii_N_embedding. reflexivity.
Qed.

(** Decoding what was encoded gives the bytes back. *)
Lemma DecodeString_EncodeToString (src : string) :
  DecodeString (EncodeToString src) = Some src.
Proof.
  unfold DecodeString. rewrite EncodeToString_no_newline. apply decodeQuanta_encode.
Qed.

Lemma EncodeToString_inj (s1 s2 : string) :
  EncodeToString s1 = EncodeToString s2 -> s1 = s2.
Proof.
  intros H. apply (f_equal DecodeString) in H.
  rewrite !DecodeString_EncodeToString in H. congruence.
Qed.

(** The encoding has four characters for every three bytes or part of them. *)
Lemma EncodeToString_length (src : string) :
  exists k : nat, String.length (EncodeToString src) = (4 * k)%nat.
Proof.
  induction src as [|a|a b|a b c rest [k IH]] using string_ind3.
  - exists 0%nat. reflexivity.
  - exists 1%nat. reflexivity.
  - exists 1%nat. reflexivity.
  - exists (S k). cbn [EncodeToString String.length]. rewrite IH. lia.
Qed.

Lemma EncodeToString_nonempty (src : string) :
  src <> EmptyString -> EncodeToString src <> EmptyString.
Proof. destruct src as [|a [|b [|c rest]]]; [congruence | discriminate ..]. Qed.

End Base64Facts.

Module CodecFacts.
Import Codec Base64Facts.

Section WithGzip.
Variable gz : Gzip.
Hypothesis faithful : gzipFaithful gz.

(** Compression is reversible. *)
Lemma DecompressText_CompressText (text : string) :
  DecompressText gz (CompressText gz text) = (text, None).
Proof.
  destruct faithful as [Hrt Hne].
  unfold CompressText. destruct (String.eqb_spec text "") as [->|Hx]; [reflexivity|].
  unfold DecompressText.
  destruct (String.eqb_spec (Base64.EncodeToString (gzipWrite gz text)) "") as [E|_].
  - exfalso. apply (EncodeToString_nonempty (gzipWrite gz text)); [apply Hne | exact E].
  - rewrite DecodeString_EncodeToString, Hrt. reflexivity.
Qed.

(** Compressing a compressed text again gives another text. *)
Lemma CompressText_twice (text : string) :
  text <> "" ->
  (forall k : nat, String.length text <> (4 * k)%nat) ->
  CompressText gz (CompressText gz text) <> CompressText gz text.
Proof.
  destruct faithful as [Hrt Hne]. intros Hx Hlen.
  unfold CompressText at 2 3. destruct (String.eqb_spec text "") as [E|_]; [congruence|].
  unfold CompressText.
  destruct (String.eqb_spec (Base64.EncodeToString (gzipWrite gz text)) "") as [E|_].
  - exfalso. apply (EncodeToString_nonempty (gzipWrite gz text)); [apply Hne | exact E].
  - intros H. apply EncodeToString_inj in H.
    apply (f_equal (gzipRead gz)) in H. rewrite !Hrt in H. inversion H as [H'].
    destruct (EncodeToString_length (gzipWrite gz text)) as [k Hk].
    apply (Hlen k). rewrite <- H'. exact Hk.
Qed.

End WithGzip.

(** A text that [DecompressText] passes through is returned as it is, and
    compressing it gives another text. *)
Lemma passed_through (gz : Gzip) (x : string) :
  gzipFaithful gz -> notAStream gz x ->
  DecompressText gz x = (x, None) /\ CompressText gz x <> x.
Proof.
  intros [Hrt Hne] [Hx Hd]. split.
  - unfold DecompressText. destruct (String.eqb_spec x "") as [E|_]; [congruence|].
    destruct (Base64.DecodeString x) as [data|]; [|reflexivity].
    rewrite Hd. reflexivity.
  - unfold CompressText. destruct (String.eqb_spec x "") as [E|_]; [congruence|].
    intros E. rewrite <- E, DecodeString_EncodeToString, Hrt in Hd. discriminate.
Qed.

(** Compressing twice gives the same as compressing once only for a text
    that compression leaves as it is. *)
Lemma CompressText_twice_iff (gz : Gzip) (text : string) :
  gzipFaithful gz -> text <> "" ->
  (CompressText gz (CompressText gz text) = CompressText gz text
   <-> CompressText gz text = text)
  /\ ((forall k : nat, String.length text <> (4 * k)%nat) -> CompressText gz text <> text).
Proof.
  intros Hgz Hx. pose proof Hgz as [Hrt Hne]. split.
  - assert (Ec : CompressText gz text = Base64.EncodeToString (gzipWrite gz text)).
    { unfold CompressText. destruct (String.eqb_spec text "") as [E|_];
        [congruence | reflexivity]. }
    split.
    + rewrite Ec. unfold CompressText.
      destruct (String.eqb_spec (Base64.EncodeToString (gzipWrite gz text)) "") as [E|_].
      * exfalso. apply (EncodeToString_nonempty (gzipWrite gz text)); [apply Hne | exact E].
      * intros H. apply EncodeToString_inj in H.
        apply (f_equal (gzipRead gz)) in H. rewrite !Hrt in H. injection H as H'.
        exact H'.
    + intros E. rewrite E. exact E.
  - intros Hlen E. unfold CompressText in E.
    destruct (String.eqb_spec text "") as [E'|_]; [congruence|].
    destruct (EncodeToString_length (gzipWrite gz text)) as [k Hk].
    apply (Hlen k). rewrite <- E. exact Hk.
Qed.

(** C7, as the code has it. With a gzip that reads back what it writes:
    decompressing a compressed text gives the text and no error, so
    [Compress(Decompress(x)) == x] for every [x] that [CompressText]
    produced; a non-empty [x] that is not base64, or whose decoding does not
    begin a gzip stream, is returned unchanged by [DecompressText], and
    compressing it gives a text other than [x]; compressing a non-empty text
    twice gives the same as compressing it once only if compression leaves
    the text as it is, which cannot be when its length is not a multiple of
    four; and a [CompressibleContent] is compressed once, a second
    [Compress] changing nothing, with [Decompress] giving the original. *)
Theorem codec_round_trip (gz : Gzip) (text x : string) :
  gzipFaithful gz ->
  DecompressText gz (CompressText gz text) = (text, None)
  /\ CompressText gz (fst (DecompressText gz (CompressText gz text)))
     = CompressText gz text
  /\ (notAStream gz x ->
      DecompressText gz x = (x, None)
      /\ CompressText gz (fst (DecompressText gz x)) <> x)
  /\ (text <> "" ->
      (CompressText gz (CompressText gz text) = CompressText gz text
       <-> CompressText gz text = text)
      /\ ((forall k : nat, String.length text <> (4 * k)%nat) ->
          CompressText gz text <> text))
  /\ Compress gz (Compress gz (NewCompressibleContent text))
     = Compress gz (NewCompressibleContent text)
  /\ Decompress gz (Compress gz (NewCompressibleContent text)) = (text, None).
Proof.
  intros Hgz. pose proof (DecompressText_CompressText gz Hgz text) as Hrt.
  split; [exact Hrt|]. split; [rewrite Hrt; reflexivity|].
  split.
  { intros Hx. destruct (passed_through gz x Hgz Hx) as [Hd Hc].
    split; [exact Hd|]. rewrite Hd. exact Hc. }
  split; [apply CompressText_twice_iff; exact Hgz|].
  unfold Compress, NewCompressibleContent, Decompress. simpl.
  destruct (String.eqb_spec text "") as [->|Hx]; simpl.
  - split; reflexivity.
  - split; [rewrite orb_true_r; reflexivity | exact Hrt].
Qed.

Lemma framedGzip_faithful : gzipFaithful framedGzip.
Proof. split; intros text; [reflexivity | discriminate]. Qed.

Lemma codec_round_trip_witness :
  DecompressText framedGzip (CompressText framedGzip "hello") = ("hello", None)
  /\ CompressText framedGzip (fst (DecompressText framedGzip (CompressText framedGzip "hello")))
     = CompressText framedGzip "hello"
  /\ (DecompressText framedGzip "hello!" = ("hello!", None)
      /\ CompressText framedGzip (fst (DecompressText framedGzip "hello!")) <> "hello!")
  /\ CompressText framedGzip (CompressText framedGzip "hello")
     <> CompressText framedGzip "hello"
  /\ Compress framedGzip (Compress framedGzip (NewCompressibleContent "hello"))
     = Compress framedGzip (NewCompressibleContent "hello")
  /\ Decompress framedGzip (Compress framedGzip (NewCompressibleContent "hello"))
     = ("hello", None).
Proof.
  destruct (codec_round_trip framedGzip "hello" "hello!" framedGzip_faithful)
    as (H1 & H2 & H3 & H4 & H5 & H6).
  split; [exact H1|]. split; [exact H2|]. split.
  { apply H3. split; [discriminate | exact I]. }
  split; [|split; [exact H5 | exact H6]].
  destruct (H4 ltac:(discriminate)) as [Hiff Hlen].
  intros E. apply Hiff in E. revert E. apply Hlen.
  intros k. simpl. lia.
Defined.

(** C7 as stated fails, whatever the gzip: the text ["!"] is not base64,
    [DecompressText] returns it as it is, and compressing that gives a text
    whose length is a multiple of four, hence not ["!"]. Nor is compression
    idempotent: with a gzip that reads back what it writes, compressing the
    compressed ["hello"] gives another text. *)
Lemma compress_decompress_differs :
  (forall gz : Gzip, DecompressText gz "!" = ("!", None))
  /\ (forall gz : Gzip, CompressText gz (fst (DecompressText gz "!")) <> "!")
  /\ (forall gz : Gzip,
        gzipFaithful gz ->
        CompressText gz (CompressText gz "hello") <> CompressText gz "hello").
Proof.
  split; [reflexivity|]. split.
  - intros gz. simpl. unfold CompressText. simpl. intros H.
    destruct (EncodeToString_length (gzipWrite gz "!")) as [k Hk].
    rewrite H in Hk. simpl in Hk. lia.
  - intros gz Hgz. apply (CompressText_twice gz Hgz "hello"); [discriminate|].
    intros k. simpl. lia.
Qed.

(** The same on the sample framing, evaluated. *)
Example compress_decompress_run :
  DecompressText framedGzip "hello!" = ("hello!", None)
  /\ CompressText framedGzip (fst (DecompressText framedGzip "hello!")) = "H4toZWxsbyE="
  /\ CompressText framedGzip "hello" = "H4toZWxsbw=="
  /\ CompressText framedGzip (CompressText framedGzip "hello") = "H4tINHRvWld4c2J3PT0=".
Proof. repeat split. Qed.

End CodecFacts.

(** ** Tier and window operations beyond the claims *)

Module CoreExtFacts.
Import Core CoreExt GoInt GoIntFacts TierFacts WindowFacts.

Lemma GetByURI_none_occurrences (tc : TieredContext) (uri : string) :
  GetByURI tc uri = None <-> occurrences tc uri = 0%nat.
Proof.
  unfold GetByURI, occurrences, GetAll. simpl. rewrite !countURI_app.
  pose proof (findInSlice_none_count uri (L0 tc)) as H0.
  pose proof (findInSlice_none_count uri (L1 tc)) as H1.
  pose proof (findInSlice_none_count uri (L2 tc)) as H2.
  destruct (findInSlice (L0 tc) uri), (findInSlice (L1 tc) uri),
    (findInSlice (L2 tc) uri); split; intros H; try discriminate; try reflexivity;
    try (exfalso; assert (countURI uri (L0 tc) = 0%nat) as X by lia;
         apply H0 in X; discriminate);
    try (exfalso; assert (countURI uri (L1 tc) = 0%nat) as X by lia;
         apply H1 in X; discriminate);
    try (exfalso; assert (countURI uri (L2 tc) = 0%nat) as X by lia;
         apply H2 in X; discriminate).
  rewrite (proj1 H0), (proj1 H1), (proj1 H2); reflexivity.
Qed.

Lemma MoveToTier_false_at_most_once (tc : TieredContext) (uri : string)
  (tier : ContextTier) :
  (occurrences tc uri <= 1)%nat -> snd (MoveToTier tc uri tier) = false.
Proof.
  intros H.
  destruct (occurrences tc uri) as [|[|n]] eqn:E; [| |lia].
  - apply GetByURI_none_occurrences in E.
    unfold GetByURI in E. unfold MoveToTier. simpl in E.
    destruct (findInSlice (L0 tc) uri) eqn:E0; [discriminate|].
    destruct (findInSlice (L1 tc) uri) eqn:E1; [discriminate|].
    destruct (findInSlice (L2 tc) uri) eqn:E2; [discriminate|].
    rewrite (removeFromSlice_absent _ _ E0), (removeFromSlice_absent _ _ E1),
      (removeFromSlice_absent _ _ E2). reflexivity.
  - rewrite (MoveToTier_unique tc uri tier E). reflexivity.
Qed.

(** [MoveToTier] can only succeed on a store that holds the URI at least
    twice. *)
Theorem MoveToTier_true_needs_duplicate (tc : TieredContext) (uri : string)
  (tier : ContextTier) :
  snd (MoveToTier tc uri tier) = true -> (2 <= occurrences tc uri)%nat.
Proof.
  intros H. destruct (le_lt_dec (occurrences tc uri) 1) as [Hle|Hgt]; [|lia].
  rewrite (MoveToTier_false_at_most_once tc uri tier Hle) in H. discriminate.
Qed.

Lemma MoveToTier_true_needs_duplicate_witness : (2 <= occurrences tcDup "viking://test/a")%nat.
Proof. apply (MoveToTier_true_needs_duplicate tcDup "viking://test/a" TierL2). reflexivity. Defined.

Section RemoveOne.
Variable uri : string.

Lemma removeFromSlice_true_shape (l : list Context) :
  snd (removeFromSlice l uri) = true ->
  length l = S (length (fst (removeFromSlice l uri)))
  /\ without uri (fst (removeFromSlice l uri)) = without uri l.
Proof.
  unfold without, hasURI. induction l as [|c l IH]; simpl; [discriminate|].
  destruct (String.eqb (URI c) uri) eqn:E; simpl.
  - intros _. split; reflexivity.
  - destruct (removeFromSlice l uri) as [l' b]; simpl in *. rewrite E. simpl.
    intros Hb. destruct (IH Hb) as [H1 H2]. split; [lia | f_equal; exact H2].
Qed.

End RemoveOne.

(** [Remove] returns [true] exactly when some tier holds the URI. It then
    takes out one context with that URI: the count of the store and the
    number of holders of the URI go down by one, and the contexts with other
    URIs stay as they were, in order. Otherwise the store is unchanged. *)
Theorem Remove_spec (tc : TieredContext) (uri : string) :
  match GetByURI tc uri with
  | None => Remove tc uri = (tc, false)
  | Some _ =>
      snd (Remove tc uri) = true
      /\ Count (fst (Remove tc uri)) = Count tc - 1
      /\ S (occurrences (fst (Remove tc uri)) uri) = occurrences tc uri
      /\ without uri (GetAll (fst (Remove tc uri))) = without uri (GetAll tc)
  end.
Proof.
  unfold GetByURI, Remove, Count, occurrences, GetAll, without. simpl.
  destruct (removeFromSlice (L0 tc) uri) as [l0 r0] eqn:E0. destruct r0.
  { pose proof (removeFromSlice_true uri (L0 tc)) as Hc.
    pose proof (removeFromSlice_true_shape uri (L0 tc)) as Hs.
    rewrite E0 in Hc, Hs. simpl in Hc, Hs.
    specialize (Hc eq_refl). destruct (Hs eq_refl) as [Hl Hw]. unfold without in Hw.
    destruct (findInSlice (L0 tc) uri) eqn:F0.
    2:{ apply findInSlice_none_count in F0. lia. }
    simpl. rewrite !countURI_app, !List.filter_app, Hw. repeat split; lia. }
  pose proof (removeFromSlice_false uri (L0 tc)) as F0. rewrite E0 in F0.
  specialize (F0 eq_refl). rewrite F0.
  rewrite (removeFromSlice_absent _ _ F0) in E0. inversion E0; subst l0. clear E0.
  destruct (removeFromSlice (L1 tc) uri) as [l1 r1] eqn:E1. destruct r1.
  { pose proof (removeFromSlice_true uri (L1 tc)) as Hc.
    pose proof (removeFromSlice_true_shape uri (L1 tc)) as Hs.
    rewrite E1 in Hc, Hs. simpl in Hc, Hs.
    specialize (Hc eq_refl). destruct (Hs eq_refl) as [Hl Hw]. unfold without in Hw.
    destruct (findInSlice (L1 tc) uri) eqn:F1.
    2:{ apply findInSlice_none_count in F1. lia. }
    simpl. rewrite !countURI_app, !List.filter_app, Hw. repeat split; lia. }
  pose proof (removeFromSlice_false uri (L1 tc)) as F1. rewrite E1 in F1.
  specialize (F1 eq_refl). rewrite F1.
  rewrite (removeFromSlice_absent _ _ F1) in E1. inversion E1; subst l1. clear E1.
  destruct (removeFromSlice (L2 tc) uri) as [l2 r2] eqn:E2. destruct r2.
  { pose proof (removeFromSlice_true uri (L2 tc)) as Hc.
    pose proof (removeFromSlice_true_shape uri (L2 tc)) as Hs.
    rewrite E2 in Hc, Hs. simpl in Hc, Hs.
    specialize (Hc eq_refl). destruct (Hs eq_refl) as [Hl Hw]. unfold without in Hw.
    destruct (findInSlice (L2 tc) uri) eqn:F2.
    2:{ apply findInSlice_none_count in F2. lia. }
    simpl. rewrite !countURI_app, !List.filter_app, Hw. repeat split; lia. }
  pose proof (removeFromSlice_false uri (L2 tc)) as F2. rewrite E2 in F2.
  specialize (F2 eq_refl). rewrite F2. reflexivity.
Qed.

Lemma removeFromSlice_snoc (l : list Context) (ctx : Context) :
  findInSlice l (URI ctx) = None ->
  removeFromSlice (l ++ [ctx]) (URI ctx) = (l, true)
  /\ findInSlice (l ++ [ctx]) (URI ctx) = Some ctx.
Proof.
  induction l as [|c l IH]; simpl.
  - rewrite String.eqb_refl. intros _. split; reflexivity.
  - destruct (String.eqb (URI c) (URI ctx)); [discriminate|].
    intros H. destruct (IH H) as [-> ->]. split; reflexivity.
Qed.

(** A context added under a URI that the store does not hold yet is the one
    [GetByURI] finds, and removing that URI gives the store back as it was. *)
Theorem Add_then_Remove (tc : TieredContext) (ctx : Context) :
  GetByURI tc (URI ctx) = None ->
  GetByURI (Add tc ctx) (URI ctx) = Some ctx
  /\ Remove (Add tc ctx) (URI ctx) = (tc, true)
  /\ Count (Add tc ctx) = Count tc + 1.
Proof.
  unfold GetByURI. simpl.
  destruct (findInSlice (L0 tc) (URI ctx)) eqn:F0; [discriminate|].
  destruct (findInSlice (L1 tc) (URI ctx)) eqn:F1; [discriminate|].
  destruct (findInSlice (L2 tc) (URI ctx)) eqn:F2; [discriminate|]. intros _.
  destruct (removeFromSlice_snoc _ ctx F0) as [R0 G0].
  destruct (removeFromSlice_snoc _ ctx F1) as [R1 G1].
  destruct (removeFromSlice_snoc _ ctx F2) as [R2 G2].
  pose proof (removeFromSlice_absent _ _ F0) as A0.
  pose proof (removeFromSlice_absent _ _ F1) as A1.
  destruct tc as [l0 l1 l2]. simpl in *.
  unfold Add, Remove, Count. simpl.
  destruct (Tier ctx =? TierL0); [|destruct (Tier ctx =? TierL1);
                                    [|destruct (Tier ctx =? TierL2)]]; simpl;
    rewrite ?G0, ?F0, ?G1, ?F1, ?G2, ?R0, ?A0, ?R1, ?A1, ?R2, ?length_app; simpl;
    repeat split; lia.
Qed.

Lemma Add_then_Remove_witness :
  GetByURI (Add tcAB ctxC) (URI ctxC) = Some ctxC
  /\ Remove (Add tcAB ctxC) (URI ctxC) = (tcAB, true)
  /\ Count (Add tcAB ctxC) = Count tcAB + 1.
Proof. apply (Add_then_Remove tcAB ctxC). reflexivity. Defined.

(** *** The window *)

Lemma wrap_add_l (a b : Z) : wrap (wrap a + b) = wrap (a + b).
Proof.
  unfold wrap. f_equal.
  replace ((a + 2 ^ 63) mod 2 ^ 64 - 2 ^ 63 + b + 2 ^ 63)
    with ((a + 2 ^ 63) mod 2 ^ 64 + b) by lia.
  rewrite Z.add_mod_idemp_l by lia. f_equal. lia.
Qed.

Lemma wrap_idem (a : Z) : wrap (wrap a) = wrap a.
Proof. apply wrap_small, wrap_in_range. Qed.

(** The accumulation loop computes the sum of the costs modulo [2^64]. *)
Lemma sumTokens_wrap (cnt : TokenCounter) (l : list Context) :
  sumTokens cnt l = wrap (tokensOf cnt l).
Proof.
  unfold sumTokens.
  assert (H : forall acc, wrap acc = acc ->
            fold_left (fun total ctx => add total (cnt (Abstract ctx))) l acc
            = wrap (acc + tokensOf cnt l)).
  { induction l as [|c l IH]; intros acc Hacc; simpl.
    - rewrite Z.add_0_r. symmetry. exact Hacc.
    - rewrite IH by apply wrap_idem. unfold add. rewrite wrap_add_l. f_equal. lia. }
  apply (H 0). reflexivity.
Qed.

Lemma tokensOf_Add (cnt : TokenCounter) (tc : TieredContext) (ctx : Context) :
  tokensOf cnt (GetAll (Add tc ctx)) = tokensOf cnt (GetAll tc) + cnt (Abstract ctx).
Proof.
  unfold Add, GetAll.
  destruct (Tier ctx =? TierL0); [|destruct (Tier ctx =? TierL1);
                                    [|destruct (Tier ctx =? TierL2)]]; simpl;
    rewrite !tokensOf_app; simpl; lia.
Qed.

(** [AddContext] accepts a context exactly when the window with that context
    in it is within the limit, as [WithinLimit] computes it; the accepted
    context is then in the window. So accepted adds never take a window out
    of its limit. *)
Theorem AddContext_iff_WithinLimit (w : ContextWindow) (ctx : Context) :
  let w' := mkWindow (config w) (Add (tc w) ctx) (tokenCnt w) in
  (WithinLimit w' = true -> AddContext w ctx = (w', None))
  /\ (WithinLimit w' = false ->
      exists e : WindowError, AddContext w ctx = (w, Some e)).
Proof.
  cbv zeta. unfold WithinLimit, AddContext, currentTokensUnsafe. simpl.
  rewrite !sumTokens_wrap, tokensOf_Add. unfold add. rewrite wrap_add_l.
  destruct (Z.leb_spec (wrap (tokensOf (tokenCnt w) (GetAll (tc w))
                              + tokenCnt w (Abstract ctx)))
              (MaxTokens (config w))) as [Hle|Hgt]; split; intros H; try discriminate.
  - destruct (Z.gtb_spec (wrap (tokensOf (tokenCnt w) (GetAll (tc w))
                                + tokenCnt w (Abstract ctx)))
                (MaxTokens (config w))); [lia | reflexivity].
  - destruct (Z.gtb_spec (wrap (tokensOf (tokenCnt w) (GetAll (tc w))
                                + tokenCnt w (Abstract ctx)))
                (MaxTokens (config w))); [eexists; reflexivity | lia].
Qed.

Lemma fitStep_sublist (w : ContextWindow) (rest : list Context) :
  forall (result : list Context) (cur : Z),
  exists extra : list Context,
    fst (fold_left (fitStep w) rest (result, cur)) = result ++ extra
    /\ sublist extra rest.
Proof.
  induction rest as [|ctx rest IH]; intros result cur; simpl.
  - exists []. rewrite app_nil_r. split; [reflexivity | constructor].
  - destruct (_ <=? _).
    + destruct (IH (result ++ [ctx]) (add cur (tokenCnt w (Abstract ctx))))
        as (extra & -> & Hs).
      exists (ctx :: extra). rewrite <- app_assoc. split; [reflexivity|].
      constructor. exact Hs.
    + destruct (_ && _).
      * destruct (IH (result ++ [ctx]) (add cur (tokenCnt w (Abstract ctx))))
          as (extra & -> & Hs).
        exists (ctx :: extra). rewrite <- app_assoc. split; [reflexivity|].
        constructor. exact Hs.
      * destruct (IH result cur) as (extra & -> & Hs).
        exists extra. split; [reflexivity|]. apply sublist_cons. exact Hs.
Qed.

(** [FitInWindow] returns contexts of the store only, each at most as often
    as the store holds it, in tier order: its result is a subsequence of
    [L0 ++ L1 ++ L2], and it is that whole list when the total is within
    [MaxTokens]. *)
Theorem FitInWindow_sublist (w : ContextWindow) :
  sublist (FitInWindow w) (GetAll (tc w))
  /\ (WithinLimit w = true -> FitInWindow w = GetAll (tc w)).
Proof.
  unfold FitInWindow, WithinLimit, currentTokensUnsafe. fold (GetAll (tc w)).
  destruct (sumTokens (tokenCnt w) (GetAll (tc w)) <=? MaxTokens (config w)).
  - split; [reflexivity | reflexivity].
  - split; [|discriminate].
    destruct (fitStep_sublist w (GetAll (tc w)) [] 0) as (extra & -> & Hs). exact Hs.
Qed.

Lemma fitIfSpace_loop (w : ContextWindow) (rest : list Context) :
  forall (result : list Context) (cur bound : Z),
    Forall (fun ctx => 0 <= tokenCnt w (Abstract ctx)) rest ->
    cur = tokensOf (tokenCnt w) result ->
    0 <= cur -> cur + tokensOf (tokenCnt w) rest <= max_int ->
    cur <= bound -> MaxTokens (config w) <= bound ->
    exists extra : list Context,
      fold_left (fitIfSpace w) rest (result, cur)
      = (result ++ extra, tokensOf (tokenCnt w) (result ++ extra))
      /\ sublist extra rest
      /\ tokensOf (tokenCnt w) (result ++ extra) <= bound
      /\ tokensOf (tokenCnt w) (result ++ extra) <= cur + tokensOf (tokenCnt w) rest.
Proof.
  induction rest as [|ctx rest IH]; intros result cur bound Hnn Hcur H0 Hmax Hb HM; simpl.
  - exists []. rewrite app_nil_r, <- Hcur. repeat split; [constructor | lia | lia].
  - inversion Hnn as [|? ? Hctx Hrest]; subst.
    pose proof (tokensOf_nonneg (tokenCnt w) rest Hrest) as Hr. simpl in Hmax.
    rewrite add_exact by (unfold in_range, min_int, max_int in *; lia).
    destruct (Z.leb_spec (tokensOf (tokenCnt w) result + tokenCnt w (Abstract ctx))
                (MaxTokens (config w))) as [Hfit|Hover].
    + destruct (IH (result ++ [ctx])
                  (tokensOf (tokenCnt w) result + tokenCnt w (Abstract ctx)) bound)
        as (extra & E & Hs & B1 & B2); try lia; try assumption.
      { rewrite tokensOf_app. simpl. lia. }
      exists (ctx :: extra). rewrite <- app_assoc in E, B1, B2. simpl in E, B1, B2.
      rewrite E. repeat split; [constructor; exact Hs | exact B1 | lia].
    + destruct (IH result (tokensOf (tokenCnt w) result) bound)
        as (extra & E & Hs & B1 & B2); try lia; try assumption; try reflexivity.
      exists extra. rewrite E. repeat split; [apply sublist_cons; exact Hs | exact B1 | lia].
Qed.

Lemma takeAll_loop (w : ContextWindow) (l : list Context) :
  forall (result : list Context) (cur : Z),
    Forall (fun ctx => 0 <= tokenCnt w (Abstract ctx)) l ->
    cur = tokensOf (tokenCnt w) result ->
    0 <= cur -> cur + tokensOf (tokenCnt w) l <= max_int ->
    fold_left
      (fun (st : list Context * Z) ctx =>
         (fst st ++ [ctx], add (snd st) (tokenCnt w (Abstract ctx))))
      l (result, cur)
    = (result ++ l, tokensOf (tokenCnt w) (result ++ l)).
Proof.
  induction l as [|ctx l IH]; intros result cur Hnn Hcur H0 Hmax; simpl.
  - rewrite app_nil_r, Hcur. reflexivity.
  - inversion Hnn as [|? ? Hctx Hrest]; subst.
    pose proof (tokensOf_nonneg (tokenCnt w) l Hrest) as Hr. simpl in Hmax.
    rewrite add_exact by (unfold in_range, min_int, max_int in *; lia).
    rewrite IH; try assumption; try lia.
    + rewrite <- app_assoc. reflexivity.
    + rewrite tokensOf_app. simpl. lia.
Qed.

(** [fitInWindowUnsafe], which [OptimizeWindow] returns, starts with every
    L0 context whatever the budget and goes on with a subsequence of
    [L1 ++ L2]; when costs are non-negative and sum up within a Go [int], its
    total is within [MaxTokens] as soon as the L0 contexts alone are, and is
    never above the larger of [MaxTokens] and the cost of L0. *)
Theorem fitInWindowUnsafe_spec (w : ContextWindow) :
  tokensFit (tokenCnt w) (GetAll (tc w)) ->
  exists extra : list Context,
    fitInWindowUnsafe w = L0 (tc w) ++ extra
    /\ sublist extra (L1 (tc w) ++ L2 (tc w))
    /\ tokensOf (tokenCnt w) (fitInWindowUnsafe w)
       <= Z.max (MaxTokens (config w)) (tokensOf (tokenCnt w) (L0 (tc w))).
Proof.
  intros [Hnn Hsum]. unfold GetAll in Hnn, Hsum.
  apply Forall_app in Hnn as [Hn0 Hnn]. apply Forall_app in Hnn as [Hn1 Hn2].
  rewrite !tokensOf_app in Hsum.
  pose proof (tokensOf_nonneg _ _ Hn0). pose proof (tokensOf_nonneg _ _ Hn1).
  pose proof (tokensOf_nonneg _ _ Hn2).
  unfold fitInWindowUnsafe.
  rewrite (takeAll_loop w (L0 (tc w)) [] 0) by (assumption || reflexivity || simpl; lia).
  simpl app.
  set (bound := Z.max (MaxTokens (config w)) (tokensOf (tokenCnt w) (L0 (tc w)))).
  destruct (fitIfSpace_loop w (L1 (tc w)) (L0 (tc w))
              (tokensOf (tokenCnt w) (L0 (tc w))) bound)
    as (e1 & E1 & S1 & B1 & C1); try assumption; try reflexivity; try lia.
  rewrite E1.
  destruct (fitIfSpace_loop w (L2 (tc w)) (L0 (tc w) ++ e1)
              (tokensOf (tokenCnt w) (L0 (tc w) ++ e1)) bound)
    as (e2 & E2 & S2 & B2 & C2); try assumption; try reflexivity; try lia.
  { rewrite tokensOf_app. pose proof (tokensOf_nonneg (tokenCnt w) e1).
    apply Z.add_nonneg_nonneg; [lia|]. apply tokensOf_nonneg.
    rewrite Forall_forall in Hn1 |- *. intros x Hx. apply Hn1.
    eapply elem_of_sublist; eassumption. }
  rewrite E2. simpl. exists (e1 ++ e2). rewrite app_assoc.
  repeat split; [apply sublist_app; assumption | exact B2].
Qed.

Lemma fitInWindowUnsafe_spec_witness :
  exists extra : list Context,
    fitInWindowUnsafe tightWindow = L0 (tc tightWindow) ++ extra
    /\ sublist extra (L1 (tc tightWindow) ++ L2 (tc tightWindow))
    /\ tokensOf (tokenCnt tightWindow) (fitInWindowUnsafe tightWindow)
       <= Z.max (MaxTokens (config tightWindow))
            (tokensOf (tokenCnt tightWindow) (L0 (tc tightWindow))).
Proof. apply (fitInWindowUnsafe_spec tightWindow). exact tightWindow_fit. Defined.

End CoreExtFacts.

(** ** Sessions under any sequence of calls *)

Module SessionExtFacts.
Import Session SessionExt.

Lemma call_closed (s : Session) (c : Call) :
  SState s = StateClosed ->
  SState (call s c) = StateClosed /\ ClosedAt (call s c) = ClosedAt s.
Proof.
  intros H. destruct s; simpl in H; subst. destruct c; split; reflexivity.
Qed.

(** Closed is terminal: from a closed session no sequence of calls leads to
    another state or changes [closed_at], and [Pause], [Resume] and [Close]
    all return their error. *)
Theorem closed_is_terminal (s : Session) (cs : list Call) :
  SState s = StateClosed ->
  SState (calls s cs) = StateClosed
  /\ ClosedAt (calls s cs) = ClosedAt s
  /\ forall now : Time,
       Pause (calls s cs) now = (calls s cs, Some ErrInvalidState)
       /\ Resume (calls s cs) now = (calls s cs, Some ErrInvalidState)
       /\ Close (calls s cs) now = (calls s cs, Some ErrSessionClosed).
Proof.
  intros H.
  assert (Hrun : SState (calls s cs) = StateClosed /\ ClosedAt (calls s cs) = ClosedAt s).
  { unfold calls. revert s H. induction cs as [|c cs IH]; intros s H; simpl.
    - split; [exact H | reflexivity].
    - destruct (call_closed s c H) as [H1 H2].
      destruct (IH (call s c) H1) as [H3 H4]. split; [exact H3 | congruence]. }
  destruct Hrun as [H1 H2]. split; [exact H1|]. split; [exact H2|].
  intros now. unfold Pause, Resume, Close. rewrite H1. repeat split.
Qed.

Lemma closed_is_terminal_witness :
  SState (calls closedSession [CallResume 6; CallAddMessage RoleUser "hi" "m-1" 7 8;
                               CallClose 9]) = StateClosed
  /\ ClosedAt (calls closedSession [CallResume 6; CallAddMessage RoleUser "hi" "m-1" 7 8;
                                    CallClose 9]) = ClosedAt closedSession
  /\ forall now : Time,
       Pause (calls closedSession [CallResume 6; CallAddMessage RoleUser "hi" "m-1" 7 8;
                                   CallClose 9]) now
       = (calls closedSession [CallResume 6; CallAddMessage RoleUser "hi" "m-1" 7 8;
                               CallClose 9], Some ErrInvalidState)
       /\ Resume (calls closedSession [CallResume 6; CallAddMessage RoleUser "hi" "m-1" 7 8;
                                       CallClose 9]) now
          = (calls closedSession [CallResume 6; CallAddMessage RoleUser "hi" "m-1" 7 8;
                                  CallClose 9], Some ErrInvalidState)
       /\ Close (calls closedSession [CallResume 6; CallAddMessage RoleUser "hi" "m-1" 7 8;
                                      CallClose 9]) now
          = (calls closedSession [CallResume 6; CallAddMessage RoleUser "hi" "m-1" 7 8;
                                  CallClose 9], Some ErrSessionClosed).
Proof.
  apply (closed_is_terminal closedSession
           [CallResume 6; CallAddMessage RoleUser "hi" "m-1" 7 8; CallClose 9]).
  reflexivity.
Defined.

Lemma call_wellFormed (s : Session) (c : Call) :
  wellFormed s -> wellFormed (call s c).
Proof.
  unfold wellFormed. intros [Hst Hcl].
  destruct c; simpl; try (split; assumption).
  - unfold Pause. destruct (String.eqb_spec (SState s) StateActive) as [E|E]; simpl.
    + split; [right; left; reflexivity|]. split; [discriminate|].
      intros Hc. apply Hcl in Hc. rewrite E in Hc. discriminate.
    + split; assumption.
  - unfold Resume. destruct (String.eqb_spec (SState s) StatePaused) as [E|E]; simpl.
    + split; [left; reflexivity|]. split; [discriminate|].
      intros Hc. apply Hcl in Hc. rewrite E in Hc. discriminate.
    + split; assumption.
  - unfold Close. destruct (String.eqb_spec (SState s) StateClosed) as [E|E]; simpl.
    + split; assumption.
    + split; [right; right; reflexivity|]. split; [discriminate | reflexivity].
Qed.

Lemma call_identity (s : Session) (c : Call) :
  ID (call s c) = ID s /\ SessionID (call s c) = SessionID s
  /\ UserID (call s c) = UserID s /\ CreatedAt (call s c) = CreatedAt s.
Proof.
  destruct c; simpl; unfold Pause, Resume, Close;
    repeat match goal with |- context [if ?b then _ else _] => destruct b end;
    simpl; repeat split.
Qed.

(** Whatever is called on a session made by [NewSession], in whatever order:
    its state is one of active, paused and closed; it is closed exactly when
    [closed_at] is set; and its ids, user and creation time never change. *)
Theorem session_invariant (userID id sessionID : string) (now : Time) (cs : list Call) :
  let s := calls (NewSession userID id sessionID now) cs in
  (SState s = StateActive \/ SState s = StatePaused \/ SState s = StateClosed)
  /\ (SState s = StateClosed <-> ClosedAt s <> None)
  /\ ID s = id /\ SessionID s = sessionID /\ UserID s = userID /\ CreatedAt s = now.
Proof.
  cbv zeta.
  assert (H : forall s0, wellFormed s0 ->
            wellFormed (calls s0 cs)
            /\ ID (calls s0 cs) = ID s0 /\ SessionID (calls s0 cs) = SessionID s0
            /\ UserID (calls s0 cs) = UserID s0 /\ CreatedAt (calls s0 cs) = CreatedAt s0).
  { unfold calls. induction cs as [|c cs IH]; intros s0 Hw; simpl.
    - repeat split; apply Hw.
    - destruct (IH (call s0 c) (call_wellFormed s0 c Hw)) as (W & I1 & I2 & I3 & I4).
      destruct (call_identity s0 c) as (J1 & J2 & J3 & J4).
      split; [exact W|]. repeat split; congruence. }
  destruct (H (NewSession userID id sessionID now)) as ([W1 W2] & I1 & I2 & I3 & I4).
  { split; simpl; [left; reflexivity|]. split; [discriminate | intros X; contradiction]. }
  repeat split; try assumption; apply W2.
Qed.

Lemma call_counters (s : Session) (c : Call) :
  TotalTurns (call s c)
  = (if isAddMessage c then GoInt.add (TotalTurns s) 1 else TotalTurns s)
  /\ SkillsUsed (call s c)
     = (if isAddToolCall c then GoInt.add (SkillsUsed s) 1 else SkillsUsed s).
Proof.
  destruct c; simpl; unfold Pause, Resume, Close;
    repeat match goal with |- context [if ?b then _ else _] => destruct b end;
    simpl; split; reflexivity.
Qed.

(** [TotalTurns] counts the [AddMessage] calls and [SkillsUsed] the
    [AddToolCall] calls made since [NewSession], in every state of the
    session (paused and closed included), as Go [int] counters. *)
Theorem session_counters (userID id sessionID : string) (now : Time) (cs : list Call) :
  let s := calls (NewSession userID id sessionID now) cs in
  TotalTurns s = GoInt.wrap (Z.of_nat (length (List.filter isAddMessage cs)))
  /\ SkillsUsed s = GoInt.wrap (Z.of_nat (length (List.filter isAddToolCall cs))).
Proof.
  cbv zeta.
  assert (H : forall s0 a b,
            TotalTurns s0 = GoInt.wrap a -> SkillsUsed s0 = GoInt.wrap b ->
            TotalTurns (calls s0 cs)
            = GoInt.wrap (a + Z.of_nat (length (List.filter isAddMessage cs)))
            /\ SkillsUsed (calls s0 cs)
               = GoInt.wrap (b + Z.of_nat (length (List.filter isAddToolCall cs)))).
  { unfold calls. induction cs as [|c cs IH]; intros s0 a b Ha Hb; simpl.
    - rewrite !Z.add_0_r. split; assumption.
    - destruct (call_counters s0 c) as [C1 C2].
      destruct (IH (call s0 c)
                  (if isAddMessage c then a + 1 else a)
                  (if isAddToolCall c then b + 1 else b)) as [R1 R2].
      + rewrite C1. destruct (isAddMessage c); [|exact Ha].
        unfold GoInt.add. rewrite Ha. apply CoreExtFacts.wrap_add_l.
      + rewrite C2. destruct (isAddToolCall c); [|exact Hb].
        unfold GoInt.add. rewrite Hb. apply CoreExtFacts.wrap_add_l.
      + rewrite R1, R2. split; f_equal.
        * destruct (isAddMessage c); simpl length; lia.
        * destruct (isAddToolCall c); simpl length; lia. }
  apply (H (NewSession userID id sessionID now) 0 0); reflexivity.
Qed.

End SessionExtFacts.

(** ** The search loop and what [Retrieve] returns *)

Module RetrievalExtFacts.
Import GoHeap Retrieval RetrievalExt.

Lemma existsb_rrURI (u : string) (l : list RetrievalResult) :
  existsb (fun c => String.eqb (rrURI c) u) l = false -> u ∉ map rrURI l.
Proof.
  induction l as [|c l IH]; simpl; intros H.
  - apply not_elem_of_nil.
  - apply orb_false_iff in H as [H1 H2]. apply not_elem_of_cons. split.
    + intros ->. rewrite String.eqb_refl in H1. discriminate.
    + apply IH, H2.
Qed.

Lemma collected_snoc (opts : SearchOptions) (l : list RetrievalResult)
  (c : RetrievalResult) :
  NoDup (map rrURI l) ->
  Forall (fun c => thresholdPassed opts (rrScore c) = true) l ->
  rrURI c ∉ map rrURI l -> thresholdPassed opts (rrScore c) = true ->
  NoDup (map rrURI (l ++ [c]))
  /\ Forall (fun c => thresholdPassed opts (rrScore c) = true) (l ++ [c]).
Proof.
  intros Hn Hf Hnew Hc. split.
  - rewrite List.map_app. simpl. apply NoDup_app. split; [exact Hn|]. split.
    + intros x Hx Hx'. apply list_elem_of_singleton in Hx'. subst. contradiction.
    + apply NoDup_singleton.
  - apply Forall_app. split; [exact Hf|]. constructor; [exact Hc | constructor].
Qed.

Lemma childStep_inv (alpha currentScore : GoFloat.float64) (currentURI : string)
  (opts : SearchOptions) (st : LoopState) (child : SearchResult) :
  collectedOK opts st ->
  collectedOK opts (childStep alpha currentScore currentURI opts st child)
  /\ visited (childStep alpha currentScore currentURI opts st child) = visited st
  /\ trajNodes (childStep alpha currentScore currentURI opts st child) = trajNodes st.
Proof.
  intros [Hn Hf]. unfold childStep, collectedOK.
  destruct (thresholdPassed opts _) eqn:Ht; simpl.
  2:{ repeat split; assumption. }
  destruct (existsb _ (collected st)) eqn:Hex.
  - destruct (srIsLeaf child); simpl; repeat split; assumption.
  - apply existsb_rrURI in Hex.
    destruct (collected_snoc opts (collected st)
                (mkRetrievalResult (srURI child)
                   (GoFloat.add (GoFloat.mul alpha (srScore child))
                      (GoFloat.mul (GoFloat.sub 1 alpha) currentScore))
                   (srIsLeaf child) (srAbstract child) "") Hn Hf Hex Ht) as [Hn' Hf'].
    destruct (srIsLeaf child); simpl; repeat split; assumption.
Qed.

Lemma children_inv (alpha currentScore : GoFloat.float64) (currentURI : string)
  (opts : SearchOptions) (children : list SearchResult) :
  forall st : LoopState,
    collectedOK opts st ->
    collectedOK opts (fold_left (childStep alpha currentScore currentURI opts) children st)
    /\ visited (fold_left (childStep alpha currentScore currentURI opts) children st)
       = visited st
    /\ trajNodes (fold_left (childStep alpha currentScore currentURI opts) children st)
       = trajNodes st.
Proof.
  induction children as [|c cs IH]; intros st H; simpl.
  - repeat split; apply H.
  - destruct (childStep_inv alpha currentScore currentURI opts st c H) as (H1 & H2 & H3).
    destruct (IH _ H1) as (I1 & I2 & I3). split; [exact I1|]. split; congruence.
Qed.

Lemma convergenceCheck_keeps (hr : HierarchicalRetriever) (opts : SearchOptions)
  (st : LoopState) :
  match convergenceCheck hr opts st with
  | Next st' | Converged st' =>
      collected st' = collected st /\ visited st' = visited st
      /\ trajNodes st' = trajNodes st
  | Panicked => True
  end.
Proof.
  unfold convergenceCheck. destruct (getTopK _ _); [|exact I].
  destruct (_ && _); [destruct (_ >=? _)|]; simpl; repeat split.
Qed.

Lemma iteration_inv (hr : HierarchicalRetriever) (queryVector : option EmbedResult)
  (opts : SearchOptions) (st : LoopState) :
  collectedOK opts st -> trajectoryOK st ->
  match iteration hr queryVector opts st with
  | Next st' | Converged st' => collectedOK opts st' /\ trajectoryOK st'
  | Panicked => True
  end.
Proof.
  intros Hc [Hn Hv]. unfold iteration.
  destruct (heapPop (dirQueue st)) as [[item queue1]|]; [|exact I].
  destruct (bool_decide (srURI item ∈ visited st)) eqn:Hvis.
  - split; [exact Hc | split; assumption].
  - apply bool_decide_eq_false in Hvis.
    assert (Ht : trajectoryOK
                   (mkLoopState queue1 (visited st ∪ {[ srURI item ]}) (collected st)
                      (prevTopKURIs st) (convergenceRounds st) (depth st)
                      (trajNodes st ++ [mkNode (srURI item) (depth st) (srScore item)])
                      (trajEdges st)
                      (events st ++ [(TraceEventSearchDirectoryStart, srURI item)]))).
    { unfold trajectoryOK. simpl. rewrite List.map_app. simpl. split.
      - apply NoDup_app. split; [exact Hn|]. split; [|apply NoDup_singleton].
        intros x Hx Hx'. apply list_elem_of_singleton in Hx'. subst x.
        apply Hvis. rewrite Hv. apply elem_of_list_to_set. exact Hx.
      - rewrite list_to_set_app_L, Hv. simpl. rewrite (right_id_L ∅ (∪)). reflexivity. }
    destruct (searchChildren _ _ _ _) as [children|].
    2:{ split; [exact Hc | exact Ht]. }
    match goal with |- context [fold_left ?f children ?s] =>
      destruct (children_inv (ScorePropagationAlpha (rconfig hr)) (srScore item)
                  (srURI item) opts children s Hc) as (F1 & F2 & F3);
      pose proof (convergenceCheck_keeps hr opts (fold_left f children s)) as K;
      destruct (convergenceCheck hr opts (fold_left f children s)) as [st'|st'|]
    end; [| |exact I].
    + destruct K as (K1 & K2 & K3). unfold collectedOK, trajectoryOK in *.
      rewrite K1, K2, K3, F2, F3. split; [exact F1 | exact Ht].
    + destruct K as (K1 & K2 & K3). unfold collectedOK, trajectoryOK in *.
      rewrite K1, K2, K3, F2, F3. split; [exact F1 | exact Ht].
Qed.

Lemma searchLoop_inv (hr : HierarchicalRetriever) (rt : Runtime)
  (queryVector : option EmbedResult) (opts : SearchOptions) (fuel : nat) :
  forall (tick : nat) (st : LoopState) (e : LoopExit) (st' : LoopState),
    collectedOK opts st -> trajectoryOK st ->
    searchLoop hr rt queryVector opts fuel tick st = Some e ->
    exitState e = Some st' ->
    collectedOK opts st' /\ trajectoryOK st'.
Proof.
  induction fuel as [|fuel IH]; intros tick st e st' Hc Ht Hrun Hex; simpl in Hrun.
  - destruct (dirQueue st); [|destruct (ctxDone rt tick); [|discriminate]];
      inversion Hrun; subst; simpl in Hex; inversion Hex; subst; split; assumption.
  - destruct (dirQueue st).
    { inversion Hrun; subst; simpl in Hex; inversion Hex; subst; split; assumption. }
    destruct (ctxDone rt tick).
    { inversion Hrun; subst; simpl in Hex; inversion Hex; subst; split; assumption. }
    pose proof (iteration_inv hr queryVector opts st Hc Ht) as Hi.
    destruct (iteration hr queryVector opts st) as [st1|st1|].
    + destruct Hi as [Hc1 Ht1]. exact (IH (S tick) st1 e st' Hc1 Ht1 Hrun Hex).
    + inversion Hrun; subst; simpl in Hex; inversion Hex; subst. exact Hi.
    + inversion Hrun; subst; discriminate.
Qed.

Lemma initialState_inv (opts : SearchOptions) (startingPoints : list HeapItem) :
  collectedOK opts (initialState startingPoints)
  /\ trajectoryOK (initialState startingPoints).
Proof.
  unfold collectedOK, trajectoryOK, initialState. simpl.
  repeat split; try constructor.
Qed.

(** However the loop of [recursiveSearch] is left (queue empty, converged or
    cancelled): the trajectory holds no directory twice, so no directory's
    children were searched twice; no URI was collected twice; and every
    collected score passed the threshold. *)
Theorem searchLoop_no_repeat (hr : HierarchicalRetriever) (rt : Runtime)
  (queryVector : option EmbedResult) (opts : SearchOptions)
  (startingPoints : list HeapItem) (fuel : nat) (e : LoopExit) (st : LoopState) :
  searchLoop hr rt queryVector opts fuel 0 (initialState startingPoints) = Some e ->
  exitState e = Some st ->
  NoDup (map nodeURI (trajNodes st))
  /\ visited st = list_to_set (map nodeURI (trajNodes st))
  /\ NoDup (map rrURI (collected st))
  /\ Forall (fun c => thresholdPassed opts (rrScore c) = true) (collected st).
Proof.
  intros Hrun Hex.
  destruct (initialState_inv opts startingPoints) as [Hc Ht].
  destruct (searchLoop_inv hr rt queryVector opts fuel 0 _ e st Hc Ht Hrun Hex)
    as [[C1 C2] [T1 T2]].
  repeat split; assumption.
Qed.

Lemma searchLoop_no_repeat_witness :
  match searchLoop repeatRetriever neverCancelled None repeatOptions 10 0
          (initialState [mkHeapItem "viking://r" 0]) with
  | Some (Left st) =>
      NoDup (map nodeURI (trajNodes st))
      /\ visited st = list_to_set (map nodeURI (trajNodes st))
      /\ NoDup (map rrURI (collected st))
      /\ Forall (fun c => thresholdPassed repeatOptions (rrScore c) = true) (collected st)
  | _ => False
  end.
Proof.
  destruct (searchLoop repeatRetriever neverCancelled None repeatOptions 10 0
              (initialState [mkHeapItem "viking://r" 0])) as [[st|st|]|] eqn:E;
    try (vm_compute in E; discriminate).
  apply (searchLoop_no_repeat repeatRetriever neverCancelled None repeatOptions
           [mkHeapItem "viking://r" 0] 10 (Left st) st E). reflexivity.
Defined.

(** *** What [recursiveSearch] and [Retrieve] hand back *)

Lemma insertBy_perm {A : Type} (less : A -> A -> bool) (x : A) (l : list A) :
  insertBy less x l ≡ₚ x :: l.
Proof.
  induction l as [|y l IH]; simpl; [reflexivity|].
  destruct (less y x); [|reflexivity].
  rewrite IH. apply Permutation_swap.
Qed.

Lemma insertionSort_perm {A : Type} (less : A -> A -> bool) (l : list A) :
  insertionSort less l ≡ₚ l.
Proof.
  unfold insertionSort.
  assert (H : forall acc, fold_left (fun acc x => insertBy less x acc) l acc ≡ₚ acc ++ l).
  { induction l as [|x l IH]; intros acc; simpl.
    - rewrite app_nil_r. reflexivity.
    - rewrite IH, insertBy_perm. simpl. apply Permutation_middle. }
  apply (H []).
Qed.

Lemma recursiveSearch_result (hr : HierarchicalRetriever) (rt : Runtime)
  (queryVector : option EmbedResult) (startingPoints : list HeapItem)
  (opts : SearchOptions) (fuel : nat) (candidates : list RetrievalResult) :
  (forall less l, sortSlice rt less l ≡ₚ l) ->
  recursiveSearch hr rt queryVector startingPoints opts fuel
  = Some (Returned (candidates, None)) ->
  Z.of_nat (length candidates) <= Limit opts
  /\ NoDup (map rrURI candidates)
  /\ Forall (fun c => thresholdPassed opts (rrScore c) = true) candidates.
Proof.
  intros Hsort. unfold recursiveSearch.
  destruct (searchLoop _ _ _ _ _ _ _) as [[st|st|]|] eqn:E; try discriminate.
  destruct (initialState_inv opts startingPoints) as [Hc0 Ht0].
  destruct (searchLoop_inv hr rt queryVector opts fuel 0 _ (Left st) st Hc0 Ht0 E eq_refl)
    as [[Hn Hf] _].
  set (less := fun a b : RetrievalResult => GoFloat.lt (rrScore b) (rrScore a)).
  pose proof (Hsort less (collected st)) as Hp.
  assert (Hn' : NoDup (map rrURI (sortSlice rt less (collected st)))).
  { rewrite (Permutation_map rrURI Hp). exact Hn. }
  assert (Hf' : Forall (fun c => thresholdPassed opts (rrScore c) = true)
                  (sortSlice rt less (collected st))).
  { rewrite Forall_forall in Hf |- *. intros c Hc. apply Hf. rewrite <- Hp. exact Hc. }
  destruct (Z.gtb_spec (Z.of_nat (length (sortSlice rt less (collected st)))) (Limit opts))
    as [Hgt|Hle].
  - destruct (Z.ltb_spec (Limit opts) 0) as [Hlt|Hge]; [discriminate|].
    intros Hret. inversion Hret; subst. split; [|split].
    + rewrite length_take. lia.
    + rewrite <- firstn_map. eapply sublist_NoDup; [exact Hn' | apply sublist_take].
    + apply Forall_take. exact Hf'.
  - intros Hret. inversion Hret; subst. split; [lia|]. split; assumption.
Qed.

(** A [Retrieve] that returns a result returns at most [Limit] matches, no
    URI twice, each with a score that passed the threshold and with the
    context type of the query, together with the directories it was to
    search. [sort.Slice] is taken to permute its slice. *)
Theorem Retrieve_result (hr : HierarchicalRetriever) (rt : Runtime) (query : TypedQuery)
  (opts : SearchOptions) (fuel : nat) (qr : QueryResult) :
  (forall less l, sortSlice rt less l ≡ₚ l) ->
  Retrieve hr rt query opts fuel = Some (Returned (Some qr, None)) ->
  Z.of_nat (length (MatchedContexts qr)) <= Limit opts
  /\ NoDup (map mcURI (MatchedContexts qr))
  /\ Forall (fun m => thresholdPassed opts (mcScore m) = true
                      /\ mcContextType m = QContextType query) (MatchedContexts qr)
  /\ SearchedDirectories qr = targetDirsOf query opts.
Proof.
  intros Hsort. unfold Retrieve.
  destruct (queryVectorOf hr query) as [queryVector|]; [|discriminate].
  destruct (recursiveSearch _ _ _ _ _ _) as [[[candidates [err|]]|]|] eqn:E;
    try discriminate.
  intros H. inversion H; subst. simpl.
  destruct (recursiveSearch_result hr rt queryVector _ opts fuel candidates Hsort E)
    as (Hl & Hn & Hf).
  unfold convertToMatchedContexts. split; [|split; [|split]].
  - rewrite length_map. exact Hl.
  - rewrite List.map_map. simpl. exact Hn.
  - apply Forall_forall. intros m Hm. apply list_elem_of_In, in_map_iff in Hm.
    destruct Hm as (c & <- & Hc). simpl. split; [|reflexivity].
    rewrite Forall_forall in Hf. apply Hf, list_elem_of_In, Hc.
  - reflexivity.
Qed.

Lemma Retrieve_result_witness :
  match Retrieve repeatRetriever neverCancelled resourceQuery repeatOptions 10 with
  | Some (Returned (Some qr, None)) =>
      Z.of_nat (length (MatchedContexts qr)) <= Limit repeatOptions
      /\ NoDup (map mcURI (MatchedContexts qr))
      /\ Forall (fun m => thresholdPassed repeatOptions (mcScore m) = true
                          /\ mcContextType m = QContextType resourceQuery)
           (MatchedContexts qr)
      /\ SearchedDirectories qr = targetDirsOf resourceQuery repeatOptions
  | _ => False
  end.
Proof.
  destruct (Retrieve repeatRetriever neverCancelled resourceQuery repeatOptions 10)
    as [[[[qr|] [err|]]|]|] eqn:E; try (vm_compute in E; discriminate).
  apply (Retrieve_result repeatRetriever neverCancelled resourceQuery repeatOptions 10 qr);
    [|exact E].
  intros less l. apply insertionSort_perm.
Defined.

(** *** Starting points *)

Lemma mergeLoop_spec (rootURIs : list string) :
  forall (items : list HeapItem) (seen : gset string),
  exists added : list string,
    fst (fold_left
           (fun (acc : list HeapItem * gset string) uri =>
              let '(items, seen) := acc in
              if bool_decide (uri ∈ seen) then acc
              else (items ++ [mkHeapItem uri 0], seen ∪ {[ uri ]}))
           rootURIs (items, seen))
    = items ++ map (fun uri => mkHeapItem uri 0) added
    /\ sublist added rootURIs
    /\ NoDup added
    /\ (forall uri, uri ∈ added -> uri ∉ seen)
    /\ (forall uri, uri ∈ rootURIs -> uri ∈ seen \/ uri ∈ added).
Proof.
  induction rootURIs as [|u us IH]; intros items seen; simpl.
  - exists []. rewrite app_nil_r.
    split; [reflexivity|]. split; [constructor|]. split; [constructor|].
    split; intros uri H; inversion H.
  - destruct (bool_decide (u ∈ seen)) eqn:Hu.
    + apply bool_decide_eq_true in Hu.
      destruct (IH items seen) as (added & E & Hs & Hn & Hnew & Hcov).
      exists added. split; [exact E|]. split; [apply sublist_cons; exact Hs|].
      split; [exact Hn|]. split; [exact Hnew|].
      intros uri H. apply elem_of_cons in H as [->|H]; [left; exact Hu | apply Hcov, H].
    + apply bool_decide_eq_false in Hu.
      destruct (IH (items ++ [mkHeapItem u 0]) (seen ∪ {[ u ]}))
        as (added & E & Hs & Hn & Hnew & Hcov).
      exists (u :: added). rewrite E, <- app_assoc. split; [reflexivity|].
      split; [constructor; exact Hs|]. split; [|split].
      * apply NoDup_cons. split; [|exact Hn].
        intros H. apply Hnew in H. apply H, elem_of_union_r, elem_of_singleton. reflexivity.
      * intros uri H. apply elem_of_cons in H as [->|H]; [exact Hu|].
        intros Hin. apply (Hnew uri H), elem_of_union_l, Hin.
      * intros uri H. apply elem_of_cons in H as [->|H].
        -- right. apply elem_of_cons. left. reflexivity.
        -- destruct (Hcov uri H) as [Hc|Hc].
           ++ apply elem_of_union in Hc as [Hc|Hc]; [left; exact Hc|].
              apply elem_of_singleton in Hc. subst. right. apply elem_of_cons. left.
              reflexivity.
           ++ right. apply elem_of_cons. right. exact Hc.
Qed.

Lemma mergeStartingPoints_covers (rootURIs : list string)
  (globalResults : list SearchResult) (uri : string) :
  uri ∈ rootURIs -> uri ∈ map hiURI (mergeStartingPoints rootURIs globalResults).
Proof.
  intros H. unfold mergeStartingPoints.
  destruct (mergeLoop_spec rootURIs
              (map (fun r => mkHeapItem (srURI r) (srScore r)) globalResults)
              (list_to_set (map srURI globalResults)))
    as (added & E & _ & _ & _ & Hcov).
  rewrite E, List.map_app, !List.map_map. simpl.
  apply elem_of_app. destruct (Hcov uri H) as [Hc|Hc].
  - left. apply elem_of_list_to_set in Hc. exact Hc.
  - right. rewrite List.map_id. exact Hc.
Qed.

(** [mergeStartingPoints] returns the global hits, in order and with their
    scores, followed with score 0 by the root URIs that no global hit has,
    each once and in the order given; so every root URI is among the
    starting points. *)
Theorem mergeStartingPoints_spec (rootURIs : list string)
  (globalResults : list SearchResult) :
  exists added : list string,
    mergeStartingPoints rootURIs globalResults
    = map (fun r => mkHeapItem (srURI r) (srScore r)) globalResults
      ++ map (fun uri => mkHeapItem uri 0) added
    /\ sublist added rootURIs
    /\ NoDup added
    /\ (forall uri, uri ∈ added -> uri ∉ map srURI globalResults)
    /\ (forall uri, uri ∈ rootURIs ->
          uri ∈ map hiURI (mergeStartingPoints rootURIs globalResults)).
Proof.
  unfold mergeStartingPoints.
  destruct (mergeLoop_spec rootURIs
              (map (fun r => mkHeapItem (srURI r) (srScore r)) globalResults)
              (list_to_set (map srURI globalResults)))
    as (added & E & Hs & Hn & Hnew & Hcov).
  exists added. split; [exact E|]. split; [exact Hs|]. split; [exact Hn|]. split.
  - intros uri H Hin. apply (Hnew uri H). apply elem_of_list_to_set. exact Hin.
  - intros uri H. apply mergeStartingPoints_covers. exact H.
Qed.

(** *** A negative limit *)

Lemma initialState_nonempty (startingPoints : list HeapItem) :
  startingPoints <> [] -> dirQueue (initialState startingPoints) <> [].
Proof.
  intros Hne. unfold initialState. simpl.
  assert (H : forall q,
            length (fold_left
                      (fun q sp => heapPush q (mkSearchResult (hiURI sp) (hiScore sp) "" false ""))
                      startingPoints q)
            = (length q + length startingPoints)%nat).
  { induction startingPoints as [|sp sps IH]; intros q; simpl; [lia|].
    destruct sps as [|sp' sps'].
    - simpl. unfold heapPush. rewrite HeapFacts.Push_length. lia.
    - rewrite IH by discriminate. unfold heapPush. rewrite HeapFacts.Push_length.
      simpl. lia. }
  intros E. specialize (H []). rewrite E in H. destruct startingPoints; [congruence|].
  simpl in H. lia.
Qed.

Lemma convergenceCheck_negative (hr : HierarchicalRetriever) (opts : SearchOptions)
  (st : LoopState) :
  Limit opts < 0 -> convergenceCheck hr opts st = Panicked.
Proof.
  intros Hneg. unfold convergenceCheck, getTopK.
  destruct (Z.geb_spec (Limit opts) (Z.of_nat (length (collected st)))); [lia|].
  destruct (Z.ltb_spec (Limit opts) 0); [reflexivity | lia].
Qed.

Lemma searchLoop_negative (hr : HierarchicalRetriever) (rt : Runtime)
  (queryVector : option EmbedResult) (opts : SearchOptions) (fuel tick : nat)
  (st : LoopState) :
  Limit opts < 0 -> dirQueue st <> [] -> visited st = ∅ -> ctxDone rt tick = false ->
  (forall uri, searchChildren hr uri queryVector (GoInt.wrap (Limit opts * 2)) <> None) ->
  searchLoop hr rt queryVector opts (S fuel) tick st = Some LoopPanicked.
Proof.
  intros Hneg Hq Hvis Hdone Hsearch. simpl.
  destruct (dirQueue st) as [|x q] eqn:Eq; [congruence|].
  rewrite Hdone. unfold iteration. rewrite Eq.
  destruct (HeapFacts.Pop_nonempty heapLess (x :: q) ltac:(discriminate))
    as (item & rest & Hpop).
  unfold heapPop. rewrite Hpop, Hvis.
  rewrite bool_decide_eq_false_2 by apply not_elem_of_empty.
  destruct (searchChildren hr (srURI item) queryVector (GoInt.wrap (Limit opts * 2)))
    as [children|] eqn:Ec; [|exfalso; exact (Hsearch _ Ec)].
  rewrite convergenceCheck_negative by exact Hneg. reflexivity.
Qed.

(** With a negative [Limit], [Retrieve] panics in its first pass through the
    loop (the slice expression of [getTopK] is out of bounds) as soon as
    there is a directory to search, the token has not fired and the first
    child search returns without error. *)
Theorem Retrieve_negative_limit (hr : HierarchicalRetriever) (rt : Runtime)
  (query : TypedQuery) (opts : SearchOptions) (queryVector : option EmbedResult)
  (fuel : nat) :
  Limit opts < 0 ->
  targetDirsOf query opts <> [] ->
  queryVectorOf hr query = Some queryVector ->
  ctxDone rt 0 = false ->
  (forall uri, searchChildren hr uri queryVector (GoInt.wrap (Limit opts * 2)) <> None) ->
  Retrieve hr rt query opts (S fuel) = Some Panic.
Proof.
  intros Hneg Hdirs Hqv Hdone Hsearch. unfold Retrieve. rewrite Hqv.
  unfold recursiveSearch.
  assert (Hsp : startingPointsOf hr query opts queryVector <> []).
  { unfold startingPointsOf.
    destruct (targetDirsOf query opts) as [|d ds] eqn:Ed; [congruence|].
    intros E.
    pose proof (mergeStartingPoints_covers (d :: ds)
                  (getGlobalSearchResults hr queryVector) d
                  ltac:(apply elem_of_cons; left; reflexivity)) as Hcov.
    rewrite E in Hcov. inversion Hcov. }
  pose proof (initialState_nonempty _ Hsp) as Hq.
  rewrite (searchLoop_negative hr rt queryVector opts fuel 0 _ Hneg Hq eq_refl Hdone
             Hsearch).
  reflexivity.
Qed.

Lemma Retrieve_negative_limit_witness :
  Retrieve repeatRetriever neverCancelled resourceQuery negativeOptions 1 = Some Panic.
Proof.
  apply (Retrieve_negative_limit repeatRetriever neverCancelled resourceQuery
           negativeOptions None 0).
  - reflexivity.
  - discriminate.
  - reflexivity.
  - reflexivity.
  - intros uri. unfold searchChildren, repeatRetriever, repeatStore. simpl.
    destruct (String.eqb uri "viking://r"); [discriminate|].
    destruct (String.eqb uri "viking://r/d"); discriminate.
Defined.

End RetrievalExtFacts.

(** ** Grouping, merging and the similarity measure *)

Module DedupExtFacts.
Import Dedup DedupExt DedupFacts.

Section Groups.
Variable d : MemoryDeduper.

Lemma placeInGroups_concat (groups : list (list ExtractedMemory)) (m : ExtractedMemory) :
  concat (fst (placeInGroups d groups m))
  ≡ₚ (if snd (placeInGroups d groups m) then concat groups ++ [m] else concat groups).
Proof.
  induction groups as [|g rest IH]; simpl; [reflexivity|].
  destruct g as [|first g'].
  - destruct (placeInGroups d rest m) as [rest' added]. simpl in *. exact IH.
  - destruct (similar d (Content m) (Content first)); simpl.
    + rewrite <- !app_assoc. do 2 f_equiv. apply Permutation_app_comm.
    + destruct (placeInGroups d rest m) as [rest' added]. simpl in *.
      rewrite IH. destruct added; [|reflexivity].
      rewrite <- !app_assoc. reflexivity.
Qed.

Lemma placeInGroups_ledBy (groups : list (list ExtractedMemory)) (m : ExtractedMemory) :
  Forall (ledBy d) groups -> Forall (ledBy d) (fst (placeInGroups d groups m)).
Proof.
  induction groups as [|g rest IH]; simpl; intros H; [constructor|].
  inversion H as [|? ? Hg Hrest]; subst.
  destruct g as [|first g'].
  - destruct (placeInGroups d rest m) as [rest' added]. simpl in *.
    constructor; [exact Hg | apply IH, Hrest].
  - destruct (similar d (Content m) (Content first)) eqn:E; simpl.
    + constructor; [|exact Hrest]. simpl in *. apply Forall_app. split; [exact Hg|].
      constructor; [exact E | constructor].
    + destruct (placeInGroups d rest m) as [rest' added]. simpl in *.
      constructor; [exact Hg | apply IH, Hrest].
Qed.

Lemma placeInGroups_sublist (groups : list (list ExtractedMemory)) (m : ExtractedMemory)
  (seen : list ExtractedMemory) :
  Forall (fun g => sublist g seen) groups ->
  Forall (fun g => sublist g (seen ++ [m])) (fst (placeInGroups d groups m)).
Proof.
  assert (Hweak : forall gs : list (list ExtractedMemory),
            Forall (fun g => sublist g seen) gs ->
            Forall (fun g => sublist g (seen ++ [m])) gs).
  { intros gs Hgs. eapply Forall_impl; [exact Hgs|].
    intros g Hg. apply sublist_inserts_r. exact Hg. }
  induction groups as [|g rest IH]; simpl; intros H; [constructor|].
  inversion H as [|? ? Hg Hrest]; subst.
  destruct g as [|first g'].
  - destruct (placeInGroups d rest m) as [rest' added]. simpl in *.
    constructor; [apply sublist_nil_l | apply IH, Hrest].
  - destruct (similar d (Content m) (Content first)); simpl.
    + constructor; [|apply Hweak, Hrest].
      apply (sublist_app (first :: g') seen [m] [m]); [exact Hg | reflexivity].
    + destruct (placeInGroups d rest m) as [rest' added]. simpl in *.
      constructor; [apply sublist_inserts_r; exact Hg | apply IH, Hrest].
Qed.

Lemma groupSimilar_partition_from (memories : list ExtractedMemory) :
  forall (groups : list (list ExtractedMemory)) (seen : list ExtractedMemory),
    Forall (ledBy d) groups ->
    Forall (fun g => sublist g seen) groups ->
    let groups' :=
      fold_left
        (fun groups m =>
           let '(groups', added) := placeInGroups d groups m in
           if added then groups' else groups' ++ [[m]])
        memories groups in
    concat groups' ≡ₚ concat groups ++ memories
    /\ Forall (ledBy d) groups'
    /\ Forall (fun g => sublist g (seen ++ memories)) groups'.
Proof.
  induction memories as [|m ms IH]; intros groups seen Hled Hsub; simpl.
  - rewrite !app_nil_r. split; [reflexivity|]. split; assumption.
  - pose proof (placeInGroups_concat groups m) as Hc.
    pose proof (placeInGroups_ledBy groups m Hled) as Hl.
    pose proof (placeInGroups_sublist groups m seen Hsub) as Hs.
    destruct (placeInGroups d groups m) as [groups1 added]. simpl in Hc, Hl, Hs.
    destruct added.
    + destruct (IH groups1 (seen ++ [m]) Hl Hs) as (P & L & S).
      rewrite <- app_assoc in S. split; [|split; assumption].
      rewrite P, Hc, <- app_assoc. reflexivity.
    + destruct (IH (groups1 ++ [[m]]) (seen ++ [m])) as (P & L & S).
      * apply Forall_app. split; [exact Hl|]. constructor; [constructor | constructor].
      * apply Forall_app. split; [exact Hs|].
        constructor; [apply sublist_inserts_l; reflexivity | constructor].
      * rewrite <- app_assoc in S. split; [|split; assumption].
        rewrite P, concat_app, Hc. simpl. rewrite <- app_assoc. reflexivity.
Qed.

(** [groupSimilar] partitions its input: the groups together hold every
    memory exactly as often as the input does; no group is empty; each group
    lists its members in input order; and every member of a group is similar
    to the group's first member. *)
Theorem groupSimilar_partition (memories : list ExtractedMemory) :
  concat (groupSimilar d memories) ≡ₚ memories
  /\ Forall (fun g => g <> [] /\ sublist g memories /\ ledBy d g)
       (groupSimilar d memories).
Proof.
  destruct (groupSimilar_partition_from memories [] []) as (P & L & S);
    [constructor | constructor |].
  destruct (groupSimilar_spec d memories) as (Hne & _ & _).
  split; [exact P|]. unfold groupSimilar.
  rewrite Forall_forall in Hne, L, S |- *. intros g Hg.
  split; [apply Hne, Hg|]. split; [apply S, Hg | apply L, Hg].
Qed.

End Groups.

(** *** [simpleMerge] *)

Lemma simpleMerge_loop (rest : list ExtractedMemory) :
  forall first : ExtractedMemory,
    let best :=
      fold_left
        (fun best m => if GoFloat.Qltb (Importance best) (Importance m) then m else best)
        rest first in
    (best = first \/ best ∈ rest)
    /\ (Importance first <= Importance best)%Q
    /\ Forall (fun m => (Importance m <= Importance best)%Q) rest.
Proof.
  induction rest as [|x rest IH]; intros first; simpl.
  - split; [left; reflexivity|]. split; [apply Qle_refl | constructor].
  - destruct (IH (if GoFloat.Qltb (Importance first) (Importance x) then x else first))
      as (Hin & Hle & Hall).
    assert (Hstep : (Importance first
                     <= Importance (if GoFloat.Qltb (Importance first) (Importance x)
                                    then x else first))%Q
                    /\ (Importance x
                        <= Importance (if GoFloat.Qltb (Importance first) (Importance x)
                                       then x else first))%Q).
    { unfold GoFloat.Qltb.
      destruct (Qle_bool (Importance x) (Importance first)) eqn:E; simpl.
      - split; [apply Qle_refl | apply Qle_bool_iff, E].
      - split; [|apply Qle_refl].
        apply Qlt_le_weak, Qnot_le_lt. intros H. apply Qle_bool_iff in H. congruence. }
    destruct Hstep as [H1 H2]. split; [|split].
    + destruct Hin as [Hin|Hin].
      * rewrite Hin. destruct (GoFloat.Qltb _ _);
          [right; apply elem_of_cons; left; reflexivity | left; reflexivity].
      * right. apply elem_of_cons. right. exact Hin.
    + eapply Qle_trans; [exact H1 | exact Hle].
    + constructor; [eapply Qle_trans; [exact H2 | exact Hle] | exact Hall].
Qed.

(** [simpleMerge] returns nothing for an empty group and otherwise a member
    of the group whose importance no other member exceeds. *)
Theorem simpleMerge_best (memories : list ExtractedMemory) :
  match simpleMerge memories with
  | None => memories = []
  | Some best =>
      best ∈ memories
      /\ Forall (fun m => (Importance m <= Importance best)%Q) memories
  end.
Proof.
  destruct memories as [|first rest]; simpl; [reflexivity|].
  destruct (simpleMerge_loop rest first) as (Hin & Hle & Hall). split.
  - apply elem_of_cons. destruct Hin as [Hin|Hin]; [left | right]; exact Hin.
  - constructor; assumption.
Qed.

(** *** [Dedup] gives back memories it was given *)

Lemma applyDecisions_sublist (decisions : list DedupDecision) :
  forall (i : nat) (group : list ExtractedMemory),
    sublist (applyDecisions i decisions group) group.
Proof.
  induction decisions as [|dec decisions IH]; intros i group; simpl.
  - apply sublist_nil_l.
  - destruct group as [|m group]; [constructor|].
    specialize (IH (S i) group).
    destruct dec; try (constructor; exact IH); try (apply sublist_cons; exact IH).
    destruct (i =? 0)%nat; [constructor | apply sublist_cons]; exact IH.
Qed.

Lemma singleton_sublist (m : ExtractedMemory) (l : list ExtractedMemory) :
  m ∈ l -> sublist [m] l.
Proof.
  intros H. apply list_elem_of_split in H as (l1 & l2 & ->).
  apply sublist_inserts_l. constructor. apply sublist_nil_l.
Qed.

Lemma groupResult_sublist (d : MemoryDeduper) (i : nat) (group : list ExtractedMemory) :
  sublist (groupResult d i group) group.
Proof.
  unfold groupResult. destruct group as [|m [|m' rest]]; [constructor | reflexivity |].
  destruct (decideMergeOrDelete d i (m :: m' :: rest)) as [decisions|].
  - apply applyDecisions_sublist.
  - pose proof (simpleMerge_loop (m' :: rest) m) as (Hin & _ & _).
    unfold simpleMerge. apply singleton_sublist. apply elem_of_cons.
    destruct Hin as [Hin|Hin]; [left | right]; exact Hin.
Qed.

Lemma groupResults_sublist (d : MemoryDeduper) (groups : list (list ExtractedMemory)) :
  forall i : nat, sublist (groupResults d i groups) (concat groups).
Proof.
  induction groups as [|g groups IH]; intros i; simpl; [constructor|].
  apply sublist_app; [apply groupResult_sublist | apply IH].
Qed.

(** [Dedup] only selects: its result holds no memory more often than its
    input does, whatever the LLM answers and also when it fails. *)
Theorem Dedup_selects (d : MemoryDeduper) (memories : list ExtractedMemory) :
  Dedup d memories ⊆+ memories.
Proof.
  unfold Dedup. destruct (length memories <=? 1)%nat; [reflexivity|].
  destruct (groupSimilar_partition_from d memories [] []) as (P & _ & _);
    [constructor | constructor |].
  simpl in P. fold (groupSimilar d memories) in P.
  transitivity (concat (groupSimilar d memories)).
  - apply sublist_submseteq, groupResults_sublist.
  - apply Permutation_submseteq. exact P.
Qed.

(** *** A second run *)

Section Stable.
Variable d : MemoryDeduper.

Lemma pairwiseDistinct_before (pre : list ExtractedMemory) (m : ExtractedMemory)
  (post : list ExtractedMemory) :
  pairwiseDistinct d (pre ++ m :: post) ->
  Forall (fun x => similar d (Content m) (Content x) = false) pre.
Proof.
  induction pre as [|x pre IH]; simpl; intros H; [constructor|].
  destruct H as [Hx Hrest]. constructor; [|apply IH, Hrest].
  rewrite Forall_forall in Hx. apply Hx. apply elem_of_app. right.
  apply elem_of_cons. left. reflexivity.
Qed.

Lemma placeInGroups_singletons (pre : list ExtractedMemory) (m : ExtractedMemory) :
  Forall (fun x => similar d (Content m) (Content x) = false) pre ->
  placeInGroups d (map (fun x => [x]) pre) m = (map (fun x => [x]) pre, false).
Proof.
  induction pre as [|x pre IH]; simpl; intros H; [reflexivity|].
  inversion H as [|? ? Hx Hpre]; subst. rewrite Hx, (IH Hpre). reflexivity.
Qed.

Lemma groupSimilar_distinct_from (l : list ExtractedMemory) :
  forall pre : list ExtractedMemory,
    pairwiseDistinct d (pre ++ l) ->
    fold_left
      (fun groups m =>
         let '(groups', added) := placeInGroups d groups m in
         if added then groups' else groups' ++ [[m]])
      l (map (fun x => [x]) pre)
    = map (fun x => [x]) (pre ++ l).
Proof.
  induction l as [|m l IH]; intros pre H; simpl.
  - rewrite app_nil_r. reflexivity.
  - rewrite (placeInGroups_singletons pre m (pairwiseDistinct_before pre m l H)).
    replace (map (fun x => [x]) pre ++ [[m]]) with (map (fun x => [x]) (pre ++ [m]))
      by (rewrite List.map_app; reflexivity).
    rewrite IH by (rewrite <- app_assoc; exact H).
    rewrite <- app_assoc. reflexivity.
Qed.

Lemma groupResults_singletons (l : list ExtractedMemory) :
  forall i : nat, groupResults d i (map (fun x => [x]) l) = l.
Proof.
  induction l as [|m l IH]; intros i; simpl; [reflexivity|].
  rewrite IH. reflexivity.
Qed.

Lemma Dedup_distinct (memories : list ExtractedMemory) :
  neverFails d -> pairwiseDistinct d (Dedup d memories).
Proof.
  intros Hok. unfold Dedup. destruct (Nat.leb_spec (length memories) 1) as [Hle|Hgt].
  - destruct memories as [|m [|m' rest]]; simpl in *; try lia.
    split; [constructor | exact I].
  - destruct (groupSimilar_spec d memories) as (_ & Hp & _).
    eapply pairwiseDistinct_sublist; [|exact Hp].
    apply groupResults_leaders. exact Hok.
Qed.

(** On memories none of which is similar to an earlier one, [Dedup] changes
    nothing and asks the LLM nothing. *)
Theorem Dedup_fixpoint (memories : list ExtractedMemory) :
  pairwiseDistinct d memories -> Dedup d memories = memories.
Proof.
  intros H. unfold Dedup. destruct (length memories <=? 1)%nat; [reflexivity|].
  pose proof (groupSimilar_distinct_from memories [] H) as E. simpl in E.
  unfold groupSimilar. rewrite E. apply groupResults_singletons.
Qed.

(** When no LLM call fails, running [Dedup] on its own result changes
    nothing. *)
Theorem Dedup_idempotent (memories : list ExtractedMemory) :
  neverFails d -> Dedup d (Dedup d memories) = Dedup d memories.
Proof.
  intros Hok. pose proof (Dedup_distinct memories Hok) as H.
  unfold Dedup at 1. destruct (length (Dedup d memories) <=? 1)%nat; [reflexivity|].
  pose proof (groupSimilar_distinct_from (Dedup d memories) [] H) as E. simpl in E.
  unfold groupSimilar. rewrite E. apply groupResults_singletons.
Qed.

End Stable.

Lemma Dedup_fixpoint_witness : Dedup failingDeduper [memP; memQ] = [memP; memQ].
Proof.
  apply (Dedup_fixpoint failingDeduper [memP; memQ]). simpl.
  split; [constructor; [vm_compute; reflexivity | constructor]|].
  split; [constructor | exact I].
Defined.

Lemma Dedup_idempotent_witness :
  Dedup mergingDeduper (Dedup mergingDeduper [memX; memA; memB])
  = Dedup mergingDeduper [memX; memA; memB].
Proof.
  apply (Dedup_idempotent mergingDeduper [memX; memA; memB]).
  exact mergingDeduper_neverFails.
Defined.

(** *** The similarity measure *)

Lemma countWords_dom (words : list string) :
  dom (countWords words) = list_to_set words.
Proof.
  unfold countWords.
  assert (H : forall m : gmap string Z,
            dom (fold_left
                   (fun (m : gmap string Z) w =>
                      <[w := GoInt.add (default 0 (m !! w)) 1]> m) words m)
            = dom m ∪ list_to_set words).
  { induction words as [|w ws IH]; intros m; simpl.
    - rewrite (right_id_L ∅ (∪)). reflexivity.
    - rewrite IH, dom_insert_L, (comm_L (∪) {[ w ]} (dom m)), <- (assoc_L (∪)).
      reflexivity. }
  rewrite H, dom_empty_L, (left_id_L ∅ (∪)). reflexivity.
Qed.

Lemma countWords_size_pos (w : string) (ws : list string) :
  (0 < size (countWords (w :: ws)))%nat.
Proof.
  rewrite <- size_dom, countWords_dom.
  destruct (size (list_to_set (w :: ws) : gset string)) eqn:E; [|lia].
  apply size_empty_inv in E. exfalso.
  apply (not_elem_of_empty (C := gset string) w). rewrite <- E.
  apply elem_of_list_to_set, elem_of_cons. left. reflexivity.
Qed.

Lemma ratio_range (c t : Z) :
  0 <= c <= t -> t <> 0 ->
  (0 <= inject_Z c / inject_Z t)%Q /\ (inject_Z c / inject_Z t <= 1)%Q.
Proof.
  intros Hc Ht. destruct t as [|p|p]; [congruence| |lia].
  unfold Qdiv, Qinv, Qmult, Qle, inject_Z. simpl. split; lia.
Qed.

(** The similarity is a number between 0 and 1 and does not depend on the
    order of its arguments. A text with at least one word has similarity 1
    with itself; a text without words has similarity 0 with every text,
    itself included. *)
Theorem calculateSimilarity_range (a b : string) :
  (0 <= calculateSimilarity a b)%Q
  /\ (calculateSimilarity a b <= 1)%Q
  /\ calculateSimilarity a b = calculateSimilarity b a
  /\ (wordsOf a <> [] -> (calculateSimilarity a a == 1)%Q)
  /\ (wordsOf a = [] -> calculateSimilarity a b = 0%Q).
Proof.
  assert (Hrange : forall x y : string,
            (0 <= calculateSimilarity x y)%Q /\ (calculateSimilarity x y <= 1)%Q).
  { intros x y. unfold calculateSimilarity.
    destruct (GoStrings.Fields (GoStrings.ToLower x)) as [|wa la];
      [split; discriminate|].
    destruct (GoStrings.Fields (GoStrings.ToLower y)) as [|wb lb];
      [split; discriminate|].
    set (A := countWords (wa :: la)). set (B := countWords (wb :: lb)).
    set (common := size (filter (fun w => w ∈ dom B) (dom A))).
    assert (HA : (common <= size A)%nat).
    { rewrite <- (size_dom (D := gset string) A). apply subseteq_size.
      intros w Hw. apply elem_of_filter in Hw as [_ Hw]. exact Hw. }
    assert (HB : (common <= size B)%nat).
    { rewrite <- (size_dom (D := gset string) B). apply subseteq_size.
      intros w Hw. apply elem_of_filter in Hw as [Hw _]. exact Hw. }
    destruct (Z.eqb_spec (Z.of_nat (size A) + Z.of_nat (size B) - Z.of_nat common) 0)
      as [E|E]; [split; discriminate|].
    apply ratio_range; [lia | exact E]. }
  destruct (Hrange a b) as [H0 H1]. split; [exact H0|]. split; [exact H1|].
  split; [apply calculateSimilarity_sym|]. split.
  - unfold wordsOf, calculateSimilarity.
    destruct (GoStrings.Fields (GoStrings.ToLower a)) as [|wa la]; [congruence|].
    intros _. set (A := countWords (wa :: la)).
    assert (Hc : filter (fun w => w ∈ dom A) (dom A) = dom A).
    { apply set_eq. intros w. rewrite elem_of_filter. tauto. }
    rewrite Hc, (size_dom (D := gset string) A).
    pose proof (countWords_size_pos wa la) as Hpos. fold A in Hpos.
    replace (Z.of_nat (size A) + Z.of_nat (size A) - Z.of_nat (size A))
      with (Z.of_nat (size A)) by lia.
    destruct (Z.eqb_spec (Z.of_nat (size A)) 0) as [E|E]; [lia|].
    apply Qmult_inv_r. unfold Qeq, inject_Z. simpl. lia.
  - unfold wordsOf, calculateSimilarity. intros ->. reflexivity.
Qed.

End DedupExtFacts.

(** ** The context builder *)

Module BuilderFacts.
Import Core CoreExt Builder TierFacts CoreExtFacts.

Lemma fold_sources {A S : Type} (f : S -> A -> S) (sources : list (list A)) :
  forall init : S,
    fold_left (fun acc source => fold_left f source acc) sources init
    = fold_left f (concat sources) init.
Proof.
  induction sources as [|s ss IH]; intros init; simpl; [reflexivity|].
  rewrite fold_left_app. apply IH.
Qed.

Lemma findInSlice_app (l1 l2 : list Context) (uri : string) :
  findInSlice (l1 ++ l2) uri
  = match findInSlice l1 uri with
    | Some c => Some c
    | None => findInSlice l2 uri
    end.
Proof.
  induction l1 as [|c l1 IH]; simpl; [reflexivity|].
  destruct (String.eqb (URI c) uri); [reflexivity | exact IH].
Qed.

Lemma findInSlice_absent (l : list Context) (uri : string) :
  uri ∉ map URI l -> findInSlice l uri = None.
Proof.
  induction l as [|c l IH]; simpl; intros H; [reflexivity|].
  apply not_elem_of_cons in H as [H1 H2].
  destruct (String.eqb_spec (URI c) uri) as [E|E]; [congruence | apply IH, H2].
Qed.

Lemma elem_of_map_URI (uri : string) (l : list Context) :
  uri ∈ map URI l <-> exists c, c ∈ l /\ URI c = uri.
Proof.
  rewrite list_elem_of_In, in_map_iff. split.
  - intros (c & E & H). exists c. split; [apply list_elem_of_In, H | exact E].
  - intros (c & H & E). exists c. split; [exact E | apply list_elem_of_In, H].
Qed.

Lemma buildStep_inv (done : list Context) (acc : list Context * gset string)
  (c : Context) :
  buildInv done acc -> buildInv (done ++ [c]) (buildStep acc c).
Proof.
  destruct acc as [result seen]. unfold buildInv. simpl.
  intros (Hseen & Hnd & Hsub & Hfind & Hcov).
  assert (Hset : list_to_set (map URI (done ++ [c])) = seen ∪ ({[ URI c ]} : gset string)).
  { rewrite List.map_app, list_to_set_app_L, <- Hseen. simpl.
    rewrite (right_id_L ∅ (∪)). reflexivity. }
  destruct (bool_decide (URI c ∈ seen)) eqn:Hin; simpl.
  - apply bool_decide_eq_true in Hin. split; [|split; [|split; [|split]]].
    + rewrite Hset. apply set_eq. intros x.
      rewrite elem_of_union, elem_of_singleton. split; [tauto|].
      intros [H | ->]; assumption.
    + exact Hnd.
    + apply sublist_inserts_r. exact Hsub.
    + intros c' Hc'. rewrite findInSlice_app, (Hfind c' Hc'). reflexivity.
    + intros c' Hc'. apply elem_of_app in Hc' as [Hc'|Hc']; [apply Hcov, Hc'|].
      apply list_elem_of_singleton in Hc'. subst c'.
      rewrite Hseen in Hin. apply elem_of_list_to_set in Hin.
      apply elem_of_map_URI in Hin as (c0 & H0 & E0). rewrite <- E0. apply Hcov, H0.
  - apply bool_decide_eq_false in Hin.
    assert (Hnew : URI c ∉ map URI done).
    { intros H. apply Hin. rewrite Hseen. apply elem_of_list_to_set. exact H. }
    split; [symmetry; exact Hset|]. split; [|split; [|split]].
    + rewrite List.map_app. simpl. apply NoDup_app. split; [exact Hnd|].
      split; [|apply NoDup_singleton].
      intros u Hu Hu'. apply list_elem_of_singleton in Hu'. subst u.
      apply Hnew. apply elem_of_map_URI in Hu as (c0 & H0 & E0).
      apply elem_of_map_URI. exists c0. split; [|exact E0].
      eapply elem_of_sublist; [exact H0 | exact Hsub].
    + apply sublist_app; [exact Hsub | reflexivity].
    + intros c' Hc'. rewrite findInSlice_app.
      apply elem_of_app in Hc' as [Hc'|Hc'].
      * rewrite (Hfind c' Hc'). reflexivity.
      * apply list_elem_of_singleton in Hc'. subst c'.
        rewrite (findInSlice_absent done (URI c) Hnew). simpl.
        rewrite String.eqb_refl. reflexivity.
    + intros c' Hc'. rewrite List.map_app. apply elem_of_app.
      apply elem_of_app in Hc' as [Hc'|Hc']; [left; apply Hcov, Hc'|].
      apply list_elem_of_singleton in Hc'. subst c'. right. simpl.
      apply elem_of_cons. left. reflexivity.
Qed.

Lemma buildLoop_inv (l : list Context) :
  forall (done : list Context) (acc : list Context * gset string),
    buildInv done acc -> buildInv (done ++ l) (fold_left buildStep l acc).
Proof.
  induction l as [|c l IH]; intros done acc H; simpl.
  - rewrite app_nil_r. exact H.
  - replace (done ++ c :: l) with ((done ++ [c]) ++ l) by (rewrite <- app_assoc; reflexivity).
    apply IH, buildStep_inv, H.
Qed.

Lemma Build_inv (b : ContextBuilder) :
  buildInv (concat b) (fold_left buildStep (concat b) ([], ∅)).
Proof.
  apply (buildLoop_inv (concat b) [] ([], ∅)). unfold buildInv. simpl.
  split; [reflexivity|]. split; [constructor|]. split; [constructor|].
  split; intros c H; inversion H.
Qed.

(** [Build] merges the sources without repeating a URI: the result holds no
    URI twice, lists contexts of the sources in the order of the sources,
    holds for every URI of a source the first context that carries it, and
    leaves no URI of a source out. *)
Theorem Build_spec (b : ContextBuilder) :
  NoDup (map URI (Build b))
  /\ sublist (Build b) (concat b)
  /\ (forall c, c ∈ Build b -> findInSlice (concat b) (URI c) = Some c)
  /\ (forall c, c ∈ concat b -> URI c ∈ map URI (Build b)).
Proof.
  unfold Build. rewrite fold_sources.
  destruct (Build_inv b) as (_ & H1 & H2 & H3 & H4).
  split; [exact H1|]. split; [exact H2|]. split; [exact H3 | exact H4].
Qed.

(** *** [BuildTiered] *)

Lemma GetAll_Add (tc : TieredContext) (c : Context) :
  GetAll (Add tc c) ≡ₚ GetAll tc ++ [c].
Proof.
  unfold Add, GetAll.
  assert (Hmid : forall l1 l2 : list Context, (l1 ++ [c]) ++ l2 ≡ₚ (l1 ++ l2) ++ [c]).
  { intros l1 l2. rewrite <- !app_assoc. f_equiv. simpl. apply Permutation_cons_append. }
  destruct (Tier c =? TierL0); [|destruct (Tier c =? TierL1);
                                   [|destruct (Tier c =? TierL2)]]; simpl.
  - apply Hmid.
  - rewrite <- (app_assoc (L0 tc) (L1 tc ++ L2 tc)). f_equiv. apply Hmid.
  - rewrite !app_assoc. reflexivity.
  - rewrite <- (app_assoc (L0 tc) (L1 tc ++ L2 tc)). f_equiv. apply Hmid.
Qed.

Lemma tieredLoop_build (l : list Context) :
  forall (tc : TieredContext) (result : list Context) (seen : gset string),
    GetAll tc ≡ₚ result ->
    GetAll (fst (fold_left tieredStep l (tc, seen)))
    ≡ₚ fst (fold_left buildStep l (result, seen)).
Proof.
  induction l as [|c l IH]; intros tc result seen H; simpl; [exact H|].
  destruct (bool_decide (URI c ∈ seen)); [apply IH, H|].
  apply IH. rewrite GetAll_Add, H. reflexivity.
Qed.

Lemma countURI_perm (uri : string) (l l' : list Context) :
  l ≡ₚ l' -> countURI uri l = countURI uri l'.
Proof.
  unfold countURI. induction 1 as [|x l l' _ IH|x y l|l l' l'' _ IH1 _ IH2]; simpl.
  - reflexivity.
  - destruct (hasURI uri x); simpl; lia.
  - destruct (hasURI uri x), (hasURI uri y); reflexivity.
  - lia.
Qed.

Lemma countURI_NoDup (uri : string) (l : list Context) :
  NoDup (map URI l) -> (countURI uri l <= 1)%nat.
Proof.
  induction l as [|c l IH]; simpl; intros H; [unfold countURI; simpl; lia|].
  apply NoDup_cons in H as [Hc Hl]. specialize (IH Hl).
  unfold countURI, hasURI in *. simpl.
  destruct (String.eqb_spec (URI c) uri) as [E|E]; [|exact IH]. subst uri.
  pose proof (findInSlice_absent l (URI c) Hc) as Hf.
  apply findInSlice_none_count in Hf. unfold countURI, hasURI in Hf. simpl. lia.
Qed.

(** [BuildTiered] stores the contexts that [Build] returns, each in a tier;
    so the store holds no URI twice, and [MoveToTier] returns [false] for
    every URI and tier on it. *)
Theorem BuildTiered_spec (b : ContextBuilder) :
  GetAll (BuildTiered b) ≡ₚ Build b
  /\ forall (uri : string) (tier : ContextTier),
       (occurrences (BuildTiered b) uri <= 1)%nat
       /\ snd (MoveToTier (BuildTiered b) uri tier) = false.
Proof.
  assert (Hp : GetAll (BuildTiered b) ≡ₚ Build b).
  { unfold BuildTiered, Build. rewrite !fold_sources.
    apply tieredLoop_build. reflexivity. }
  split; [exact Hp|]. intros uri tier.
  assert (Ho : (occurrences (BuildTiered b) uri <= 1)%nat).
  { unfold occurrences. rewrite (countURI_perm uri _ _ Hp).
    apply countURI_NoDup. unfold Build. rewrite fold_sources.
    destruct (Build_inv b) as (_ & H1 & _). exact H1. }
  split; [exact Ho | apply MoveToTier_false_at_most_once, Ho].
Qed.

(** *** [sortByPriority] *)

Ltac compare_cases :=
  unfold notAfter, compareTieredItem in *;
  repeat match goal with
         | H : context [Z.eqb ?x ?y] |- _ => destruct (Z.eqb_spec x y); simpl in H
         | H : context [Z.ltb ?x ?y] |- _ => destruct (Z.ltb_spec x y); simpl in H
         | H : context [Z.gtb ?x ?y] |- _ => destruct (Z.gtb_spec x y); simpl in H
         | |- context [Z.eqb ?x ?y] => destruct (Z.eqb_spec x y); simpl
         | |- context [Z.ltb ?x ?y] => destruct (Z.ltb_spec x y); simpl
         | |- context [Z.gtb ?x ?y] => destruct (Z.gtb_spec x y); simpl
         end;
  try lia.

Lemma compare_total (a b : tieredItem) :
  compareTieredItem a b > 0 -> notAfter b a.
Proof. intros H. compare_cases. Qed.

Lemma notAfter_trans (a b c : tieredItem) :
  notAfter a b -> notAfter b c -> notAfter a c.
Proof. intros H1 H2. compare_cases. Qed.

Lemma insert_perm {A : Type} (l : list A) :
  forall (j : nat) (x y : A), l !! j = Some y -> y :: <[j := x]> l ≡ₚ x :: l.
Proof.
  induction l as [|z l IH]; intros [|j] x y H; simpl in *; try discriminate.
  - inversion H; subst. apply Permutation_swap.
  - rewrite (Permutation_swap z y), (IH j x y H). apply Permutation_swap.
Qed.

Lemma swap_perm {A : Type} (l : list A) :
  forall (i j : nat) (a b : A),
    l !! i = Some a -> l !! j = Some b -> <[j := a]> (<[i := b]> l) ≡ₚ l.
Proof.
  induction l as [|z l IH]; intros [|i] [|j] a b Hi Hj; simpl in *; try discriminate.
  - inversion Hi; inversion Hj; subst. reflexivity.
  - inversion Hi; subst. apply insert_perm. exact Hj.
  - inversion Hj; subst. apply insert_perm. exact Hi.
  - f_equiv. apply (IH i j a b Hi Hj).
Qed.

Lemma exchange_perm (i : nat) (items : list tieredItem) (j : nat) :
  exchange i items j ≡ₚ items.
Proof.
  unfold exchange. destruct (items !! i) as [a|] eqn:Hi; [|reflexivity].
  destruct (items !! j) as [b|] eqn:Hj; [|reflexivity].
  destruct (compareTieredItem a b >? 0); [|reflexivity].
  apply swap_perm; assumption.
Qed.

Lemma fold_perm {A B : Type} (f : list A -> B -> list A) (l : list B) :
  (forall x b, f x b ≡ₚ x) -> forall x, fold_left f l x ≡ₚ x.
Proof.
  intros Hf. induction l as [|b l IH]; intros x; simpl; [reflexivity|].
  rewrite IH. apply Hf.
Qed.

Lemma sortPass_perm (items : list tieredItem) (i : nat) : sortPass items i ≡ₚ items.
Proof. unfold sortPass. apply fold_perm. intros x j. apply exchange_perm. Qed.

Lemma sortByPriority_perm (items : list tieredItem) : sortByPriority items ≡ₚ items.
Proof. unfold sortByPriority. apply fold_perm. intros x i. apply sortPass_perm. Qed.

Lemma exchange_inv (items0 items : list tieredItem) (i k : nat) :
  (i < k)%nat -> (k < length items0)%nat ->
  passInv items0 i k items -> passInv items0 i (S k) (exchange i items k).
Proof.
  intros Hik Hk (Hlen & Hlow & Hmin & Hfrom). unfold exchange.
  destruct (items !! i) as [a|] eqn:Hi.
  2:{ apply lookup_ge_None in Hi. lia. }
  destruct (items !! k) as [b|] eqn:Hb.
  2:{ apply lookup_ge_None in Hb. lia. }
  destruct (Z.gtb_spec (compareTieredItem a b) 0) as [Hgt|Hle].
  - assert (Hba : notAfter b a) by (apply compare_total; lia).
    assert (Li : <[k := a]> (<[i := b]> items) !! i = Some b).
    { rewrite list_lookup_insert_ne by lia. apply list_lookup_insert_eq. lia. }
    assert (Lk : <[k := a]> (<[i := b]> items) !! k = Some a).
    { apply list_lookup_insert_eq. rewrite length_insert. lia. }
    assert (Lo : forall m, m <> i -> m <> k ->
                 <[k := a]> (<[i := b]> items) !! m = items !! m).
    { intros m H1 H2. rewrite !list_lookup_insert_ne by lia. reflexivity. }
    split; [rewrite !length_insert; exact Hlen|]. split; [|split].
    + intros m Hm. rewrite Lo by lia. apply Hlow, Hm.
    + intros m a' b' Hm Ha' Hb'. rewrite Li in Ha'. inversion Ha'; subst a'.
      destruct (decide (m = k)) as [->|Hne].
      * rewrite Lk in Hb'. inversion Hb'; subst b'. exact Hba.
      * rewrite Lo in Hb' by lia.
        apply (notAfter_trans b a b' Hba). apply (Hmin m a b'); [lia | reflexivity | exact Hb'].
    + intros m x Hm Hx.
      destruct (decide (m = i)) as [->|Hni].
      * rewrite Li in Hx. inversion Hx; subst x. apply (Hfrom k b); [lia | exact Hb].
      * destruct (decide (m = k)) as [->|Hnk].
        -- rewrite Lk in Hx. inversion Hx; subst x. apply (Hfrom i a); [lia | exact Hi].
        -- rewrite Lo in Hx by assumption. apply (Hfrom m x Hm Hx).
  - split; [exact Hlen|]. split; [exact Hlow|]. split; [|exact Hfrom].
    intros m a' b' Hm Ha' Hb'. rewrite Hi in Ha'. inversion Ha'; subst a'.
    destruct (decide (m = k)) as [->|Hne].
    + rewrite Hb in Hb'. inversion Hb'; subst b'. unfold notAfter. lia.
    + apply (Hmin m a b'); [lia | reflexivity | exact Hb'].
Qed.

Lemma passLoop_inv (items0 : list tieredItem) (i : nat) (len : nat) :
  forall (k : nat) (items : list tieredItem),
    (i < k)%nat -> (k + len <= length items0)%nat ->
    passInv items0 i k items ->
    passInv items0 i (k + len) (fold_left (exchange i) (seq k len) items).
Proof.
  induction len as [|len IH]; intros k items Hik Hk H; simpl.
  - rewrite Nat.add_0_r. exact H.
  - replace (k + S len)%nat with (S k + len)%nat by lia.
    apply IH; [lia | lia |]. apply exchange_inv; [exact Hik | lia | exact H].
Qed.

Lemma sortPass_inv (items : list tieredItem) (i : nat) :
  (S i < length items)%nat -> sortedBelow i items ->
  length (sortPass items i) = length items /\ sortedBelow (S i) (sortPass items i).
Proof.
  intros Hi Hsorted. unfold sortPass.
  destruct (passLoop_inv items i (length items - S i) (S i) items)
    as (Hlen & Hlow & Hmin & Hfrom); [lia | lia | |].
  { split; [reflexivity|]. split; [reflexivity|]. split.
    - intros m a b Hm. lia.
    - intros m x Hm Hx. exists m. split; assumption. }
  replace (S i + (length items - S i))%nat with (length items) in * by lia.
  split; [exact Hlen|].
  intros p q a b Hp Hpq Ha Hb.
  assert (Hq : (q < length items)%nat).
  { rewrite <- Hlen. eapply lookup_lt_Some. exact Hb. }
  destruct (decide (p = i)) as [->|Hne].
  - apply (Hmin q a b); [lia | exact Ha | exact Hb].
  - rewrite Hlow in Ha by lia.
    destruct (decide (q < i)%nat) as [Hqi|Hqi].
    + rewrite Hlow in Hb by lia. apply (Hsorted p q a b); [lia | lia | exact Ha | exact Hb].
    + destruct (Hfrom q b ltac:(lia) Hb) as (m' & Hm' & Hb').
      apply (Hsorted p m' a b); [lia | lia | exact Ha | exact Hb'].
Qed.

Lemma sortLoop_inv (n : nat) (len : nat) :
  forall (i : nat) (items : list tieredItem),
    length items = n -> (i + len < n)%nat \/ len = 0%nat -> sortedBelow i items ->
    length (fold_left sortPass (seq i len) items) = n
    /\ sortedBelow (i + len) (fold_left sortPass (seq i len) items).
Proof.
  induction len as [|len IH]; intros i items Hn Hlen Hsorted; simpl.
  - rewrite Nat.add_0_r. split; assumption.
  - destruct (sortPass_inv items i) as [Hl Hs]; [lia | exact Hsorted|].
    replace (i + S len)%nat with (S i + len)%nat by lia.
    apply IH; [lia | lia | exact Hs].
Qed.

Lemma sortByPriority_order (items : list tieredItem) :
  inPriorityOrder (sortByPriority items).
Proof.
  unfold sortByPriority.
  destruct (sortLoop_inv (length items) (length items - 1) 0 items) as [Hlen Hsorted].
  - reflexivity.
  - destruct (length items) as [|[|n]]; [right | right | left]; simpl; lia.
  - intros p q a b Hp. lia.
  - intros i j a b Hij Ha Hb. simpl in Hsorted.
    assert (Hj : (j < length items)%nat).
    { rewrite <- Hlen. eapply lookup_lt_Some. exact Hb. }
    apply (Hsorted i j a b); [lia | exact Hij | exact Ha | exact Hb].
Qed.

(** [sortByPriority] rearranges the items so that each item is not after
    any later one: lower tiers first, within a tier the more active first,
    and then by order. *)
Theorem sortByPriority_sorts (items : list tieredItem) :
  sortByPriority items ≡ₚ items
  /\ inPriorityOrder (sortByPriority items)
  /\ forall a b : tieredItem,
       notAfter a b <->
       tier a < tier b
       \/ (tier a = tier b
           /\ (ActiveCount (ctx a) > ActiveCount (ctx b)
               \/ (ActiveCount (ctx a) = ActiveCount (ctx b) /\ order a <= order b))).
Proof.
  split; [apply sortByPriority_perm|]. split; [apply sortByPriority_order|].
  intros a b. split; intros H; compare_cases.
Qed.


(** *** [BuildWithPrioritization] *)

Lemma collectLoop_build (ics : list (nat * Context)) :
  forall (items : list tieredItem) (seen : gset string),
    fold_left buildStep (map snd ics) (map ctx items, seen)
    = (map ctx (fst (fold_left collectStep ics (items, seen))),
       snd (fold_left collectStep ics (items, seen)))
    /\ (Forall (fun it => tier it = Tier (ctx it)) items ->
        Forall (fun it => tier it = Tier (ctx it))
          (fst (fold_left collectStep ics (items, seen)))).
Proof.
  induction ics as [|[i c] ics IH]; intros items seen; simpl.
  - split; [reflexivity | tauto].
  - destruct (bool_decide (URI c ∈ seen)); [apply IH|].
    destruct (IH (items ++ [mkItem c (Tier c) (Z.of_nat i)]) (seen ∪ {[ URI c ]}))
      as [E F].
    rewrite List.map_app in E. simpl in E. split; [exact E|].
    intros H. apply F. apply Forall_app. split; [exact H|].
    constructor; [reflexivity | constructor].
Qed.

Lemma indexed_snd (source : list Context) : map snd (indexed source) = source.
Proof.
  unfold indexed. generalize 0%nat.
  induction source as [|c l IH]; intros n; simpl; [reflexivity|].
  rewrite IH. reflexivity.
Qed.

Lemma collect_build (b : ContextBuilder) :
  forall (items : list tieredItem) (seen : gset string),
    Forall (fun it => tier it = Tier (ctx it)) items ->
    let st := fold_left (fun acc source => fold_left collectStep (indexed source) acc)
                b (items, seen) in
    map ctx (fst st)
    = fst (fold_left (fun acc source => fold_left buildStep source acc) b
             (map ctx items, seen))
    /\ Forall (fun it => tier it = Tier (ctx it)) (fst st).
Proof.
  induction b as [|source b IH]; intros items seen H; simpl.
  - split; [reflexivity | exact H].
  - destruct (collectLoop_build (indexed source) items seen) as [E F].
    rewrite indexed_snd in E. rewrite E.
    destruct (fold_left collectStep (indexed source) (items, seen)) as [items1 seen1].
    simpl in *. apply IH, F, H.
Qed.

Lemma collectItems_Build (b : ContextBuilder) :
  map ctx (collectItems b) = Build b
  /\ Forall (fun it => tier it = Tier (ctx it)) (collectItems b).
Proof. apply (collect_build b [] ∅). constructor. Qed.

Lemma selectLoop_spec (maxTokens : Z) (tokenCounter : TokenCounter)
  (sorted : list tieredItem) :
  forall (result : list Context) (cur : Z),
  exists kept : list tieredItem,
    fst (fold_left (selectStep maxTokens tokenCounter) sorted (result, cur))
    = result ++ map ctx kept
    /\ sublist kept sorted
    /\ (forall it, it ∈ sorted -> tier it = TierL0 -> it ∈ kept).
Proof.
  induction sorted as [|item sorted IH]; intros result cur; simpl.
  - exists []. rewrite app_nil_r. split; [reflexivity|]. split; [constructor|].
    intros it H. inversion H.
  - destruct ((GoInt.add cur (tokenCounter (Abstract (ctx item))) >? maxTokens)
              && negb (tier item =? TierL0)) eqn:Hskip.
    + destruct (IH result cur) as (kept & E & Hs & Hk).
      exists kept. split; [exact E|]. split; [apply sublist_cons, Hs|].
      intros it Hit H0. apply elem_of_cons in Hit as [->|Hit]; [|apply Hk; assumption].
      apply andb_true_iff in Hskip as [_ Hskip]. rewrite H0 in Hskip. discriminate.
    + destruct (IH (result ++ [ctx item])
                  (GoInt.add cur (tokenCounter (Abstract (ctx item)))))
        as (kept & E & Hs & Hk).
      exists (item :: kept). rewrite E, <- app_assoc. split; [reflexivity|].
      split; [constructor; exact Hs|].
      intros it Hit H0. apply elem_of_cons. apply elem_of_cons in Hit as [->|Hit];
        [left; reflexivity | right; apply Hk; assumption].
Qed.

Lemma sublist_map {A B : Type} (f : A -> B) (l k : list A) :
  sublist l k -> sublist (map f l) (map f k).
Proof. induction 1; simpl; constructor; assumption. Qed.

Lemma ordered_of_index (items : list tieredItem) :
  inPriorityOrder items -> ordered items.
Proof.
  induction items as [|a rest IH]; intros H; simpl; [exact I|]. split.
  - apply Forall_forall. intros b Hb. apply list_elem_of_lookup in Hb as [j Hj].
    apply (H 0%nat (S j) a b); [lia | reflexivity | exact Hj].
  - apply IH. intros i j x y Hij Hx Hy.
    apply (H (S i) (S j) x y); [lia | exact Hx | exact Hy].
Qed.

Lemma ordered_sublist (l k : list tieredItem) :
  sublist l k -> ordered k -> ordered l.
Proof.
  induction 1 as [|x l k Hs IH|x l k Hs IH]; simpl; intros H.
  - exact I.
  - destruct H as [Hx Hk]. split; [|apply IH, Hk].
    rewrite Forall_forall in Hx |- *. intros y Hy. apply Hx.
    eapply elem_of_sublist; eassumption.
  - apply IH, H.
Qed.

Lemma notAfter_tier (a b : tieredItem) : notAfter a b -> tier a <= tier b.
Proof. intros H. compare_cases. Qed.

Lemma ordered_tiers (items : list tieredItem) :
  Forall (fun it => tier it = Tier (ctx it)) items ->
  ordered items -> tiersAscend (map ctx items).
Proof.
  induction items as [|a rest IH]; simpl; intros Ht Ho; [exact I|].
  inversion Ht as [|? ? Ha Hrest]; subst. destruct Ho as [Hfa Ho].
  split; [|apply IH; assumption].
  apply Forall_forall. intros c' Hc'. apply list_elem_of_In, in_map_iff in Hc'.
  destruct Hc' as (b & <- & Hb). apply list_elem_of_In in Hb.
  rewrite Forall_forall in Hfa, Hrest.
  rewrite <- Ha, <- (Hrest b Hb). apply notAfter_tier, Hfa, Hb.
Qed.

(** [BuildWithPrioritization] returns contexts that [Build] returns, none
    more often; it returns every L0 context of [Build], whatever the token
    budget; and it lists its contexts by ascending tier. *)
Theorem BuildWithPrioritization_spec (b : ContextBuilder) (maxTokens : Z)
  (tokenCounter : TokenCounter) :
  BuildWithPrioritization b maxTokens tokenCounter ⊆+ Build b
  /\ (forall c, c ∈ Build b -> Tier c = TierL0 ->
        c ∈ BuildWithPrioritization b maxTokens tokenCounter)
  /\ tiersAscend (BuildWithPrioritization b maxTokens tokenCounter).
Proof.
  destruct (collectItems_Build b) as [Hb Htier].
  destruct (sortByPriority_perm (collectItems b), sortByPriority_order (collectItems b))
    as [Hperm Hord].
  unfold BuildWithPrioritization.
  destruct (selectLoop_spec maxTokens tokenCounter (sortByPriority (collectItems b)) [] 0)
    as (kept & E & Hs & Hk).
  rewrite E. simpl. split; [|split].
  - rewrite <- Hb. transitivity (map ctx (sortByPriority (collectItems b))).
    + apply sublist_submseteq, sublist_map, Hs.
    + apply Permutation_submseteq, Permutation_map, Hperm.
  - intros c Hc H0. rewrite <- Hb in Hc. apply list_elem_of_In, in_map_iff in Hc.
    destruct Hc as (it & <- & Hit). apply list_elem_of_In in Hit.
    apply list_elem_of_In, in_map. apply list_elem_of_In. apply Hk.
    + rewrite Hperm. exact Hit.
    + rewrite Forall_forall in Htier. rewrite (Htier it Hit). exact H0.
  - apply ordered_tiers.
    + rewrite Forall_forall in Htier |- *. intros it Hit. apply Htier.
      rewrite <- Hperm. eapply elem_of_sublist; eassumption.
    + eapply ordered_sublist; [exact Hs|]. apply ordered_of_index, Hord.
Qed.

End BuilderFacts.

(** ** The session compressor *)

Module CompressorFacts.
Import Dedup DedupFacts DedupExtFacts Compressor.

Lemma Dedup_within (d : MemoryDeduper) (memories : list ExtractedMemory) :
  Dedup d memories ⊆+ memories.
Proof.
  unfold Dedup. destruct (length memories <=? 1)%nat; [reflexivity|].
  destruct (groupSimilar_partition_from d memories [] []) as (P & _ & _);
    [constructor | constructor |].
  simpl in P. fold (groupSimilar d memories) in P.
  transitivity (concat (groupSimilar d memories)).
  - apply sublist_submseteq, groupResults_sublist.
  - apply Permutation_submseteq. exact P.
Qed.

Lemma extractStep_accounts (c : SessionCompressor) (olderMsgs : list Msg)
  (extracted removed : Z) (memories : list ExtractedMemory) :
  extractStep c olderMsgs = Some (extracted, removed, memories) ->
  extracted = removed + Z.of_nat (length memories)
  /\ 0 <= removed
  /\ ((extracted = 0 /\ memories = [])
      \/ exists extract found,
           extractor c = Some extract /\ extract olderMsgs = Some found
           /\ extracted = Z.of_nat (length found) /\ memories ⊆+ found).
Proof.
  unfold extractStep.
  destruct (AutoExtract (config c));
    [|intros H; inversion H; subst; simpl;
      split; [reflexivity|]; split; [lia|]; left; split; reflexivity].
  destruct (extractor c) as [extract|];
    [|intros H; inversion H; subst; simpl;
      split; [reflexivity|]; split; [lia|]; left; split; reflexivity].
  destruct (extract olderMsgs) as [found|] eqn:E; [|discriminate].
  assert (Hplain : Some (Z.of_nat (length found), 0, found)
                   = Some (extracted, removed, memories) ->
                   extracted = removed + Z.of_nat (length memories)
                   /\ 0 <= removed
                   /\ ((extracted = 0 /\ memories = [])
                       \/ exists extract0 found0,
                            Some extract = Some extract0
                            /\ extract0 olderMsgs = Some found0
                            /\ extracted = Z.of_nat (length found0)
                            /\ memories ⊆+ found0)).
  { intros H. inversion H; subst. split; [lia|]. split; [lia|]. right.
    exists extract, memories. repeat split; [exact E | reflexivity]. }
  destruct (AutoDedup (config c)); [|exact Hplain].
  destruct (deduper c) as [d|]; [|exact Hplain].
  destruct (1 <? Z.of_nat (length found)); [|exact Hplain].
  intros H. inversion H; subst.
  pose proof (Dedup_within d found) as Hsub.
  pose proof (submseteq_length _ _ Hsub) as Hlen.
  split; [lia|]. split; [lia|]. right.
  exists extract, found. repeat split; [exact E | exact Hsub].
Qed.

(** [Compress] panics exactly when [KeepRecent] is negative. When it returns
    a result, the result counts the messages before the last [KeepRecent]
    ones as compressed; the memories it reports as extracted are the ones it
    hands back plus the ones it reports as removed, a number that is never
    negative; and the memories it hands back are among those the extractor
    found. *)
Theorem Compress_accounts (c : SessionCompressor) (messages : list Msg) :
  match Compress c messages with
  | Done r =>
      0 <= KeepRecent (config c)
      /\ MessagesCompressed r
         = Z.max 0 (Z.of_nat (length messages) - KeepRecent (config c))
      /\ MemoriesExtracted r = MemoriesRemoved r + Z.of_nat (length (ExtractedMemories r))
      /\ 0 <= MemoriesRemoved r
      /\ ((MemoriesExtracted r = 0 /\ ExtractedMemories r = [])
          \/ exists extract found,
               extractor c = Some extract
               /\ extract (take (Z.to_nat (Z.of_nat (length messages)
                                           - KeepRecent (config c))) messages)
                  = Some found
               /\ MemoriesExtracted r = Z.of_nat (length found)
               /\ ExtractedMemories r ⊆+ found)
  | Failed _ => 0 <= KeepRecent (config c) < Z.of_nat (length messages)
  | Panics => KeepRecent (config c) < 0
  end.
Proof.
  unfold Compress.
  destruct (Z.leb_spec (Z.of_nat (length messages)) (KeepRecent (config c))) as [Hle|Hgt].
  { simpl. split; [lia|]. split; [lia|]. split; [reflexivity|]. split; [lia|].
    left. split; reflexivity. }
  destruct (Z.gtb_spec (KeepRecent (config c)) (Z.of_nat (length messages))); [lia|].
  destruct (Z.ltb_spec (Z.of_nat (length messages) - KeepRecent (config c)) 0); [lia|].
  destruct (Z.gtb_spec (Z.of_nat (length messages) - KeepRecent (config c))
              (Z.of_nat (length messages))) as [Hneg|Hok]; simpl; [lia|].
  destruct (extractStep c _) as [[[extracted removed] memories]|] eqn:E; [|lia].
  destruct (summarizeStep c _) as [[summary tokensSaved]|]; [|lia].
  destruct (extractStep_accounts c _ extracted removed memories E) as (H1 & H2 & H3).
  simpl. split; [lia|]. split; [rewrite length_take; lia|].
  split; [exact H1|]. split; [exact H2 | exact H3].
Qed.

End CompressorFacts.

(** ** Truncating a text *)

Module TruncateFacts.
Import Core GoInt GoIntFacts Truncate.

Section Search.
Variable tokenCounter : TokenCounter.
Variable maxTokens : Z.
Variable words : list string.
Hypothesis Hsmall : 2 * Z.of_nat (length words) < max_int.

Lemma search_spec (fuel : nat) :
  forall low high : Z,
    0 <= low <= high -> high <= Z.of_nat (length words) ->
    high - low <= Z.of_nat fuel ->
    (low = 0 \/ fits tokenCounter maxTokens words low = true) ->
    (monotoneOn tokenCounter words ->
     forall j : nat, high < Z.of_nat j <= Z.of_nat (length words) ->
                     maxTokens < tokenCounter (Join (take j words) " ")) ->
    exists k : nat,
      search tokenCounter maxTokens words fuel low high = Some (Z.of_nat k)
      /\ (k <= length words)%nat
      /\ (k = 0%nat \/ tokenCounter (Join (take k words) " ") <= maxTokens)
      /\ (monotoneOn tokenCounter words ->
          forall j : nat, (k < j <= length words)%nat ->
                          maxTokens < tokenCounter (Join (take j words) " ")).
Proof.
  induction fuel as [|fuel IH]; intros low high Hlh Hhigh Hfuel Hlow Hup.
  - assert (low = high) by lia. subst high. simpl.
    rewrite Z.ltb_irrefl. exists (Z.to_nat low). rewrite Z2Nat.id by lia.
    split; [reflexivity|]. split; [lia|]. split.
    + destruct Hlow as [->|Hf]; [left; reflexivity|]. right.
      unfold fits in Hf. apply Z.leb_le in Hf. exact Hf.
    + intros Hm j Hj. apply (Hup Hm j). lia.
  - simpl. destruct (Z.ltb_spec low high) as [Hlt|Hge].
    + rewrite (add_exact low high) by (unfold in_range, min_int, max_int in *; lia).
      rewrite (add_exact (low + high) 1) by (unfold in_range, min_int, max_int in *; lia).
      rewrite Z.quot_div_nonneg by lia.
      assert (Hmid : low + 1 <= (low + high + 1) / 2 <= high).
      { split; [apply Z.div_le_lower_bound; lia | apply Z.div_le_upper_bound; lia]. }
      destruct (fits tokenCounter maxTokens words ((low + high + 1) / 2)) eqn:Hf.
      * apply IH; [lia | lia | lia | right; exact Hf | exact Hup].
      * apply IH; [lia | lia | lia | exact Hlow |].
        intros Hm j Hj.
        destruct (Z.le_gt_cases (Z.of_nat j) high) as [Hjh|Hjh]; [|apply (Hup Hm j); lia].
        unfold fits in Hf. apply Z.leb_gt in Hf.
        eapply Z.lt_le_trans; [exact Hf|]. apply Hm. lia.
    + assert (low = high) by lia. subst high.
      exists (Z.to_nat low). rewrite Z2Nat.id by lia.
      split; [reflexivity|]. split; [lia|]. split.
      * destruct Hlow as [->|Hf]; [left; reflexivity|]. right.
        unfold fits in Hf. apply Z.leb_le in Hf. exact Hf.
      * intros Hm j Hj. apply (Hup Hm j). lia.
Qed.

End Search.

(** [TruncateText] returns the empty text for an empty text and a text
    within the budget unchanged. A text over the budget comes back as its
    first [k] words joined by single spaces, followed by ["..."] when words
    were left out, where the words kept fit the budget unless [k] is 0, and
    where, with a counter that does not go down when words are added, no
    longer run of first words fits. The ellipsis itself is not counted. *)
Theorem TruncateText_spec (text : string) (maxTokens : Z) (tokenCounter : TokenCounter) :
  2 * Z.of_nat (length (GoStrings.Fields text)) < max_int ->
  exists result : string,
    TruncateText text maxTokens tokenCounter = Some result
    /\ (text = "" -> result = "")
    /\ (tokenCounter text <= maxTokens -> result = text)
    /\ (text <> "" -> maxTokens < tokenCounter text ->
        exists k : nat,
          truncatedTo tokenCounter maxTokens (GoStrings.Fields text) k result).
Proof.
  intros Hsmall. unfold TruncateText.
  destruct (String.eqb_spec text "") as [->|Hne].
  { exists "". split; [reflexivity|]. split; [reflexivity|]. split; [reflexivity|].
    intros H. congruence. }
  destruct (Z.leb_spec (tokenCounter text) maxTokens) as [Hfit|Hover].
  { exists text. split; [reflexivity|]. split; [congruence|]. split; [reflexivity|].
    intros _ H. lia. }
  destruct (GoStrings.Fields text) as [|w ws] eqn:Ew.
  { exists "". split; [reflexivity|]. split; [congruence|]. split; [lia|].
    intros _ _. exists 0%nat. unfold truncatedTo. simpl.
    split; [lia|]. split; [reflexivity|]. split; [left; reflexivity|].
    intros _ j Hj. lia. }
  destruct (search_spec tokenCounter maxTokens (w :: ws) Hsmall (length (w :: ws)) 0
              (Z.of_nat (length (w :: ws))))
    as (k & E & Hk & Hfits & Hmax); [lia | lia | lia | left; reflexivity | |].
  { intros _ j Hj. lia. }
  rewrite E. eexists. split; [reflexivity|]. split; [congruence|]. split; [lia|].
  intros _ _. exists k. unfold truncatedTo. rewrite Nat2Z.id.
  split; [exact Hk|]. split; [|split; assumption].
  destruct (Z.ltb_spec (Z.of_nat k) (Z.of_nat (length (w :: ws))));
    destruct (Nat.ltb_spec k (length (w :: ws))); try lia; reflexivity.
Qed.

Lemma TruncateText_spec_witness :
  exists result : string,
    TruncateText "alpha beta gamma delta" 3 SimpleCountTokens = Some result
    /\ ("alpha beta gamma delta" = "" -> result = "")
    /\ (SimpleCountTokens "alpha beta gamma delta" <= 3 -> result = "alpha beta gamma delta")
    /\ ("alpha beta gamma delta" <> "" ->
        3 < SimpleCountTokens "alpha beta gamma delta" ->
        exists k : nat,
          truncatedTo SimpleCountTokens 3 (GoStrings.Fields "alpha beta gamma delta")
            k result).
Proof.
  apply (TruncateText_spec "alpha beta gamma delta" 3 SimpleCountTokens).
  vm_compute. reflexivity.
Defined.

End TruncateFacts.

(** ** URIs, prefixes and substrings *)

Module DeriveFacts.
Import Derive.

Lemma append_nil (b : string) : String.append "" b = b.
Proof. reflexivity. Qed.

Lemma append_cons (c : ascii) (a b : string) :
  String.append (String c a) b = String c (String.append a b).
Proof. reflexivity. Qed.

Lemma append_nil_r (a : string) : String.append a "" = a.
Proof.
  induction a as [|c a IH]; [reflexivity|]. rewrite append_cons. f_equal. exact IH.
Qed.

Lemma append_length (a b : string) :
  String.length (String.append a b) = (String.length a + String.length b)%nat.
Proof.
  induction a as [|c a IH]; [reflexivity|]. rewrite append_cons. simpl.
  f_equal. exact IH.
Qed.

Lemma append_assoc (a b c : string) :
  String.append (String.append a b) c = String.append a (String.append b c).
Proof.
  induction a as [|x a IH]; [reflexivity|]. rewrite !append_cons. f_equal. exact IH.
Qed.

Lemma substring_prefix (sub post : string) :
  String.substring 0 (String.length sub) (String.append sub post) = sub.
Proof.
  induction sub as [|c sub IH].
  - rewrite append_nil. destruct post; reflexivity.
  - rewrite append_cons. simpl. f_equal. exact IH.
Qed.

Lemma substring_middle (pre sub post : string) :
  String.substring (String.length pre) (String.length sub)
    (String.append pre (String.append sub post)) = sub.
Proof.
  induction pre as [|c pre IH].
  - rewrite append_nil. apply substring_prefix.
  - rewrite append_cons. simpl. exact IH.
Qed.

Lemma substring_split (s : string) :
  forall i n : nat,
    (i + n <= String.length s)%nat ->
    exists pre post : string,
      s = String.append pre (String.append (String.substring i n s) post)
      /\ String.length pre = i.
Proof.
  induction s as [|c s IH]; intros i n H; simpl in H.
  - assert (i = 0%nat) by lia. assert (n = 0%nat) by lia. subst.
    exists "", "". split; reflexivity.
  - destruct i as [|i].
    + destruct n as [|n].
      * exists "", (String c s). split; reflexivity.
      * destruct (IH 0%nat n ltac:(lia)) as (pre & post & E & Hl).
        destruct pre; [|discriminate]. rewrite append_nil in E.
        exists "", post. simpl. rewrite append_nil, append_cons.
        split; [f_equal; exact E | reflexivity].
    + destruct (IH i n ltac:(lia)) as (pre & post & E & Hl).
      exists (String c pre), post. simpl. rewrite append_cons.
      split; [f_equal; exact E | f_equal; exact Hl].
Qed.

Lemma hasPrefix_spec (s prefix : string) :
  hasPrefix s prefix = true <-> exists rest : string, s = String.append prefix rest.
Proof.
  unfold hasPrefix, slice, len. rewrite Nat.sub_0_r. split.
  - intros H. apply andb_true_iff in H as [Hl He].
    apply Z.geb_le in Hl. apply String.eqb_eq in He.
    destruct (substring_split s 0 (String.length prefix) ltac:(lia))
      as (pre & post & E & Hp).
    destruct pre; [|discriminate]. rewrite append_nil, He in E. exists post. exact E.
  - intros [rest ->]. apply andb_true_iff. split.
    + apply Z.geb_le. rewrite append_length. lia.
    + rewrite substring_prefix. apply String.eqb_refl.
Qed.

Lemma contains_intro (pre substr post : string) :
  contains (String.append pre (String.append substr post)) substr = true.
Proof.
  unfold contains, containsHelper, slice, len. rewrite !append_length.
  apply andb_true_iff. split; [apply Z.geb_le; lia|].
  destruct (String.eqb_spec (String.append pre (String.append substr post)) substr)
    as [E|E]; [reflexivity|]. simpl.
  apply andb_true_iff. split.
  - apply Z.gtb_lt.
    destruct (String.length pre + (String.length substr + String.length post))%nat
      eqn:L; [|lia].
    exfalso. apply E. destruct pre, substr, post; simpl in L; try discriminate.
    reflexivity.
  - apply existsb_exists. exists (String.length pre). split.
    + apply in_seq. lia.
    + replace (String.length pre + String.length substr - String.length pre)%nat
        with (String.length substr) by lia.
      rewrite substring_middle. apply String.eqb_refl.
Qed.

(** [contains], with its helper loop, finds exactly the substrings:
    [contains(s, substr)] is true if and only if [s] is some text, then
    [substr], then some text. *)
Theorem contains_spec (s substr : string) :
  contains s substr = true
  <-> exists pre post : string, s = String.append pre (String.append substr post).
Proof.
  split.
  - unfold contains, containsHelper, slice, len.
    intros H. apply andb_true_iff in H as [Hl H]. apply Z.geb_le in Hl.
    apply orb_true_iff in H as [H|H].
    + apply String.eqb_eq in H. subst. exists "", "".
      rewrite append_nil, append_nil_r. reflexivity.
    + apply andb_true_iff in H as [_ H]. apply existsb_exists in H as (i & Hi & He).
      apply in_seq in Hi. apply String.eqb_eq in He.
      replace (i + String.length substr - i)%nat with (String.length substr) in He by lia.
      destruct (substring_split s i (String.length substr) ltac:(lia))
        as (pre & post & E & Hp).
      rewrite He in E. exists pre, post. exact E.
  - intros (pre & post & ->). apply contains_intro.
Qed.

Lemma contains_after_prefix (prefix mid rest : string) (s : string) :
  s = String.append (String.append prefix mid) rest -> contains s mid = true.
Proof.
  intros ->. rewrite append_assoc. apply contains_intro.
Qed.

(** A URI to which [deriveCategory] gives a category is one to which
    [deriveContextType] gives the type memory: the two derivations that
    [NewContext] makes from a URI agree. *)
Theorem deriveCategory_is_memory (uri : string) :
  deriveCategory uri <> "" -> deriveContextType uri = ContextTypeMemory.
Proof.
  intros Hcat.
  assert (Hmem : hasPrefix uri "viking://agent/memories" = true
                 \/ hasPrefix uri "viking://user/memories" = true).
  { unfold deriveCategory, userCategory in Hcat.
    destruct (hasPrefix uri "viking://agent/memories"); [left; reflexivity|].
    destruct (hasPrefix uri "viking://user/memories"); [right; reflexivity|].
    congruence. }
  unfold deriveContextType.
  destruct Hmem as [H|H]; apply hasPrefix_spec in H as [rest ->].
  - assert (Hskill : hasPrefix (String.append "viking://agent/memories" rest)
                       "viking://agent/skills" = false).
    { unfold hasPrefix. apply andb_false_iff. right. reflexivity. }
    rewrite Hskill.
    rewrite (contains_after_prefix "viking://agent/" "memories" rest); reflexivity.
  - assert (Hskill : hasPrefix (String.append "viking://user/memories" rest)
                       "viking://agent/skills" = false).
    { unfold hasPrefix. apply andb_false_iff. right. reflexivity. }
    rewrite Hskill.
    rewrite (contains_after_prefix "viking://user/" "memories" rest); reflexivity.
Qed.

Lemma deriveCategory_is_memory_witness :
  deriveContextType "viking://user/memories/preferences/theme" = ContextTypeMemory.
Proof.
  apply (deriveCategory_is_memory "viking://user/memories/preferences/theme").
  vm_compute. discriminate.
Defined.

End DeriveFacts.

(** ** The frontier is a min-heap as long as its scores are numbers *)

Module FrontierFacts.
Import GoHeap Retrieval Frontier.

(** *** A heap looks at its order on its own entries only *)

Section Elem.
Context {A : Type}.
Variable less : A -> A -> bool.

Lemma swap_elem (h : list A) (i j : nat) (y : A) : y ∈ swap h i j -> y ∈ h.
Proof.
  unfold swap. destruct (h !! i) as [a|] eqn:Hi; [|tauto].
  destruct (h !! j) as [b|] eqn:Hj; [|tauto].
  intros H. apply list_elem_of_lookup in H as [k Hk].
  destruct (decide (k = j)) as [->|Hkj].
  - rewrite list_lookup_insert_eq in Hk
      by (rewrite length_insert; eapply lookup_lt_Some; exact Hj).
    inversion Hk; subst. eapply list_elem_of_lookup_2. exact Hi.
  - rewrite list_lookup_insert_ne in Hk by congruence.
    destruct (decide (k = i)) as [->|Hki].
    + rewrite list_lookup_insert_eq in Hk by (eapply lookup_lt_Some; exact Hi).
      inversion Hk; subst. eapply list_elem_of_lookup_2. exact Hj.
    + rewrite list_lookup_insert_ne in Hk by congruence.
      eapply list_elem_of_lookup_2. exact Hk.
Qed.

Lemma upLoop_elem (fuel : nat) :
  forall (h : list A) (j : nat) (y : A), y ∈ upLoop less fuel h j -> y ∈ h.
Proof.
  induction fuel as [|fuel IH]; intros h j y; [tauto|].
  rewrite HeapFacts.upLoop_S. destruct (_ || _); [tauto|].
  intros H. eapply swap_elem. eapply IH. exact H.
Qed.

Lemma downLoop_elem (fuel : nat) :
  forall (h : list A) (i n : nat) (y : A), y ∈ downLoop less fuel h i n -> y ∈ h.
Proof.
  induction fuel as [|fuel IH]; intros h i n y; [tauto|].
  rewrite HeapFacts.downLoop_S. destruct (n <=? 2 * i + 1)%nat; [tauto|].
  destruct (negb _); [tauto|].
  intros H. eapply swap_elem. eapply IH. exact H.
Qed.

Lemma Push_elem (h : list A) (x y : A) : y ∈ Push less h x -> y ∈ h ++ [x].
Proof. unfold Push, up. apply upLoop_elem. Qed.

Lemma Pop_elem (h : list A) (x : A) (h' : list A) :
  Pop less h = Some (x, h') -> x ∈ h /\ forall y : A, y ∈ h' -> y ∈ h.
Proof.
  unfold Pop, down. destruct h as [|a t] eqn:Eh; [discriminate|]. rewrite <- Eh in *.
  destruct (downLoop less (length h - 1) (swap h 0 (length h - 1)) 0 (length h - 1)
            !! (length h - 1)%nat) as [z|] eqn:Hz; [|discriminate].
  intros H. inversion H; subst x h'. clear H.
  assert (Hsub : forall y, y ∈ downLoop less (length h - 1) (swap h 0 (length h - 1)) 0
                              (length h - 1) -> y ∈ h).
  { intros y Hy. eapply swap_elem. eapply downLoop_elem. exact Hy. }
  split.
  - apply Hsub. eapply list_elem_of_lookup_2. exact Hz.
  - intros y Hy. apply Hsub. eapply elem_of_sublist; [exact Hy | apply sublist_take].
Qed.

End Elem.

Section Agree.
Context {A : Type}.
Variables less less' : A -> A -> bool.

Lemma lessAt_agree (h : list A) (i j : nat) :
  (forall a b, a ∈ h -> b ∈ h -> less a b = less' a b) ->
  lessAt less h i j = lessAt less' h i j.
Proof.
  intros Hag. unfold lessAt.
  destruct (h !! i) as [a|] eqn:Hi; [|reflexivity].
  destruct (h !! j) as [b|] eqn:Hj; [|reflexivity].
  apply Hag; eapply list_elem_of_lookup_2; eassumption.
Qed.

Lemma upLoop_agree (fuel : nat) :
  forall (h : list A) (j : nat),
    (forall a b, a ∈ h -> b ∈ h -> less a b = less' a b) ->
    upLoop less fuel h j = upLoop less' fuel h j.
Proof.
  induction fuel as [|fuel IH]; intros h j Hag; [reflexivity|].
  rewrite !HeapFacts.upLoop_S, (lessAt_agree h j (parent j) Hag).
  destruct (_ || _); [reflexivity|].
  apply IH. intros a b Ha Hb. apply Hag; eapply swap_elem; eassumption.
Qed.

Lemma pick_agree (h : list A) (i n : nat) :
  (forall a b, a ∈ h -> b ∈ h -> less a b = less' a b) ->
  pick less h i n = pick less' h i n.
Proof. intros Hag. unfold pick. rewrite (lessAt_agree h _ _ Hag). reflexivity. Qed.

Lemma downLoop_agree (fuel : nat) :
  forall (h : list A) (i n : nat),
    (forall a b, a ∈ h -> b ∈ h -> less a b = less' a b) ->
    downLoop less fuel h i n = downLoop less' fuel h i n.
Proof.
  induction fuel as [|fuel IH]; intros h i n Hag; [reflexivity|].
  rewrite !HeapFacts.downLoop_S, (pick_agree h i n Hag),
    (lessAt_agree h (pick less' h i n) i Hag).
  destruct (n <=? 2 * i + 1)%nat; [reflexivity|].
  destruct (negb _); [reflexivity|].
  apply IH. intros a b Ha Hb. apply Hag; eapply swap_elem; eassumption.
Qed.

Lemma Push_agree (h : list A) (x : A) :
  (forall a b, a ∈ h ++ [x] -> b ∈ h ++ [x] -> less a b = less' a b) ->
  Push less h x = Push less' h x.
Proof. intros Hag. unfold Push, up. apply upLoop_agree, Hag. Qed.

Lemma Pop_agree (h : list A) :
  (forall a b, a ∈ h -> b ∈ h -> less a b = less' a b) ->
  Pop less h = Pop less' h.
Proof.
  intros Hag. unfold Pop, down. destruct h as [|a t] eqn:Eh; [reflexivity|].
  rewrite <- Eh in *.
  rewrite (downLoop_agree (length h - 1) (swap h 0 (length h - 1)) 0 (length h - 1));
    [reflexivity|].
  intros x y Hx Hy. apply Hag; eapply swap_elem; eassumption.
Qed.

Lemma heapOrdered_agree (h : list A) :
  (forall a b, a ∈ h -> b ∈ h -> less a b = less' a b) ->
  heapOrdered less h -> heapOrdered less' h.
Proof.
  intros Hag H k Hk. unfold ok. rewrite <- (lessAt_agree h k (parent k) Hag).
  apply H, Hk.
Qed.

End Agree.

(** *** The order on scores *)

Lemma Qltb_asym (x y : Q) : GoFloat.Qltb x y = true -> GoFloat.Qltb y x = false.
Proof.
  unfold GoFloat.Qltb. intros H. apply negb_true_iff in H. apply negb_false_iff.
  apply Qle_bool_iff. apply Qlt_le_weak. apply Qnot_le_lt. intros Hle.
  apply Qle_bool_iff in Hle. congruence.
Qed.

Lemma Qltb_negtrans (x y z : Q) :
  GoFloat.Qltb y x = false -> GoFloat.Qltb z y = false -> GoFloat.Qltb z x = false.
Proof.
  unfold GoFloat.Qltb. intros H1 H2.
  apply negb_false_iff in H1, H2. apply negb_false_iff.
  apply Qle_bool_iff in H1, H2. apply Qle_bool_iff. eapply Qle_trans; eassumption.
Qed.

Lemma ltTotal_asym (a b : GoFloat.float64) :
  GoFloat.ltTotal a b = true -> GoFloat.ltTotal b a = false.
Proof.
  destruct a, b; simpl; try discriminate; try reflexivity. apply Qltb_asym.
Qed.

Lemma ltTotal_negtrans (a b c : GoFloat.float64) :
  GoFloat.ltTotal b a = false -> GoFloat.ltTotal c b = false ->
  GoFloat.ltTotal c a = false.
Proof.
  destruct a, b, c; simpl; try discriminate; try reflexivity. apply Qltb_negtrans.
Qed.

Lemma heapLessTotal_asym (a b : SearchResult) :
  heapLessTotal a b = true -> heapLessTotal b a = false.
Proof. apply ltTotal_asym. Qed.

Lemma heapLessTotal_negtrans (a b c : SearchResult) :
  heapLessTotal b a = false -> heapLessTotal c b = false -> heapLessTotal c a = false.
Proof. apply ltTotal_negtrans. Qed.

(** On numbers the two orders are the same. *)
Lemma heapLess_total (q : list SearchResult) :
  finiteScores q ->
  forall a b : SearchResult, a ∈ q -> b ∈ q -> heapLess a b = heapLessTotal a b.
Proof.
  intros Hq a b Ha Hb. unfold finiteScores in Hq. rewrite Forall_forall in Hq.
  pose proof (Hq a Ha) as Fa. pose proof (Hq b Hb) as Fb.
  unfold heapLess, heapLessTotal.
  destruct (srScore a), (srScore b); simpl in *; try contradiction. reflexivity.
Qed.

Lemma total_heapLess (q : list SearchResult) :
  finiteScores q ->
  forall a b : SearchResult, a ∈ q -> b ∈ q -> heapLessTotal a b = heapLess a b.
Proof. intros Hq a b Ha Hb. symmetry. apply (heapLess_total q); assumption. Qed.

Lemma finiteScores_snoc (q : list SearchResult) (x : SearchResult) :
  finiteScores q -> GoFloat.finite (srScore x) -> finiteScores (q ++ [x]).
Proof.
  intros Hq Hx. apply Forall_app. split; [exact Hq|]. constructor; [exact Hx | constructor].
Qed.

Lemma finiteScores_sub (q q' : list SearchResult) :
  (forall y : SearchResult, y ∈ q' -> y ∈ q) -> finiteScores q -> finiteScores q'.
Proof.
  unfold finiteScores. rewrite !Forall_forall. intros Hsub Hq y Hy. apply Hq, Hsub, Hy.
Qed.

(** *** Push and Pop on a frontier of numbers *)

Lemma heapPush_ok (q : list SearchResult) (x : SearchResult) :
  heapOrdered heapLess q -> finiteScores q -> GoFloat.finite (srScore x) ->
  heapOrdered heapLess (heapPush q x) /\ finiteScores (heapPush q x).
Proof.
  intros Ho Hq Hx. pose proof (finiteScores_snoc q x Hq Hx) as Hqx.
  assert (Hfin : finiteScores (heapPush q x)).
  { eapply finiteScores_sub; [|exact Hqx]. intros y Hy. unfold heapPush in Hy.
    exact (Push_elem heapLess q x y Hy). }
  split; [|exact Hfin].
  apply (heapOrdered_agree heapLessTotal heapLess _ (total_heapLess _ Hfin)).
  unfold heapPush. rewrite (Push_agree heapLess heapLessTotal q x (heapLess_total _ Hqx)).
  apply (HeapFacts.Push_ordered heapLessTotal heapLessTotal_asym heapLessTotal_negtrans).
  apply (heapOrdered_agree heapLess heapLessTotal _ (heapLess_total _ Hq)). exact Ho.
Qed.

Lemma heapPop_ok (q : list SearchResult) (item : SearchResult) (rest : list SearchResult) :
  heapOrdered heapLess q -> finiteScores q -> heapPop q = Some (item, rest) ->
  item ∈ q
  /\ (forall y : SearchResult, y ∈ q -> heapLess y item = false)
  /\ heapOrdered heapLess rest
  /\ finiteScores rest.
Proof.
  intros Ho Hq Hpop. unfold heapPop in Hpop.
  destruct (Pop_elem heapLess q item rest Hpop) as [Hitem Hrest].
  pose proof (finiteScores_sub q rest Hrest Hq) as Hfin.
  rewrite (Pop_agree heapLess heapLessTotal q (heapLess_total _ Hq)) in Hpop.
  destruct (HeapFacts.Pop_spec heapLessTotal heapLessTotal_asym heapLessTotal_negtrans
              q item rest
              (heapOrdered_agree heapLess heapLessTotal _ (heapLess_total _ Hq) Ho) Hpop)
    as (_ & Hmin & Hord & _).
  split; [exact Hitem|]. split; [|split; [|exact Hfin]].
  - intros y Hy. rewrite (heapLess_total q Hq y item Hy Hitem). apply Hmin, Hy.
  - apply (heapOrdered_agree heapLessTotal heapLess _ (total_heapLess _ Hfin)). exact Hord.
Qed.

(** *** The loop keeps the frontier a heap of numbers *)

Lemma initialState_ok (startingPoints : list HeapItem) :
  Forall (fun sp => GoFloat.finite (hiScore sp)) startingPoints ->
  frontierOK (initialState startingPoints).
Proof.
  unfold frontierOK, queueOrdered, initialState. simpl.
  assert (H : heapOrdered heapLess (@nil SearchResult) /\ finiteScores (@nil SearchResult)).
  { split; [intros k Hk; simpl in Hk; lia | constructor]. }
  revert H. generalize (@nil SearchResult).
  induction startingPoints as [|sp sps IH]; intros q [Ho Hq] Hsp; simpl;
    [split; assumption|].
  inversion Hsp as [|? ? Hs Hrest]; subst.
  apply IH; [|exact Hrest]. apply heapPush_ok; assumption.
Qed.

Lemma finalScore_finite (alpha childScore currentScore : GoFloat.float64) :
  GoFloat.finite alpha -> GoFloat.finite childScore -> GoFloat.finite currentScore ->
  GoFloat.finite
    (GoFloat.add (GoFloat.mul alpha childScore)
       (GoFloat.mul (GoFloat.sub 1 alpha) currentScore)).
Proof.
  destruct alpha, childScore, currentScore; simpl; try contradiction. intros _ _ _. exact I.
Qed.

Lemma childStep_ok (alpha currentScore : GoFloat.float64) (currentURI : string)
  (opts : SearchOptions) (st : LoopState) (child : SearchResult) :
  GoFloat.finite alpha -> GoFloat.finite currentScore -> GoFloat.finite (srScore child) ->
  frontierOK st -> frontierOK (childStep alpha currentScore currentURI opts st child).
Proof.
  intros Ha Hc Hs [Ho Hq]. unfold frontierOK, queueOrdered, childStep.
  destruct (negb (thresholdPassed opts _)); [split; assumption|].
  destruct (negb (srIsLeaf child)); simpl; [|split; assumption].
  apply heapPush_ok; [exact Ho | exact Hq|]. simpl.
  apply finalScore_finite; assumption.
Qed.

Lemma children_ok (alpha currentScore : GoFloat.float64) (currentURI : string)
  (opts : SearchOptions) (children : list SearchResult) :
  GoFloat.finite alpha -> GoFloat.finite currentScore -> finiteScores children ->
  forall st : LoopState,
    frontierOK st ->
    frontierOK (fold_left (childStep alpha currentScore currentURI opts) children st).
Proof.
  intros Ha Hc. induction children as [|c cs IH]; intros Hcs st H; simpl; [exact H|].
  inversion Hcs as [|? ? Hs Hrest]; subst.
  apply IH; [exact Hrest|]. apply childStep_ok; assumption.
Qed.

Lemma convergenceCheck_queue (hr : HierarchicalRetriever) (opts : SearchOptions)
  (st st' : LoopState) :
  convergenceCheck hr opts st = Next st' \/ convergenceCheck hr opts st = Converged st' ->
  dirQueue st' = dirQueue st.
Proof.
  unfold convergenceCheck. destruct (getTopK (collected st) (Limit opts)) as [topk|].
  - destruct (_ && _).
    + destruct (_ >=? _); intros [H|H]; inversion H; reflexivity.
    + intros [H|H]; inversion H; reflexivity.
  - intros [H|H]; discriminate.
Qed.

Lemma searchChildren_finite (hr : HierarchicalRetriever) (parentURI : string)
  (queryVector : option EmbedResult) (limit : Z) (children : list SearchResult) :
  finiteStore hr ->
  searchChildren hr parentURI queryVector limit = Some children -> finiteScores children.
Proof.
  intros Hstore. unfold searchChildren.
  destruct (vectorStore hr) as [vs|] eqn:E.
  - apply (Hstore vs E).
  - intros H. inversion H. constructor.
Qed.

Lemma iteration_ok (hr : HierarchicalRetriever) (queryVector : option EmbedResult)
  (opts : SearchOptions) (st st' : LoopState) :
  GoFloat.finite (ScorePropagationAlpha (rconfig hr)) -> finiteStore hr ->
  frontierOK st ->
  iteration hr queryVector opts st = Next st'
  \/ iteration hr queryVector opts st = Converged st' ->
  frontierOK st'.
Proof.
  intros Ha Hstore [Ho Hq]. unfold iteration.
  destruct (heapPop (dirQueue st)) as [[item queue1]|] eqn:Epop;
    [|intros [H|H]; discriminate].
  destruct (heapPop_ok (dirQueue st) item queue1 Ho Hq Epop) as (Hitem & _ & Ho1 & Hq1).
  assert (Hfi : GoFloat.finite (srScore item)).
  { unfold finiteScores in Hq. rewrite Forall_forall in Hq. apply Hq, Hitem. }
  destruct (bool_decide (srURI item ∈ visited st)).
  - intros [H|H]; inversion H. split; assumption.
  - destruct (searchChildren hr (srURI item) queryVector _) as [children|] eqn:Ec.
    + intros H. unfold frontierOK, queueOrdered.
      rewrite (convergenceCheck_queue _ _ _ _ H).
      apply children_ok;
        [exact Ha | exact Hfi | exact (searchChildren_finite _ _ _ _ _ Hstore Ec) |].
      split; assumption.
    + intros [H|H]; inversion H. split; assumption.
Qed.

Lemma iterate_ok (hr : HierarchicalRetriever) (queryVector : option EmbedResult)
  (opts : SearchOptions) (n : nat) :
  GoFloat.finite (ScorePropagationAlpha (rconfig hr)) -> finiteStore hr ->
  forall st st' : LoopState,
    frontierOK st -> iterate hr queryVector opts n st = Some st' -> frontierOK st'.
Proof.
  intros Ha Hstore. induction n as [|n IH]; intros st st' Hq; simpl.
  - intros H. inversion H; subst. exact Hq.
  - destruct (dirQueue st) eqn:Eq; [discriminate|].
    destruct (iteration hr queryVector opts st) as [st1| |] eqn:Eit; try discriminate.
    apply IH. eapply iteration_ok; [exact Ha | exact Hstore | exact Hq | left; exact Eit].
Qed.

(** The order in which the frontier is consumed, when every score that
    enters the search is a number: the scores of the starting points, the
    propagation factor and the scores the vector store returns. In every
    state the loop then reaches, the pop that opens the next pass hands out
    an entry of the frontier whose score is the lowest. *)
Theorem pop_takes_lowest (hr : HierarchicalRetriever) (queryVector : option EmbedResult)
  (opts : SearchOptions) (startingPoints : list HeapItem) (n : nat)
  (st : LoopState) (item : SearchResult) (rest : list SearchResult) :
  Forall (fun sp => GoFloat.finite (hiScore sp)) startingPoints ->
  GoFloat.finite (ScorePropagationAlpha (rconfig hr)) ->
  finiteStore hr ->
  iterate hr queryVector opts n (initialState startingPoints) = Some st ->
  heapPop (dirQueue st) = Some (item, rest) ->
  item ∈ dirQueue st
  /\ forall y : SearchResult,
       y ∈ dirQueue st -> GoFloat.le (srScore item) (srScore y) = true.
Proof.
  intros Hsp Ha Hstore Hit Hpop.
  destruct (iterate_ok hr queryVector opts n Ha Hstore _ _ (initialState_ok _ Hsp) Hit)
    as [Ho Hq].
  destruct (heapPop_ok (dirQueue st) item rest Ho Hq Hpop) as (Hitem & Hmin & _ & _).
  split; [exact Hitem|].
  intros y Hy. specialize (Hmin y Hy).
  unfold finiteScores in Hq. rewrite Forall_forall in Hq.
  pose proof (Hq y Hy) as Fy. pose proof (Hq item Hitem) as Fi.
  unfold heapLess in Hmin.
  destruct (srScore y), (srScore item); simpl in *; try contradiction.
  unfold GoFloat.Qltb in Hmin. apply negb_false_iff in Hmin. exact Hmin.
Qed.

Lemma hitRetriever_finiteStore : finiteStore hitRetriever.
Proof.
  intros vs Hvs queryVector limit filter results H.
  inversion Hvs; subst vs. unfold hitStore in H.
  destruct filter; inversion H; repeat constructor.
Qed.

Lemma pop_takes_lowest_witness :
  exists (item : SearchResult) (rest : list SearchResult),
    heapPop (dirQueue (initialState
                         (startingPointsOf hitRetriever resourceQuery defaultOptions
                            (Some (mkEmbedResult [1%Q])))))
    = Some (item, rest)
    /\ srURI item = "viking://resources"
    /\ forall y : SearchResult,
         y ∈ dirQueue (initialState
                         (startingPointsOf hitRetriever resourceQuery defaultOptions
                            (Some (mkEmbedResult [1%Q])))) ->
         GoFloat.le (srScore item) (srScore y) = true.
Proof.
  destruct (heapPop (dirQueue (initialState
                         (startingPointsOf hitRetriever resourceQuery defaultOptions
                            (Some (mkEmbedResult [1%Q]))))))
    as [[item rest]|] eqn:E; [|vm_compute in E; discriminate].
  exists item, rest. split; [reflexivity|]. split.
  - vm_compute in E. inversion E. reflexivity.
  - apply (pop_takes_lowest hitRetriever (Some (mkEmbedResult [1%Q])) defaultOptions
             (startingPointsOf hitRetriever resourceQuery defaultOptions
                (Some (mkEmbedResult [1%Q])))
             0 _ item rest).
    + repeat constructor.
    + exact I.
    + exact hitRetriever_finiteStore.
    + reflexivity.
    + exact E.
Defined.

(** With a NaN among the scores the order is lost: [Less] is false both ways
    on NaN, so the entry with score 0 does not rise past it, and the first
    pop hands out the entry with score 1 while the one with score 0 is still
    queued. *)
Example pop_with_NaN :
  option_map (fun out => (srURI (fst out), map srURI (snd out)))
    (heapPop (dirQueue (initialState nanPoints)))
  = Some ("viking://a", ["viking://d"; "viking://b"; "viking://c"]).
Proof. vm_compute. reflexivity. Qed.

End FrontierFacts.
